(** * Real-time synchronisation layer of the raffle manager

    A shallow embedding of the four cooperating pieces of the server:
    the in-memory [DataCache] (cache/index.js), the version table and the
    debounced database saver (db/index.js with db/schema.sql), the
    [SSEManager] hub (sse/index.js) and the handlers of server.js that
    tie them together.  Time is the integer millisecond clock that
    [Date.now()] reads. *)

From Stdlib Require Import ZArith Lia Bool List Ascii String.
From stdpp Require Import base option list gmap strings pretty.

Local Open Scope Z_scope.

(** ** JSON values *)

#[warnings="-register-all"] Inductive json :=
| JNull
| JBool (b : bool)
| JNum (n : Z)
| JStr (s : string)
| JArr (xs : list json)
| JObj (fields : list (string * json)).

(** ** Observable effects and the monad of a handler turn *)

(** Statements are named after the members of [statements] in
    db/index.js; the version increment carries its key. *)
Inductive label :=
| LStatement (name : string)
| LIncrementVersion (key : string).

(** What a synchronous piece of code does to the outside, in program
    order. *)
Inductive action :=
| ARun (l : label)                       (* db.run(sql, params) *)
| AClearTimeout (id : nat)               (* clearTimeout(saveTimeout) *)
| ASetTimeout (id : nat) (deadline : Z)  (* setTimeout(..., 1000) *)
| ATimerFired (id : nat)                 (* the timer callback starts *)
| ASaveDatabase                          (* saveDatabase() is entered *)
| AWriteStart                            (* export done, file write under way *)
| AWriteEnd (ok : bool)                  (* the awaited file operations settle *)
| ASetImmediate                          (* setImmediate(() => saveDatabase()) *)
| ACacheInvalidate (key : string)        (* cache.invalidate(key) *)
| ABroadcast (event : string) (data : json)  (* sseManager.broadcast(event, data) *)
| AWrite (client : nat) (text : string) (ok : bool). (* client.write(text) *)

(** Outcome of a call: a value or a thrown exception. *)
Inductive result (A : Type) :=
| Ok (a : A)
| Throw.

Arguments Ok {A} a.
Arguments Throw {A}.

(** State, exceptions and the list of effects.  An exception keeps the
    state reached when it was thrown: JS has no rollback. *)
Definition M (S A : Type) : Type := S → result A * S * list action.

Definition ret {S A} (a : A) : M S A := λ s, (Ok a, s, []).

Definition bind {S A B} (m : M S A) (k : A → M S B) : M S B :=
  λ s, match m s with
       | (Ok a, s1, l1) => let '(r, s2, l2) := k a s1 in (r, s2, l1 ++ l2)
       | (Throw, s1, l1) => (Throw, s1, l1)
       end.

#[global] Instance M_ret S : MRet (M S) := λ A, ret.
#[global] Instance M_bind S : MBind (M S) := λ A B k m, bind m k.

Definition get_state {S} : M S S := λ s, (Ok s, s, []).
Definition modify {S} (f : S → S) : M S unit := λ s, (Ok tt, f s, []).
Definition tell {S} (a : action) : M S unit := λ s, (Ok tt, s, [a]).
Definition throw {S A} : M S A := λ s, (Throw, s, []).

(** [try { m } catch (err) { h }]. *)
Definition try_catch {S A} (m h : M S A) : M S A :=
  λ s, match m s with
       | (Ok a, s1, l1) => (Ok a, s1, l1)
       | (Throw, s1, l1) => let '(r, s2, l2) := h s1 in (r, s2, l1 ++ l2)
       end.

(** [for (const x of xs) { body(x) }]. *)
Fixpoint for_each {S A} (xs : list A) (body : A → M S unit) : M S unit :=
  match xs with
  | [] => mret tt
  | x :: rest => body x;; for_each rest body
  end.

(** Run a computation on one component of a larger state. *)
Definition zoom {S1 S2 A} (proj : S2 → S1) (upd : S1 → S2 → S2) (m : M S1 A)
  : M S2 A :=
  λ w, let '(r, s, l) := m (proj w) in (r, upd s w, l).

Definition state_of {S A} (x : result A * S * list action) : S := snd (fst x).
Definition value_of {S A} (x : result A * S * list action) : result A := fst (fst x).
Definition trace_of {S A} (x : result A * S * list action) : list action := snd x.

(** The computation never leaves the set of states [P]. *)
Definition keeps {S A} (P : S → Prop) (m : M S A) : Prop :=
  ∀ s, P s → P (state_of (m s)).

(** [x || d] on a number that may be missing: [undefined] and [0] are the
    falsy cases. *)
Definition or_default (x : option Z) (d : Z) : Z :=
  match x with
  | Some n => if n =? 0 then d else n
  | None => d
  end.

(** ** The text helpers of the runtime *)

Definition dquote : ascii := "034"%char.
Definition backslash : ascii := "092"%char.
Definition newline : string := String "010"%char EmptyString.

Definition hex_digit (n : N) : ascii :=
  if (n <? 10)%N then ascii_of_N (48 + n) else ascii_of_N (87 + n).

(** One character inside a JSON string literal. *)
Definition escape_char (a : ascii) : string :=
  let n := N_of_ascii a in
  if (n =? 34)%N then String backslash (String dquote EmptyString)
  else if (n =? 92)%N then String backslash (String backslash EmptyString)
  else if (n =? 8)%N then String backslash "b"
  else if (n =? 12)%N then String backslash "f"
  else if (n =? 10)%N then String backslash "n"
  else if (n =? 13)%N then String backslash "r"
  else if (n =? 9)%N then String backslash "t"
  else if (n <? 32)%N
       then String backslash
              ("u00" +:+ String (hex_digit (n / 16)) (String (hex_digit (n mod 16)) EmptyString))
  else String a EmptyString.

Fixpoint escape (s : string) : string :=
  match s with
  | EmptyString => EmptyString
  | String a rest => escape_char a +:+ escape rest
  end.

Definition quote (s : string) : string :=
  String dquote (escape s +:+ String dquote EmptyString).

Fixpoint join (sep : string) (xs : list string) : string :=
  match xs with
  | [] => EmptyString
  | [x] => x
  | x :: rest => x +:+ sep +:+ join sep rest
  end.

(** [JSON.stringify]; integers print in decimal. *)
Fixpoint stringify (j : json) : string :=
  match j with
  | JNull => "null"
  | JBool true => "true"
  | JBool false => "false"
  | JNum n => pretty n
  | JStr s => quote s
  | JArr xs => "[" +:+ join "," (List.map stringify xs) +:+ "]"
  | JObj fields =>
      "{" +:+ join "," (List.map (λ kv, quote (fst kv) +:+ ":" +:+ stringify (snd kv)) fields)
          +:+ "}"
  end.

(** [!!x] for a JSON value. *)
Definition truthy (j : json) : bool :=
  match j with
  | JNull => false
  | JBool b => b
  | JNum n => negb (n =? 0)
  | JStr s => negb (String.eqb s EmptyString)
  | JArr _ | JObj _ => true
  end.

(** [String(n)] for an integer, in plain decimal (JS turns to exponent
    notation only from 10^21 on). *)
Definition to_string (n : Z) : string := pretty n.

(** The white space that [parseInt] skips, among the characters of a
    Latin-1 header value: tab to carriage return, space and no-break
    space. *)
Definition is_space (a : ascii) : bool :=
  let n := N_of_ascii a in
  ((9 <=? n) && (n <=? 13) || (n =? 32) || (n =? 160))%N.

Fixpoint skip_spaces (s : string) : string :=
  match s with
  | String a rest => if is_space a then skip_spaces rest else s
  | EmptyString => EmptyString
  end.

(** Value of a digit in the given radix (10 or 16). *)
Definition digit_value (radix : Z) (a : ascii) : option Z :=
  let n := Z.of_N (N_of_ascii a) in
  let v := if (48 <=? n) && (n <=? 57) then Some (n - 48)
           else if (97 <=? n) && (n <=? 102) then Some (n - 87)
           else if (65 <=? n) && (n <=? 70) then Some (n - 55)
           else None in
  match v with
  | Some d => if d <? radix then Some d else None
  | None => None
  end.

(** The longest prefix of digits, read left to right; [None] when there is
    no digit at all. *)
Fixpoint read_digits (radix : Z) (acc : option Z) (s : string) : option Z :=
  match s with
  | EmptyString => acc
  | String a rest =>
      match digit_value radix a with
      | Some d => read_digits radix (Some (default 0 acc * radix + d)) rest
      | None => acc
      end
  end.

(** [parseInt(s)] with no radix argument; [None] is [NaN]. *)
Definition parseInt (s : string) : option Z :=
  let s1 := skip_spaces s in
  let '(sign, s2) :=
    match s1 with
    | String c rest =>
        if Ascii.eqb c "-" then (-1, rest)
        else if Ascii.eqb c "+" then (1, rest)
        else (1, s1)
    | EmptyString => (1, s1)
    end in
  let '(radix, s3) :=
    match s2 with
    | String c (String x rest) =>
        if Ascii.eqb c "0" && (Ascii.eqb x "x" || Ascii.eqb x "X")
        then (16, rest) else (10, s2)
    | _ => (10, s2)
    end in
  (λ n, sign * n) <$> read_digits radix None s3.

(** Strings made of decimal digits only. *)
Fixpoint all_digits (s : string) : Prop :=
  match s with
  | EmptyString => True
  | String c rest => (∃ d, (d < 10)%N ∧ c = pretty_N_char d) ∧ all_digits rest
  end.

(** ** cache/index.js *)

Module Cache.

Section WithPayload.

Context {P : Type}.

(** The object literal stored by [set]. *)
Record entry := Entry {
  data : P;
  version : Z;
  expiresAt : Z;
  cachedAt : Z
}.

(** [this.cache] and [this.versions], two JS [Map]s keyed by string. *)
Record DataCache := Build {
  cache : gmap string entry;
  versions : gmap string Z
}.

(** [constructor()]: both maps start empty. *)
Definition new : DataCache := {| cache := ∅; versions := ∅ |}.

(** [this.TTL], in milliseconds.  The cache is keyed by the domain names
    of the server, and [this.TTL[key]] is read as a lookup among the
    entries of this literal. *)
Definition TTL : gmap string Z :=
  <["raffles" := 30000]> (<["rules" := 300000]> (<["sponsors" := 300000]> ∅)).

(** [const ttl = this.TTL[key] || 5000]. *)
Definition ttl_of (key : string) : Z := or_default (TTL !! key) 5000.

(** [get(key)] when [Date.now()] reads [now]; [None] is JS [null]. *)
Definition get (now : Z) (key : string) (c : DataCache) : option P * DataCache :=
  match cache c !! key with
  | None => (None, c)
  | Some e =>
      if now >? expiresAt e
      then (None, {| cache := delete key (cache c); versions := versions c |})
      else (Some (data e), c)
  end.

(** [getWithVersion(key)]. *)
Definition getWithVersion (now : Z) (key : string) (c : DataCache)
  : option (P * Z) * DataCache :=
  match cache c !! key with
  | None => (None, c)
  | Some e =>
      if now >? expiresAt e
      then (None, {| cache := delete key (cache c); versions := versions c |})
      else (Some (data e, version e), c)
  end.

(** [set(key, data, version)].  The method reads the clock twice, first
    for [expiresAt] and then for [cachedAt]. *)
Definition set (now now' : Z) (key : string) (d : P) (v : Z) (c : DataCache)
  : DataCache :=
  {| cache := <[key := {| data := d; version := v;
                          expiresAt := now + ttl_of key;
                          cachedAt := now' |}]> (cache c);
     versions := <[key := v]> (versions c) |}.

(** [getVersion(key)]: [this.versions.get(key) || 0]. *)
Definition getVersion (key : string) (c : DataCache) : Z :=
  or_default (versions c !! key) 0.

(** [invalidate(key)]. *)
Definition invalidate (key : string) (c : DataCache) : DataCache :=
  {| cache := delete key (cache c); versions := delete key (versions c) |}.

(** [invalidateAll()]. *)
Definition invalidateAll (c : DataCache) : DataCache :=
  {| cache := ∅; versions := ∅ |}.

(** [cleanup()]: drop every entry with [now > entry.expiresAt]. *)
Definition cleanup (now : Z) (c : DataCache) : DataCache :=
  {| cache := filter (λ kv, ¬ (now > expiresAt (snd kv))) (cache c);
     versions := versions c |}.

(** [getStats()]: counts only, the cache is not touched. *)
Record stats := Stats {
  validEntries : nat;
  expiredEntries : nat;
  totalEntries : nat;
  keys : list string
}.

Definition getStats (now : Z) (c : DataCache) : stats :=
  {| validEntries := size (filter (λ kv, ¬ (now > expiresAt (snd kv))) (cache c));
     expiredEntries := size (filter (λ kv, now > expiresAt (snd kv)) (cache c));
     totalEntries := size (cache c);
     keys := fst <$> map_to_list (cache c) |}.

(** *** Calls made between two observations

    A later call on the singleton cache, with the clock reading it sees. *)
Inductive call :=
| CGet (now : Z) (key : string)
| CGetWithVersion (now : Z) (key : string)
| CSet (now now' : Z) (key : string) (d : P) (v : Z)
| CGetVersion (key : string)
| CInvalidate (key : string)
| CInvalidateAll
| CGetStats (now : Z)
| CCleanup (now : Z).

Definition exec (x : call) (c : DataCache) : DataCache :=
  match x with
  | CGet now key => snd (get now key c)
  | CGetWithVersion now key => snd (getWithVersion now key c)
  | CSet now now' key d v => set now now' key d v c
  | CGetVersion _ => c
  | CInvalidate key => invalidate key c
  | CInvalidateAll => invalidateAll c
  | CGetStats _ => c
  | CCleanup now => cleanup now c
  end.

Definition exec_all (xs : list call) (c : DataCache) : DataCache :=
  foldl (λ c x, exec x c) c xs.

(** The call neither sets nor invalidates [k]. *)
Definition leaves (k : string) (x : call) : bool :=
  match x with
  | CSet _ _ key _ _ => negb (String.eqb key k)
  | CInvalidate key => negb (String.eqb key k)
  | CInvalidateAll => false
  | _ => true
  end.

(** The call does not set [k]. *)
Definition no_set (k : string) (x : call) : bool :=
  match x with
  | CSet _ _ key _ _ => negb (String.eqb key k)
  | _ => true
  end.

(** The clock reading of a call that consults the clock for expiry. *)
Definition read_time (x : call) : option Z :=
  match x with
  | CGet now _ | CGetWithVersion now _ | CCleanup now | CGetStats now => Some now
  | _ => None
  end.

(** No expiry check of [xs] happens later than [t]. *)
Definition reads_by (t : Z) (xs : list call) : Prop :=
  Forall (λ x, ∀ now, read_time x = Some now → now <= t) xs.

End WithPayload.

Arguments entry : clear implicits.
Arguments DataCache : clear implicits.
Arguments call : clear implicits.

End Cache.

(** ** db/index.js and db/schema.sql *)

Module Db.

Section WithTables.

(** The tables other than [data_versions] (raffles, users, rules,
    sponsors) and what the schema script does to them. *)
Context {T : Type}.
Context (empty_tables : T) (schema_tables : T → T).

(** A row of [data_versions], without its key.  The counter is an
    unbounded integer here: it starts at 0 and moves by one, far below
    the range where SQLite integers and JS numbers part ways. *)
Record version_row := Row {
  version : Z;
  updated_at : string
}.

(** The sql.js database held in [db]. *)
Record database := Database {
  data_versions : gmap string version_row;
  tables : T
}.

(** The module-level variables, followed by the parts of the event loop
    and of the file system that the module drives: armed timers with
    their deadlines, queued [setImmediate] callbacks, the buffers of the
    [saveDatabase] activations suspended in their file operations, and the
    file at [DB_PATH]. *)
Record state := State {
  db : option database;
  initialized : bool;
  saveTimeout : option nat;
  isWriting : bool;
  pendingWrite : bool;
  timers : list (nat * Z);
  next_timer : nat;
  immediates : nat;
  writing : list database;
  disk : option database
}.

Definition set_db (x : option database) (s : state) : state :=
  State x (initialized s) (saveTimeout s) (isWriting s) (pendingWrite s)
        (timers s) (next_timer s) (immediates s) (writing s) (disk s).
Definition set_initialized (x : bool) (s : state) : state :=
  State (db s) x (saveTimeout s) (isWriting s) (pendingWrite s)
        (timers s) (next_timer s) (immediates s) (writing s) (disk s).
Definition set_saveTimeout (x : option nat) (s : state) : state :=
  State (db s) (initialized s) x (isWriting s) (pendingWrite s)
        (timers s) (next_timer s) (immediates s) (writing s) (disk s).
Definition set_isWriting (x : bool) (s : state) : state :=
  State (db s) (initialized s) (saveTimeout s) x (pendingWrite s)
        (timers s) (next_timer s) (immediates s) (writing s) (disk s).
Definition set_pendingWrite (x : bool) (s : state) : state :=
  State (db s) (initialized s) (saveTimeout s) (isWriting s) x
        (timers s) (next_timer s) (immediates s) (writing s) (disk s).
Definition set_timers (x : list (nat * Z)) (s : state) : state :=
  State (db s) (initialized s) (saveTimeout s) (isWriting s) (pendingWrite s)
        x (next_timer s) (immediates s) (writing s) (disk s).
Definition set_next_timer (x : nat) (s : state) : state :=
  State (db s) (initialized s) (saveTimeout s) (isWriting s) (pendingWrite s)
        (timers s) x (immediates s) (writing s) (disk s).
Definition set_immediates (x : nat) (s : state) : state :=
  State (db s) (initialized s) (saveTimeout s) (isWriting s) (pendingWrite s)
        (timers s) (next_timer s) x (writing s) (disk s).
Definition set_writing (x : list database) (s : state) : state :=
  State (db s) (initialized s) (saveTimeout s) (isWriting s) (pendingWrite s)
        (timers s) (next_timer s) (immediates s) x (disk s).
Definition set_disk (x : option database) (s : state) : state :=
  State (db s) (initialized s) (saveTimeout s) (isWriting s) (pendingWrite s)
        (timers s) (next_timer s) (immediates s) (writing s) x.

(** The module as loaded: [db = null], no timer, no write, and whatever
    file a previous run left at [DB_PATH]. *)
Definition initial (file : option database) : state :=
  State None false None false false [] 0 0 [] file.

(** *** The event loop primitives *)

(** [setTimeout(callback, delay)] at clock reading [now]. *)
Definition setTimeout (now delay : Z) : M state nat :=
  s ← get_state;
  let id := next_timer s in
  modify (set_timers (timers s ++ [(id, now + delay)]));;
  modify (set_next_timer (S id));;
  tell (ASetTimeout id (now + delay));;
  mret id.

(** [clearTimeout(id)]: a timer that already fired is not in the list and
    nothing happens. *)
Definition clearTimeout (id : nat) : M state unit :=
  s ← get_state;
  modify (set_timers (filter (λ p, fst p ≠ id) (timers s)));;
  tell (AClearTimeout id).

Definition setImmediate : M state unit :=
  s ← get_state;
  modify (set_immediates (S (immediates s)));;
  tell ASetImmediate.

(** *** The saver *)

(** The quiescence window of [scheduleSave]. *)
Definition save_delay : Z := 1000.

(** [scheduleSave()]. *)
Definition scheduleSave (now : Z) : M state unit :=
  s ← get_state;
  match saveTimeout s with
  | Some id => clearTimeout id
  | None => mret tt
  end;;
  id ← setTimeout now save_delay;
  modify (set_saveTimeout (Some id)).

(** The [finally] block of [saveDatabase]. *)
Definition finish_write : M state unit :=
  modify (set_isWriting false);;
  s ← get_state;
  if pendingWrite s
  then modify (set_pendingWrite false);; setImmediate
  else mret tt.

(** [saveDatabase()] up to its first [await].  [export_ok = false] is the
    case where [db.export()] or [Buffer.from] throws: the [catch] logs
    and the [finally] block runs in the same turn. *)
Definition saveDatabase (export_ok : bool) : M state unit :=
  tell ASaveDatabase;;
  s ← get_state;
  match db s with
  | None => mret tt
  | Some d =>
      if isWriting s
      then modify (set_pendingWrite true)
      else
        modify (set_isWriting true);;
        if export_ok
        then modify (set_writing (writing s ++ [d]));; tell AWriteStart
        else finish_write
  end.

(** The rest of [saveDatabase], run when the awaited [mkdir], [writeFile]
    and [rename] have settled: with [ok] the temporary file has replaced
    the file at [DB_PATH], otherwise that file is as before. *)
Definition resume_write (ok : bool) : M state unit :=
  s ← get_state;
  match writing s with
  | [] => mret tt
  | buffer :: rest =>
      modify (set_writing rest);;
      (if ok then modify (set_disk (Some buffer)) else mret tt);;
      tell (AWriteEnd ok);;
      finish_write
  end.

(** The callback given to [setTimeout] by [scheduleSave]. *)
Definition timer_callback (id : nat) (export_ok : bool) : M state unit :=
  tell (ATimerFired id);;
  saveDatabase export_ok.

(** *** Statements *)

(** [INSERT OR IGNORE INTO data_versions (key, version, updated_at)
    VALUES (key, 0, datetime('now'))]. *)
Definition insert_or_ignore (key stamp : string) (m : gmap string version_row)
  : gmap string version_row :=
  match m !! key with
  | Some _ => m
  | None => <[key := {| version := 0; updated_at := stamp |}]> m
  end.

(** The schema script: the tables, then the three default version rows. *)
Definition schema (stamp : string) (d : database) : database :=
  {| data_versions :=
       insert_or_ignore "sponsors" stamp
         (insert_or_ignore "rules" stamp
           (insert_or_ignore "raffles" stamp (data_versions d)));
     tables := schema_tables (tables d) |}.

(** [UPDATE data_versions SET version = version + 1, updated_at = ?
    WHERE key = ?]. *)
Definition increment_version (updatedAt key : string) (d : database) : database :=
  {| data_versions :=
       match data_versions d !! key with
       | Some r => <[key := {| version := version r + 1; updated_at := updatedAt |}]>
                     (data_versions d)
       | None => data_versions d
       end;
     tables := tables d |}.

(** A statement handed to [run]: one of the statements on the other
    tables, which may fail, or the version increment. *)
Inductive statement :=
| Statement (name : string) (effect : T → option T)
| IncrementVersion (updatedAt key : string).

Definition label_of (st : statement) : label :=
  match st with
  | Statement name _ => LStatement name
  | IncrementVersion _ key => LIncrementVersion key
  end.

(** [db.run(sql, params)] on an open database; [None] when it throws. *)
Definition db_run (st : statement) (d : database) : option database :=
  match st with
  | Statement _ effect =>
      match effect (tables d) with
      | Some t => Some {| data_versions := data_versions d; tables := t |}
      | None => None
      end
  | IncrementVersion updatedAt key => Some (increment_version updatedAt key d)
  end.

(** [run(sql, params)]; with [db = null] the call [db.run] throws.  The
    [{ changes }] that it returns is used by no caller and left out. *)
Definition run (st : statement) (now : Z) : M state unit :=
  s ← get_state;
  match db s with
  | None => throw
  | Some d =>
      match db_run st d with
      | None => throw
      | Some d' =>
          modify (set_db (Some d'));;
          tell (ARun (label_of st));;
          scheduleSave now
      end
  end.

(** [statements.getVersion.get(key)]: the row or [null]. *)
Definition getVersion (key : string) : M state (option version_row) :=
  s ← get_state;
  match db s with
  | None => throw
  | Some d => mret (data_versions d !! key)
  end.

(** [statements.getVersion.get(key)?.version || 0]. *)
Definition current_version (key : string) : M state Z :=
  r ← getVersion key;
  mret (or_default (version <$> r) 0).

(** [bumpVersion(key)]; [stamp] is [new Date().toISOString()]. *)
Definition bumpVersion (stamp key : string) (now : Z) : M state Z :=
  run (IncrementVersion stamp key) now;;
  current_version key.

(** [transaction(fn)()], with [fn] a list of statements: a failing
    statement rolls the database back and rethrows. *)
Fixpoint run_list (sts : list statement) (now : Z) : M state unit :=
  match sts with
  | [] => mret tt
  | st :: rest => run st now;; run_list rest now
  end.

Definition transaction (sts : list statement) (now : Z) : M state unit :=
  s ← get_state;
  match db s with
  | None => throw
  | Some d0 =>
      try_catch
        (run_list sts now;; scheduleSave now)
        (modify (set_db (Some d0));; throw)
  end.

(** *** Start and stop *)

(** [initDb()] from the point where [initSqlJs()] has resolved; the test
    of [initialized], which the code makes just before that [await], is
    taken at the same point.  [file_ok] tells whether the file at
    [DB_PATH] loads, [schema_exists] whether schema.sql is found beside
    the module. *)
Definition initDb (file_ok schema_exists : bool) (stamp : string) (now : Z)
  : M state unit :=
  s ← get_state;
  if initialized s then mret tt
  else
    let loaded :=
      match disk s with
      | Some d => if file_ok then d else {| data_versions := ∅; tables := empty_tables |}
      | None => {| data_versions := ∅; tables := empty_tables |}
      end in
    modify (set_db (Some loaded));;
    (if schema_exists
     then modify (set_db (Some (schema stamp loaded)));; scheduleSave now
     else mret tt);;
    modify (set_initialized true).

(** [closeDb()]. *)
Definition closeDb (export_ok : bool) : M state unit :=
  s ← get_state;
  match saveTimeout s with
  | Some id => clearTimeout id;; saveDatabase export_ok
  | None => mret tt
  end;;
  s' ← get_state;
  match db s' with
  | Some _ => modify (set_db None);; modify (set_initialized false)
  | None => mret tt
  end.

(** *** Turns of the event loop *)

(** What the loop can run next, as far as this module is concerned. *)
Inductive event :=
| EInit (file_ok schema_exists : bool) (stamp : string)
| ERun (st : statement)
| ETransaction (sts : list statement)
| EBump (stamp key : string)
| ESave (export_ok : bool)
| ETimer (id : nat) (export_ok : bool)
| EImmediate (export_ok : bool)
| EWriteDone (ok : bool)
| EClose (export_ok : bool).

(** One turn at clock reading [now].  A timer runs only if it is armed
    and due, and is then no longer armed; an immediate runs only if one
    is queued. *)
Definition turn (now : Z) (e : event) : M state unit :=
  match e with
  | EInit file_ok schema_exists stamp => initDb file_ok schema_exists stamp now
  | ERun st => run st now
  | ETransaction sts => transaction sts now
  | EBump stamp key => bumpVersion stamp key now;; mret tt
  | ESave export_ok => saveDatabase export_ok
  | ETimer id export_ok =>
      s ← get_state;
      if existsb (λ p, Nat.eqb (fst p) id && (snd p <=? now)) (timers s)
      then modify (set_timers (filter (λ p, fst p ≠ id) (timers s)));;
           timer_callback id export_ok
      else mret tt
  | EImmediate export_ok =>
      s ← get_state;
      match immediates s with
      | O => mret tt
      | S n => modify (set_immediates n);; saveDatabase export_ok
      end
  | EWriteDone ok => resume_write ok
  | EClose export_ok => closeDb export_ok
  end.

(** A handler that throws is caught by its caller; the state stays. *)
Definition after (now : Z) (e : event) (s : state) : state :=
  state_of (turn now e s).

(** States reached from the loaded module by any turns in any order. *)
Inductive reachable (file : option database) : state → Prop :=
| reach_initial : reachable file (initial file)
| reach_turn s now e : reachable file s → reachable file (after now e s).

(** *** Virtual time

    A timeline lists the turns other than timers with their clock
    readings; armed timers fire on their own when due, in the order in
    which they were armed.  [eager] settles the tie between a timer and
    a turn listed at the very millisecond of its deadline. *)
Definition is_due (eager : bool) (upto : Z) (p : nat * Z) : bool :=
  if eager then snd p <=? upto else snd p <? upto.

Definition fire (exports : nat → bool) (acc : state * list (Z * action)) (p : nat * Z)
  : state * list (Z * action) :=
  let '(_, s, l) := turn (snd p) (ETimer (fst p) (exports (fst p))) (fst acc) in
  (s, snd acc ++ List.map (pair (snd p)) l).

Definition advance (eager : bool) (exports : nat → bool) (upto : Z)
  (acc : state * list (Z * action)) : state * list (Z * action) :=
  foldl (fire exports) acc (filter (λ p, is_due eager upto p = true) (timers (fst acc))).

Definition play_one (eager : bool) (exports : nat → bool)
  (acc : state * list (Z * action)) (te : Z * event) : state * list (Z * action) :=
  let acc1 := advance eager exports (fst te) acc in
  let '(_, s, l) := turn (fst te) (snd te) (fst acc1) in
  (s, snd acc1 ++ List.map (pair (fst te)) l).

(** Play a timeline, then let time pass until [horizon]. *)
Definition play (eager : bool) (exports : nat → bool) (timeline : list (Z * event))
  (horizon : Z) (s : state) : state * list (Z * action) :=
  advance true exports horizon (foldl (play_one eager exports) (s, []) timeline).

(** The clock readings at which timer callbacks ran [saveDatabase]. *)
Definition flushes (l : list (Z * action)) : list Z :=
  omap (λ ta, match snd ta with ATimerFired _ => Some (fst ta) | _ => None end) l.

(** The turns that leave [db] as it is, open or closed: all but
    [initDb] and [closeDb]. *)
Definition keeps_open (e : event) : bool :=
  match e with
  | EInit _ _ _ | EClose _ => false
  | _ => true
  end.

(** Several turns in a row, each with its clock reading. *)
Definition after_all (tes : list (Z * event)) (s : state) : state :=
  foldl (λ s te, after (fst te) (snd te) s) s tes.

(** The row of [key] in the open database. *)
Definition stored (key : string) (s : state) : option version_row :=
  match db s with
  | Some d => data_versions d !! key
  | None => None
  end.

(** The clock readings at which [scheduleSave] armed its timer. *)
Definition schedules (l : list (Z * action)) : list Z :=
  omap (λ ta, match snd ta with ASetTimeout _ _ => Some (fst ta) | _ => None end) l.

(** Turns that leave the debounce to itself: no [closeDb], which cancels
    the timer for good, and no timer run by hand. *)
Definition undisturbed (e : event) : bool :=
  match e with
  | EClose _ | ETimer _ _ => false
  | _ => true
  end.

(** The clock readings of a timeline never go back. *)
Fixpoint chronological (from : Z) (timeline : list (Z * event)) : bool :=
  match timeline with
  | [] => true
  | te :: rest => (from <=? fst te) && chronological (fst te) rest
  end.

(** Every pair of successive readings is less than one window apart. *)
Fixpoint burst (ts : list Z) : bool :=
  match ts with
  | t :: (t' :: _) as rest => (t' - t <? save_delay) && burst rest
  | _ => true
  end.

(** Every pair of successive readings is more than one window apart. *)
Fixpoint spaced (ts : list Z) : bool :=
  match ts with
  | t :: (t' :: _) as rest => (save_delay <? t' - t) && spaced rest
  | _ => true
  end.

(** Trailing-edge debounce of the call times [ts]: a call's deadline is
    met unless the next call comes first.  [committed] leaves out the
    deadline of the last call, which nothing can cancel any more. *)
Fixpoint committed (eager : bool) (ts : list Z) : list Z :=
  match ts with
  | t :: (t' :: _) as rest =>
      (if is_due eager t' (O, t + save_delay) then [t + save_delay] else [])
      ++ committed eager rest
  | _ => []
  end.

Definition trailing_edge (eager : bool) (ts : list Z) : list Z :=
  committed eager ts
  ++ match last ts with Some t => [t + save_delay] | None => [] end.

(** What the debounce looks at, and what one [scheduleSave()] at clock
    reading [now] does to it. *)
Definition debounce_view (s : state) : list (nat * Z) * option nat * nat :=
  (timers s, saveTimeout s, next_timer s).

Definition rearm (now : Z) (v : list (nat * Z) * option nat * nat)
  : list (nat * Z) * option nat * nat :=
  let '(armed, handle, next) := v in
  (match handle with
   | Some id => filter (λ p, fst p ≠ id) armed
   | None => armed
   end ++ [(next, now + save_delay)], Some next, S next).

Definition is_schedule (a : action) : bool :=
  match a with ASetTimeout _ _ => true | _ => false end.
Definition is_fired (a : action) : bool :=
  match a with ATimerFired _ => true | _ => false end.

(** The computation calls [scheduleSave()] some number of times at
    reading [now] and does nothing else to the debounce. *)
Definition schedules_only {A} (now : Z) (m : M state A) : Prop :=
  ∀ s, ∃ n : nat,
    debounce_view (state_of (m s)) = Nat.iter n (rearm now) (debounce_view s)
    ∧ length (List.filter is_schedule (trace_of (m s))) = n
    ∧ List.filter is_fired (trace_of (m s)) = [].

(** How the armed timers, the call times [ts] and the flush times [F]
    seen so far stand to each other at clock reading [now]: either no
    timer is armed and every deadline has been met, or the timer of the
    last call is armed and not yet due. *)
Definition debounce_inv (eager : bool) (now : Z)
  (v : list (nat * Z) * option nat * nat) (ts F : list Z) : Prop :=
  (fst (fst v) = [] ∧ F = trailing_edge eager ts
   ∧ ∀ t, last ts = Some t → is_due eager now (O, t + save_delay) = true)
  ∨ (∃ id t, fst (fst v) = [(id, t + save_delay)] ∧ snd (fst v) = Some id
       ∧ last ts = Some t ∧ F = committed eager ts ∧ t <= now
       ∧ is_due eager now (O, t + save_delay) = false).

(** The part of the state that the single-flight discipline is about. *)
Definition flight (s : state) : bool * bool * list database * nat :=
  (isWriting s, pendingWrite s, writing s, immediates s).

(** Either a write is under way, with exactly one buffer in the file
    operations, or none is and nothing is pending. *)
Definition one_flight (s : state) : Prop :=
  (isWriting s = true ∧ ∃ b, writing s = [b])
  ∨ (isWriting s = false ∧ writing s = [] ∧ pendingWrite s = false).

(** A property of the state that only looks at [flight]. *)
Definition on_flight (P : state → Prop) : Prop :=
  ∀ s s', flight s' = flight s → P s → P s'.

(** The keys that the schema registers, and the states in which no other
    key has a version row, be it in [db], in a buffer being written or in
    the file. *)
Definition default_keys : gset string := {["raffles"; "rules"; "sponsors"]}.

Definition within (d : database) : Prop := dom (data_versions d) ⊆ default_keys.

Definition registered_only (s : state) : Prop :=
  (∀ d, db s = Some d → within d)
  ∧ Forall within (writing s)
  ∧ (∀ d, disk s = Some d → within d).

(** A [saveDatabase()] entered during a write leaves [pendingWrite]
    set. *)
Definition request_sets_pending (s : state) : Prop :=
  isWriting s = true →
  ∀ export_ok, pendingWrite (state_of (saveDatabase export_ok s)) = true.

(** *** Further exports and what the timers are up to *)

(** [getDb()]. *)
Definition getDb : M state database :=
  s ← get_state;
  match db s with
  | Some d => mret d
  | None => throw
  end.

(** What a list of statements makes of a database when none of them
    throws. *)
Fixpoint apply_all (sts : list statement) (d : database) : option database :=
  match sts with
  | [] => Some d
  | st :: rest =>
      match db_run st d with
      | Some d' => apply_all rest d'
      | None => None
      end
  end.

(** At most one timer is armed and [saveTimeout] refers to it. *)
Definition one_timer (s : state) : Prop :=
  timers s = []
  ∨ ∃ id deadline, timers s = [(id, deadline)] ∧ saveTimeout s = Some id.

(** The same, with no timer armed while [db] is [null], and with
    [initialized] set exactly while [db] is open. *)
Definition coherent (s : state) : Prop :=
  one_timer s
  ∧ (db s = None → timers s = [] ∧ initialized s = false)
  ∧ (db s ≠ None → initialized s = true).

(** The handle is closed and no buffer is in the file operations. *)
Definition closed (s : state) : Prop :=
  db s = None ∧ writing s = [].

(** The turns that open the database again. *)
Definition restarts (e : event) : bool :=
  match e with
  | EInit _ _ _ => true
  | _ => false
  end.

End WithTables.

Arguments version_row : clear implicits.
Arguments database : clear implicits.
Arguments state : clear implicits.
Arguments statement : clear implicits.
Arguments event : clear implicits.

End Db.

(** ** sse/index.js *)

Module Hub.

(** The arrow functions that [addClient] registers on a response:
    [() => { this.clients.delete(res); }]. *)
Inductive listener :=
| RemoveClient (res : nat).

(** An Express response as the hub uses it.  [writable = false] is a
    channel on which [writeHead], [write] and [end] throw. *)
Record channel := Channel {
  writable : bool;
  head : option (Z * list (string * string));
  sent : list string;
  listeners : list (string * listener);
  ended : bool
}.

(** The fields of [SSEManager]; [clients] is the JS [Set] in insertion
    order, its members are the identities of response objects, and
    [channels] is the part of the heap that holds those objects. *)
Record state := State {
  clients : list nat;
  maxConnections : nat;
  heartbeatInterval : option nat;
  channels : gmap nat channel
}.

Definition set_clients (x : list nat) (s : state) : state :=
  State x (maxConnections s) (heartbeatInterval s) (channels s).
Definition set_heartbeatInterval (x : option nat) (s : state) : state :=
  State (clients s) (maxConnections s) x (channels s).
Definition set_channels (x : gmap nat channel) (s : state) : state :=
  State (clients s) (maxConnections s) (heartbeatInterval s) x.

(** [Set.prototype.add], [delete] and [has]. *)
Definition set_add (x : nat) (l : list nat) : list nat :=
  if decide (x ∈ l) then l else l ++ [x].
Definition set_delete (x : nat) (l : list nat) : list nat :=
  filter (λ y, y ≠ x) l.
Definition set_has (x : nat) (l : list nat) : bool :=
  bool_decide (x ∈ l).

(** [new SSEManager()]; [timer] is what [setInterval] returns. *)
Definition new (timer : nat) (heap : gmap nat channel) : state :=
  State [] 2000 (Some timer) heap.

(** The comment-only frame [':\n\n']. *)
Definition heartbeat_frame : string := ":" +:+ newline +:+ newline.

(** [`event: ${event}\ndata: ${JSON.stringify(data)}\n\n`]. *)
Definition frame (event : string) (data : json) : string :=
  "event: " +:+ event +:+ newline +:+ "data: " +:+ stringify data +:+ newline +:+ newline.

Definition sse_headers : list (string * string) :=
  [("Content-Type", "text/event-stream"); ("Cache-Control", "no-cache");
   ("Connection", "keep-alive"); ("X-Accel-Buffering", "no");
   ("Access-Control-Allow-Origin", "*")]%string.

(** *** Methods of a response *)

Definition can_write (s : state) (res : nat) : bool :=
  match channels s !! res with
  | Some ch => writable ch
  | None => false
  end.

(** The channel with one more chunk written to it. *)
Definition push (text : string) (ch : channel) : channel :=
  Channel (writable ch) (head ch) (sent ch ++ [text]) (listeners ch) (ended ch).

(** [res.write(text)]. *)
Definition write (res : nat) (text : string) : M state unit :=
  s ← get_state;
  match channels s !! res with
  | Some ch =>
      if writable ch
      then modify (set_channels (<[res := push text ch]> (channels s)));;
           tell (AWrite res text true)
      else tell (AWrite res text false);; throw
  | None => tell (AWrite res text false);; throw
  end.

(** [res.writeHead(status, headers)]. *)
Definition writeHead (res : nat) (status : Z) (headers : list (string * string))
  : M state unit :=
  s ← get_state;
  match channels s !! res with
  | Some ch =>
      if writable ch
      then modify (set_channels
                     (<[res := Channel (writable ch) (Some (status, headers)) (sent ch)
                                       (listeners ch) (ended ch)]> (channels s)))
      else throw
  | None => throw
  end.

(** [res.on(name, callback)]. *)
Definition on (res : nat) (name : string) (l : listener) : M state unit :=
  s ← get_state;
  match channels s !! res with
  | Some ch =>
      modify (set_channels
                (<[res := Channel (writable ch) (head ch) (sent ch)
                                  (listeners ch ++ [(name, l)]) (ended ch)]> (channels s)))
  | None => throw
  end.

(** [res.end()]. *)
Definition end_ (res : nat) : M state unit :=
  s ← get_state;
  match channels s !! res with
  | Some ch =>
      if writable ch
      then modify (set_channels
                     (<[res := Channel false (head ch) (sent ch) (listeners ch) true]>
                        (channels s)))
      else throw
  | None => throw
  end.

Definition call_listener (l : listener) : M state unit :=
  match l with
  | RemoveClient res => s ← get_state; modify (set_clients (set_delete res (clients s)))
  end.

(** The response [res] emits the event [name]: its listeners for that
    name run in registration order. *)
Definition emit (res : nat) (name : string) : M state unit :=
  s ← get_state;
  match channels s !! res with
  | Some ch =>
      for_each (filter (λ nl, fst nl = name) (listeners ch)) (λ nl, call_listener (snd nl))
  | None => mret tt
  end.

(** *** Methods of the manager *)

(** The loop shared by [broadcast] and [sendHeartbeatToAll]: write to each
    client, returning the clients whose write threw. *)
Fixpoint write_each (cs : list nat) (text : string) : M state (list nat) :=
  match cs with
  | [] => mret []
  | client :: rest =>
      failed ← try_catch (write client text;; mret []) (mret [client]);
      more ← write_each rest text;
      mret (failed ++ more)
  end.

Definition delete_each (failedClients : list nat) : M state unit :=
  for_each failedClients
    (λ client, s ← get_state; modify (set_clients (set_delete client (clients s)))).

(** [sendHeartbeatToAll()]. *)
Definition sendHeartbeatToAll : M state unit :=
  s ← get_state;
  failedClients ← write_each (clients s) heartbeat_frame;
  delete_each failedClients.

(** [addClient(res)]. *)
Definition addClient (res : nat) : M state bool :=
  s ← get_state;
  if (maxConnections s <=? length (clients s))%nat
  then mret false
  else
    writeHead res 200 sse_headers;;
    write res heartbeat_frame;;
    s1 ← get_state;
    modify (set_clients (set_add res (clients s1)));;
    on res "close" (RemoveClient res);;
    on res "error" (RemoveClient res);;
    mret true.

(** [broadcast(event, data)]. *)
Definition broadcast (event : string) (data : json) : M state unit :=
  tell (ABroadcast event data);;
  let message := frame event data in
  s ← get_state;
  failedClients ← write_each (clients s) message;
  delete_each failedClients.

(** [sendToClient(client, event, data)]. *)
Definition sendToClient (client : nat) (event : string) (data : json) : M state unit :=
  s ← get_state;
  if set_has client (clients s)
  then try_catch
         (write client (frame event data))
         (s1 ← get_state; modify (set_clients (set_delete client (clients s1))))
  else mret tt.

(** [getClientCount()]. *)
Definition getClientCount (s : state) : nat := length (clients s).

(** [isAtCapacity()]. *)
Definition isAtCapacity (s : state) : bool :=
  (maxConnections s <=? length (clients s))%nat.

(** [stopHeartbeat()]. *)
Definition stopHeartbeat : M state unit :=
  modify (set_heartbeatInterval None).

(** [closeAll()]. *)
Definition closeAll : M state unit :=
  stopHeartbeat;;
  s ← get_state;
  for_each (clients s) (λ client, try_catch (end_ client) (mret tt));;
  modify (set_clients []).

(** The response after the handshake of [addClient]. *)
Definition admitted (res : nat) (ch : channel) : channel :=
  Channel (writable ch) (Some (200, sse_headers))
    (sent ch ++ [heartbeat_frame])
    (listeners ch ++ [("close"%string, RemoveClient res);
                      ("error"%string, RemoveClient res)])
    (ended ch).

(** The heap after [text] has been written to each of [cs] that accepts
    writes. *)
Definition deliver (text : string) (cs : list nat) (heap : gmap nat channel)
  : gmap nat channel :=
  foldl (λ m c, match m !! c with
                | Some ch => if writable ch then <[c := push text ch]> m else m
                | None => m
                end) heap cs.

(** Admit the responses of [rs] one after the other, keeping the
    answers. *)
Fixpoint admit_all (rs : list nat) (s : state) : list bool * state :=
  match rs with
  | [] => ([], s)
  | res :: rest =>
      let '(r, s1, _) := addClient res s in
      let '(answers, s2) := admit_all rest s1 in
      (match r with Ok b => b | Throw => false end :: answers, s2)
  end.

(** The response after a successful [res.end()]. *)
Definition finished (ch : channel) : channel :=
  Channel false (head ch) (sent ch) (listeners ch) true.

(** The heap after [end()] has been called on each of [cs]. *)
Definition hang_up (cs : list nat) (heap : gmap nat channel) : gmap nat channel :=
  foldl (λ m c, match m !! c with
                | Some ch => if writable ch then <[c := finished ch]> m else m
                | None => m
                end) heap cs.

(** *** Calls on the manager

    What the handlers of server.js, the heartbeat timer, the signal
    handlers and the sockets make the singleton do. *)
Inductive call :=
| CAddClient (res : nat)
| CBroadcast (event : string) (data : json)
| CSendToClient (client : nat) (event : string) (data : json)
| CSendHeartbeatToAll
| CStopHeartbeat
| CCloseAll
| CEmit (res : nat) (name : string).

Definition exec (x : call) : M state unit :=
  match x with
  | CAddClient res => addClient res;; mret tt
  | CBroadcast event data => broadcast event data
  | CSendToClient client event data => sendToClient client event data
  | CSendHeartbeatToAll => sendHeartbeatToAll
  | CStopHeartbeat => stopHeartbeat
  | CCloseAll => closeAll
  | CEmit res name => emit res name
  end.

(** Calls one after the other; one that throws leaves the manager as
    it was when the exception was thrown. *)
Definition exec_all (xs : list call) (s : state) : state :=
  foldl (λ s x, state_of (exec x s)) s xs.

(** The live set holds no response twice and is no larger than the
    ceiling. *)
Definition bounded (s : state) : Prop :=
  NoDup (clients s) ∧ (length (clients s) <= maxConnections s)%nat.

End Hub.

(** ** server.js *)

Module Server.

Section WithTables.

Context {T : Type}.

(** The three read queries of the display pages, as functions of the
    tables: [getAllRaffles.all()], [getRules.get()] and
    [getAllSponsors.all()]. *)
Context (getAllRaffles : T → list json) (getRules : T → option string)
        (getAllSponsors : T → list json).

(** The three singletons that server.js requires. *)
Record world := World {
  db : Db.state T;
  cache : Cache.DataCache json;
  sseManager : Hub.state
}.

Definition in_db {A} (m : M (Db.state T) A) : M world A :=
  zoom db (λ d w, World d (cache w) (sseManager w)) m.
Definition in_hub {A} (m : M Hub.state A) : M world A :=
  zoom sseManager (λ h w, World (db w) (cache w) h) m.

(** [cache.get(key)]. *)
Definition cache_get (now : Z) (key : string) : M world (option json) :=
  λ w, let '(r, c) := Cache.get now key (cache w) in
       (Ok r, World (db w) c (sseManager w), []).

(** [cache.set(key, data, version)]. *)
Definition cache_set (now : Z) (key : string) (d : json) (v : Z) : M world unit :=
  modify (λ w, World (db w) (Cache.set now now key d v (cache w)) (sseManager w)).

(** [cache.invalidate(key)]. *)
Definition cache_invalidate (key : string) : M world unit :=
  modify (λ w, World (db w) (Cache.invalidate key (cache w)) (sseManager w));;
  tell (ACacheInvalidate key).

(** A read query: [db.prepare] throws when [db] is [null]. *)
Definition query {A} (q : T → A) : M world A :=
  w ← get_state;
  match Db.db (db w) with
  | Some d => mret (q (Db.tables d))
  | None => throw
  end.

(** What a handler hands to [res]. *)
Record response := Response {
  status : Z;
  headers : list (string * string);
  body : option json
}.

(** The payload [{ type, version }] of an 'update' event. *)
Definition update_event (type : string) (version : Z) : json :=
  JObj [("type"%string, JStr type); ("version"%string, JNum version)].

(** [notifyClients(type)]. *)
Definition notifyClients (type : string) : M world unit :=
  version ← in_db (Db.current_version type);
  in_hub (Hub.broadcast "update" (update_event type version)).

(** [clientVersion && parseInt(clientVersion) === currentVersion], where
    [clientVersion] is [req.headers['if-none-match']]. *)
Definition not_modified (clientVersion : option string) (currentVersion : Z) : bool :=
  match clientVersion with
  | Some token =>
      negb (String.eqb token EmptyString)
      && bool_decide (parseInt token = Some currentVersion)
  | None => false
  end.

(** The common shape of [GET /api/raffles], [GET /api/rules] and
    [GET /api/sponsors]. *)
Definition read_domain (domain max_age : string) (materialize : T → json)
  (clientVersion : option string) (now : Z) : M world response :=
  currentVersion ← in_db (Db.current_version domain);
  if not_modified clientVersion currentVersion
  then mret (Response 304 [] None)
  else
    cached ← cache_get now domain;
    payload ←
      match cached with
      | Some p =>
          if truthy p then mret p
          else p' ← query materialize; cache_set now domain p' currentVersion;; mret p'
      | None => p' ← query materialize; cache_set now domain p' currentVersion;; mret p'
      end;
    mret (Response 200
            [("ETag"%string, to_string currentVersion);
             ("Cache-Control"%string, max_age)]
            (Some payload)).

Definition get_raffles : option string → Z → M world response :=
  read_domain "raffles" "private, max-age=5" (λ t, JArr (getAllRaffles t)).

Definition get_rules : option string → Z → M world response :=
  read_domain "rules" "private, max-age=60"
    (λ t, JObj [("rules"%string, JStr (default EmptyString (getRules t)))]).

Definition get_sponsors : option string → Z → M world response :=
  read_domain "sponsors" "private, max-age=60" (λ t, JArr (getAllSponsors t)).

(** The three lines that end every mutation handler:
    [cache.invalidate(d); bumpVersion(d); notifyClients(d);]. *)
Definition invalidate_and_notify (domain stamp : string) (now : Z) : M world unit :=
  cache_invalidate domain;;
  in_db (Db.bumpVersion stamp domain now);;
  notifyClients domain.

(** The last synchronous stretch of a mutation handler, from its
    [statements.*.run] calls to the response.  [refusal] is the status of
    an early [return res.status(...)] (401, 400 or 404), decided by the
    authentication and validation code before any write.  The bodies of
    the responses are cut down to their [success] flag, and the reads
    made for them ([getRaffleById], [getAllRaffles]) are left out. *)
Definition mutation (domain : string) (refusal : option Z) (writes : M (Db.state T) unit)
  (stamp : string) (now : Z) : M world response :=
  try_catch
    (match refusal with
     | Some code => mret (Response code [] (Some (JObj [("success"%string, JBool false)])))
     | None =>
         in_db writes;;
         invalidate_and_notify domain stamp now;;
         mret (Response 200 [] (Some (JObj [("success"%string, JBool true)])))
     end)
    (mret (Response 500 [] (Some (JObj [("success"%string, JBool false)])))).

(** The eight mutation routes; each [effect] is what its SQL statement
    does to the tables. *)
Definition post_raffle (refusal : option Z) (insertRaffle : T → option T)
  (stamp : string) (now : Z) : M world response :=
  mutation "raffles" refusal (Db.run (Db.Statement "insertRaffle" insertRaffle) now) stamp now.

Definition put_raffles_reorder (refusal : option Z) (updateRaffleNumber : list (T → option T))
  (stamp : string) (now : Z) : M world response :=
  mutation "raffles" refusal
    (Db.transaction (List.map (Db.Statement "updateRaffleNumber") updateRaffleNumber) now)
    stamp now.

(** [PUT /api/raffles/:id] with an uploaded file or no new image; with
    an image URL the handler awaits the download between its two
    statements and this stretch starts at the second one. *)
Definition put_raffle (refusal : option Z) (updateRaffle : T → option T)
  (updateRaffleImage : option (T → option T)) (stamp : string) (now : Z)
  : M world response :=
  mutation "raffles" refusal
    (Db.run (Db.Statement "updateRaffle" updateRaffle) now;;
     match updateRaffleImage with
     | Some f => Db.run (Db.Statement "updateRaffleImage" f) now
     | None => mret tt
     end)
    stamp now.

Definition put_raffle_winner (refusal : option Z) (updateWinner : T → option T)
  (stamp : string) (now : Z) : M world response :=
  mutation "raffles" refusal (Db.run (Db.Statement "updateWinner" updateWinner) now) stamp now.

Definition delete_raffle (refusal : option Z) (deleteRaffle : T → option T)
  (stamp : string) (now : Z) : M world response :=
  mutation "raffles" refusal (Db.run (Db.Statement "deleteRaffle" deleteRaffle) now) stamp now.

Definition put_rules (refusal : option Z) (upsertRules : T → option T)
  (stamp : string) (now : Z) : M world response :=
  mutation "rules" refusal (Db.run (Db.Statement "upsertRules" upsertRules) now) stamp now.

Definition post_sponsor (refusal : option Z) (insertSponsor : T → option T)
  (stamp : string) (now : Z) : M world response :=
  mutation "sponsors" refusal (Db.run (Db.Statement "insertSponsor" insertSponsor) now) stamp now.

Definition delete_sponsor (refusal : option Z) (deleteSponsor : T → option T)
  (stamp : string) (now : Z) : M world response :=
  mutation "sponsors" refusal (Db.run (Db.Statement "deleteSponsor" deleteSponsor) now) stamp now.

(** [GET /api/events]. *)
Definition get_events (res : nat) : M world (option response) :=
  w ← get_state;
  if Hub.isAtCapacity (sseManager w)
  then mret (Some (Response 503 [] (Some (JObj [("success"%string, JBool false)]))))
  else
    in_hub (Hub.addClient res);;
    raffles ← in_db (Db.current_version "raffles");
    rules ← in_db (Db.current_version "rules");
    sponsors ← in_db (Db.current_version "sponsors");
    in_hub (Hub.sendToClient res "version"
              (JObj [("raffles"%string, JNum raffles); ("rules"%string, JNum rules);
                     ("sponsors"%string, JNum sponsors)]));;
    mret None.

(** *** The steps of a mutation

    The four things that the design documents of the synchronisation
    layer name, as they show in a trace. *)
Inductive step :=
| Scheduled
| Incremented (domain : string)
| Invalidated (domain : string)
| Notified (data : json).

Definition step_of (a : action) : option step :=
  match a with
  | ASetTimeout _ _ => Some Scheduled
  | ARun (LIncrementVersion key) => Some (Incremented key)
  | ACacheInvalidate key => Some (Invalidated key)
  | ABroadcast _ data => Some (Notified data)
  | _ => None
  end.

Definition steps (trace : list action) : list step := omap step_of trace.

Definition is_scheduled (x : step) : bool :=
  match x with Scheduled => true | _ => false end.
Definition is_incremented (domain : string) (x : step) : bool :=
  match x with Incremented key => String.eqb key domain | _ => false end.
Definition is_invalidated (domain : string) (x : step) : bool :=
  match x with Invalidated key => String.eqb key domain | _ => false end.
Definition is_notified (x : step) : bool :=
  match x with Notified _ => true | _ => false end.

(** Steps meeting the tests of [wanted], one after the other, occur in
    [seen] in that order. *)
Fixpoint in_order (wanted : list (step → bool)) (seen : list step) : bool :=
  match seen with
  | [] => match wanted with [] => true | _ :: _ => false end
  | x :: rest =>
      match wanted with
      | [] => true
      | p :: more => if p x then in_order more rest else in_order wanted rest
      end
  end.

(** The order in which the documents list the steps, and the order of
    the three lines that end the handlers. *)
Definition documented_order (domain : string) : list (step → bool) :=
  [is_scheduled; is_incremented domain; is_invalidated domain; is_notified].
Definition handler_order (domain : string) : list (step → bool) :=
  [is_scheduled; is_invalidated domain; is_incremented domain; is_notified].

(** [PUT /api/raffles/:id] with an image URL runs in two stretches,
    with [await downloadImageFromUrl(imageUrl)] between them.  The first
    ends with [statements.updateRaffle.run]; the handler is then
    suspended and has no response yet ([None]) unless it was refused or
    the statement threw.  As in [mutation], the bodies of the responses
    are cut down to their [success] flag. *)
Definition put_raffle_url (refusal : option Z) (updateRaffle : T → option T) (now : Z)
  : M world (option response) :=
  try_catch
    (match refusal with
     | Some code =>
         mret (Some (Response code [] (Some (JObj [("success"%string, JBool false)]))))
     | None =>
         in_db (Db.run (Db.Statement "updateRaffle" updateRaffle) now);;
         mret None
     end)
    (mret (Some (Response 500 [] (Some (JObj [("success"%string, JBool false)]))))).

(** The second stretch: 400 when the download was rejected, and
    otherwise the image statement and the three closing lines. *)
Definition put_raffle_downloaded (downloaded : bool) (updateRaffleImage : T → option T)
  (stamp : string) (now : Z) : M world response :=
  try_catch
    (if downloaded
     then
       in_db (Db.run (Db.Statement "updateRaffleImage" updateRaffleImage) now);;
       invalidate_and_notify "raffles" stamp now;;
       mret (Response 200 [] (Some (JObj [("success"%string, JBool true)])))
     else mret (Response 400 [] (Some (JObj [("success"%string, JBool false)]))))
    (mret (Response 500 [] (Some (JObj [("success"%string, JBool false)])))).

(** *** Requests

    The routes of the synchronisation layer as the server receives them,
    one after the other.  A read carries its If-None-Match header, a
    mutation what its authentication and validation decided and what
    its statements do to the tables; the two stretches of an update
    with an image URL come as two requests, and others may come between
    them. *)
Inductive request :=
| GetRaffles (clientVersion : option string)
| GetRules (clientVersion : option string)
| GetSponsors (clientVersion : option string)
| GetEvents (res : nat)
| PostRaffle (refusal : option Z) (insertRaffle : T → option T)
| PutRafflesReorder (refusal : option Z) (updateRaffleNumber : list (T → option T))
| PutRaffle (refusal : option Z) (updateRaffle : T → option T)
    (updateRaffleImage : option (T → option T))
| PutRaffleUrl (refusal : option Z) (updateRaffle : T → option T)
| PutRaffleDownloaded (downloaded : bool) (updateRaffleImage : T → option T)
| PutRaffleWinner (refusal : option Z) (updateWinner : T → option T)
| DeleteRaffle (refusal : option Z) (deleteRaffle : T → option T)
| PutRules (refusal : option Z) (upsertRules : T → option T)
| PostSponsor (refusal : option Z) (insertSponsor : T → option T)
| DeleteSponsor (refusal : option Z) (deleteSponsor : T → option T).

(** The handler of a request, at clock reading [now], with [stamp] for
    [new Date().toISOString()]. *)
Definition handle (now : Z) (stamp : string) (r : request) : M world unit :=
  match r with
  | GetRaffles clientVersion => get_raffles clientVersion now;; mret tt
  | GetRules clientVersion => get_rules clientVersion now;; mret tt
  | GetSponsors clientVersion => get_sponsors clientVersion now;; mret tt
  | GetEvents res => get_events res;; mret tt
  | PostRaffle refusal f => post_raffle refusal f stamp now;; mret tt
  | PutRafflesReorder refusal fs => put_raffles_reorder refusal fs stamp now;; mret tt
  | PutRaffle refusal f g => put_raffle refusal f g stamp now;; mret tt
  | PutRaffleUrl refusal f => put_raffle_url refusal f now;; mret tt
  | PutRaffleDownloaded downloaded g => put_raffle_downloaded downloaded g stamp now;; mret tt
  | PutRaffleWinner refusal f => put_raffle_winner refusal f stamp now;; mret tt
  | DeleteRaffle refusal f => delete_raffle refusal f stamp now;; mret tt
  | PutRules refusal f => put_rules refusal f stamp now;; mret tt
  | PostSponsor refusal f => post_sponsor refusal f stamp now;; mret tt
  | DeleteSponsor refusal f => delete_sponsor refusal f stamp now;; mret tt
  end.

(** Requests served in a row; a handler that throws leaves the world as
    it was when the exception was thrown. *)
Definition serve (rs : list (Z * string * request)) (w : world) : world :=
  foldl (λ w r, state_of (handle (fst (fst r)) (snd (fst r)) (snd r) w)) w rs.

(** The stored version of a domain as the handlers read it:
    [statements.getVersion.get(domain)?.version || 0]. *)
Definition stored_version (domain : string) (w : world) : Z :=
  or_default (Db.version <$> Db.stored domain (db w)) 0.

(** Every cached payload is truthy and is held under the version that
    its domain has in the database. *)
Definition cache_current (w : world) : Prop :=
  ∀ domain e, Cache.cache (cache w) !! domain = Some e →
    truthy (Cache.data e) = true ∧ Cache.version e = stored_version domain w.

End WithTables.

Arguments world : clear implicits.
Arguments request : clear implicits.

End Server.

(** ** server.js: the authentication cache *)

Module Auth.

(** [authCache], a JS [Map] from cache key to [expiresAt], in insertion
    order. *)
Abbreviation cache := (list (string * Z)).

Section WithUsers.

Context {T : Type}.

(** What the runtime and the libraries provide: [toLowerCase] of a
    string, the hex digest of SHA-256, and bcrypt's comparison of a
    password with a hash; and [statements.getUserByUsername.get], which
    gives the password hash of a user or [undefined]. *)
Context (toLowerCase : string → string) (sha256 : string → string)
        (compare : string → string → bool)
        (getUserByUsername : T → string → option string).

Definition AUTH_CACHE_TTL : Z := 5 * 60 * 1000.
Definition AUTH_CACHE_MAX : nat := 100.

(** [Map.prototype.get], [delete] and [set]; [set] on a key that is
    present replaces the value where it stands. *)
Fixpoint map_get (key : string) (m : cache) : option Z :=
  match m with
  | [] => None
  | (k, x) :: rest => if decide (k = key) then Some x else map_get key rest
  end.

Definition map_delete (key : string) (m : cache) : cache :=
  filter (λ kv, fst kv ≠ key) m.

Fixpoint map_set (key : string) (v : Z) (m : cache) : cache :=
  match m with
  | [] => [(key, v)]
  | (k, x) :: rest =>
      if decide (k = key) then (k, v) :: rest else (k, x) :: map_set key v rest
  end.

(** [getAuthCacheKey(username, password)]. *)
Definition getAuthCacheKey (username password : string) : string :=
  sha256 (toLowerCase username +:+ ":" +:+ password).

(** [cleanupAuthCache()]. *)
Definition cleanupAuthCache (now : Z) : M cache unit :=
  modify (filter (λ kv, ¬ (now > snd kv))).

(** Where [authenticate] stands when it returns or reaches its
    [await]: it has answered, or it waits for [bcrypt.compare], which
    will resolve to [isValid]. *)
Inductive progress :=
| Answered (b : bool)
| Comparing (cacheKey : string) (isValid : bool).

(** [authenticate(username, password)] up to its [await]; [db] is the
    open database or [None], on which the user query throws. *)
Definition authenticate (now : Z) (db : option T) (username password : string)
  : M cache progress :=
  let cacheKey := getAuthCacheKey username password in
  let verify : M cache progress :=
    match db with
    | None => throw
    | Some tables =>
        match getUserByUsername tables (toLowerCase username) with
        | None => mret (Answered false)
        | Some passwordHash => mret (Comparing cacheKey (compare password passwordHash))
        end
    end in
  m ← get_state;
  match map_get cacheKey m with
  | Some expiresAt => if now <? expiresAt then mret (Answered true) else verify
  | None => verify
  end.

(** The rest of [authenticate], once [bcrypt.compare] has resolved. *)
Definition authenticated (now : Z) (cacheKey : string) (isValid : bool) : M cache bool :=
  (if isValid
   then
     m ← get_state;
     (if (AUTH_CACHE_MAX <=? length m)%nat
      then match m with
           | (oldestKey, _) :: _ => modify (map_delete oldestKey)
           | [] => mret tt
           end
      else mret tt);;
     modify (map_set cacheKey (now + AUTH_CACHE_TTL))
   else mret tt);;
  mret isValid.

(** What happens to the cache, turn by turn. *)
Inductive step :=
| SAuthenticate (now : Z) (db : option T) (username password : string)
| SAuthenticated (now : Z) (cacheKey : string) (isValid : bool)
| SCleanup (now : Z).

Definition exec (x : step) : M cache unit :=
  match x with
  | SAuthenticate now db username password =>
      authenticate now db username password;; mret tt
  | SAuthenticated now cacheKey isValid => authenticated now cacheKey isValid;; mret tt
  | SCleanup now => cleanupAuthCache now
  end.

Definition exec_all (xs : list step) (m : cache) : cache :=
  foldl (λ m x, state_of (exec x m)) m xs.

End WithUsers.

Arguments step : clear implicits.

End Auth.

(** ** Sample states

    Small concrete instances: a database without other tables, a hub with
    three responses of which the second is broken, and the calls of the
    scenarios of the design notes. *)

Module Sample.

Definition stamp : string := "2025-01-01T00:00:00.000Z".

(** A new database after the schema script. *)
Definition fresh : Db.database unit :=
  Db.schema id stamp {| Db.data_versions := ∅; Db.tables := tt |}.

(** The module after [initDb()] at clock reading 0, with no file at
    [DB_PATH]. *)
Definition started : Db.state unit :=
  Db.after tt id 0 (Db.EInit true true stamp) (Db.initial None).

(** The same with the timer of [initDb] already fired and its write
    done. *)
Definition idle : Db.state unit :=
  Db.after tt id 1200 (Db.EWriteDone true) (Db.after tt id 1000 (Db.ETimer 0 true) started).

(** [closeDb()] right after the start: the final save is under way and
    the handle is gone. *)
Definition closing : Db.state unit := Db.after tt id 5 (Db.EClose true) started.

(** A write under way with a second request pending. *)
Definition superseded : Db.state unit :=
  Db.after tt id 1100 (Db.ESave true) (Db.after tt id 1000 (Db.ETimer 0 true) started).

(** Five increments within 200 ms of each other, and three mutations more
    than a second apart with a write finishing in between. *)
Definition five_bumps : list (Z * Db.event unit) :=
  [(2000, Db.EBump stamp "rules"); (2200, Db.EBump stamp "rules");
   (2400, Db.EBump stamp "rules"); (2600, Db.EBump stamp "rules");
   (2800, Db.EBump stamp "rules")].

Definition three_apart : list (Z * Db.event unit) :=
  [(2000, Db.EBump stamp "rules"); (3500, Db.EWriteDone true);
   (4000, Db.ERun (Db.Statement "upsertRules" Some)); (6500, Db.EBump stamp "raffles")].

Definition good : Hub.channel := Hub.Channel true None [] [] false.
Definition broken : Hub.channel := Hub.Channel false None [] [] false.

(** Three live clients; writes to the second throw. *)
Definition hub : Hub.state :=
  Hub.State [1; 2; 3]%nat 2000 (Some O)
    (<[1%nat := good]> (<[2%nat := broken]> (<[3%nat := good]> (<[4%nat := good]> ∅)))).

(** A hub with a ceiling of two and three responses waiting. *)
Definition small_hub : Hub.state :=
  Hub.State [] 2 (Some O) (<[1%nat := good]> (<[2%nat := good]> (<[3%nat := good]> ∅))).

Definition world : Server.world unit :=
  Server.World idle Cache.new hub.

(** Calls on the cache after [set('raffles', 7, 1)] at clock reading 0. *)
Definition later_calls : list (Cache.call Z) :=
  [Cache.CGet 1000 "raffles"; Cache.CSet 2000 2000 "rules" 5 1;
   Cache.CCleanup 20000; Cache.CInvalidate "sponsors"; Cache.CGetWithVersion 25000 "raffles"].

(** The same world with the list of raffles cached at clock reading 0. *)
Definition cached_world : Server.world unit :=
  Server.World idle (Cache.set 0 0 "raffles" (JArr []) 0 Cache.new) hub.

(** A read, a mutation and a read again. *)
Definition traffic : list (Z * string * Server.request unit) :=
  [(3000, stamp, Server.GetRaffles None);
   (4000, stamp, Server.PostRaffle None Some);
   (5000, stamp, Server.GetRaffles (Some "0"%string))].

(** A reordering whose second statement throws. *)
Definition bad_reorder : list (Db.statement unit) :=
  [Db.Statement "updateRaffleNumber" Some; Db.Statement "updateRaffleNumber" (λ _, None)].

End Sample.

(** * Properties *)

(** ** The monad *)

Section MonadFacts.

Context {S : Type}.

Context (P : S → Prop).

Lemma keeps_ret {A} (a : A) : keeps P (mret a : M S A).
Proof. intros s H. exact H. Qed.

Lemma keeps_tell a : keeps P (tell a).
Proof. intros s H. exact H. Qed.

Lemma keeps_throw {A} : keeps P (throw : M S A).
Proof. intros s H. exact H. Qed.

Lemma keeps_get_state : keeps P get_state.
Proof. intros s H. exact H. Qed.

Lemma keeps_modify f : (∀ s, P s → P (f s)) → keeps P (modify f).
Proof. intros Hf s H. apply Hf, H. Qed.

Lemma keeps_bind {A B} (m : M S A) (k : A → M S B) :
  keeps P m → (∀ a, keeps P (k a)) → keeps P (m ≫= k).
Proof.
  intros Hm Hk s H. specialize (Hm s H).
  unfold mbind, M_bind, bind, state_of in *.
  destruct (m s) as [[[a|] s1] l1]; simpl in *; [|exact Hm].
  specialize (Hk a s1 Hm). unfold state_of in Hk.
  destruct (k a s1) as [[r s2] l2]. exact Hk.
Qed.

(** A computation that starts by reading the state. *)
Lemma keeps_get_bind {B} (k : S → M S B) :
  (∀ s, P s → P (state_of (k s s))) → keeps P (get_state ≫= k).
Proof.
  intros Hk s H. specialize (Hk s H).
  unfold mbind, M_bind, bind, get_state, state_of in *. simpl.
  destruct (k s s) as [[r s2] l2]. exact Hk.
Qed.

Lemma keeps_try_catch {A} (m h : M S A) :
  keeps P m → keeps P h → keeps P (try_catch m h).
Proof.
  intros Hm Hh s H. specialize (Hm s H). unfold try_catch, state_of in *.
  destruct (m s) as [[[a|] s1] l1]; simpl in *; [exact Hm|].
  specialize (Hh s1 Hm). unfold state_of in Hh.
  destruct (h s1) as [[r s2] l2]. exact Hh.
Qed.

Lemma keeps_for_each {A} (xs : list A) (body : A → M S unit) :
  (∀ x, keeps P (body x)) → keeps P (for_each xs body).
Proof.
  intros Hb. induction xs as [|x xs IH]; simpl.
  - apply (keeps_ret tt).
  - apply keeps_bind; [apply Hb|intros _; exact IH].
Qed.

End MonadFacts.


(** ** The cache *)

Section CacheFacts.

Context {P : Type}.

Implicit Types (c : Cache.DataCache P) (x : Cache.call P) (k : string).

Lemma ttl_of_table k : Cache.ttl_of k = default 5000 (Cache.TTL !! k).
Proof.
  unfold Cache.ttl_of, Cache.TTL, or_default.
  destruct (decide (k = "raffles")) as [->|?]; [reflexivity|].
  destruct (decide (k = "rules")) as [->|?]; [reflexivity|].
  destruct (decide (k = "sponsors")) as [->|?]; [reflexivity|].
  rewrite !lookup_insert_ne, lookup_empty by congruence. reflexivity.
Qed.

Lemma eqb_false_ne (a b : string) : negb (String.eqb a b) = true → a ≠ b.
Proof.
  intros H ->. rewrite String.eqb_refl in H. discriminate.
Qed.

(** A call that leaves [k] alone keeps the entry of [k] or, at the
    latest when an expiry check finds it stale, drops it. *)
Lemma exec_keeps_or_drops x c k e :
  Cache.leaves k x = true →
  Cache.cache c !! k = Some e →
  Cache.cache (Cache.exec x c) !! k = Some e
  ∨ (Cache.cache (Cache.exec x c) !! k = None
     ∧ ∃ now, Cache.read_time x = Some now ∧ now > Cache.expiresAt e).
Proof.
  intros Hx Hk. destruct x as [now key|now key|now now' key d v|key|key| |now|now];
    simpl in *; try (left; assumption); try discriminate.
  - unfold Cache.get. destruct (Cache.cache c !! key) as [e'|] eqn:Hkey; simpl; [|auto].
    destruct (now >? Cache.expiresAt e') eqn:Hexp; simpl; [|auto].
    destruct (decide (key = k)) as [->|Hne].
    + right. rewrite lookup_delete_eq. split; [reflexivity|].
      exists now. split; [reflexivity|]. rewrite Hk in Hkey. inversion Hkey; subst. lia.
    + left. rewrite lookup_delete_ne by assumption. assumption.
  - unfold Cache.getWithVersion.
    destruct (Cache.cache c !! key) as [e'|] eqn:Hkey; simpl; [|auto].
    destruct (now >? Cache.expiresAt e') eqn:Hexp; simpl; [|auto].
    destruct (decide (key = k)) as [->|Hne].
    + right. rewrite lookup_delete_eq. split; [reflexivity|].
      exists now. split; [reflexivity|]. rewrite Hk in Hkey. inversion Hkey; subst. lia.
    + left. rewrite lookup_delete_ne by assumption. assumption.
  - left. apply eqb_false_ne in Hx. rewrite lookup_insert_ne by assumption. assumption.
  - left. apply eqb_false_ne in Hx. rewrite lookup_delete_ne by assumption. assumption.
  - destruct (decide (now > Cache.expiresAt e)) as [Hgt|Hle].
    + right. split; [|eauto]. apply map_lookup_filter_None. right.
      intros e' He'. rewrite Hk in He'. inversion He'; subst. simpl. tauto.
    + left. apply map_lookup_filter_Some. split; [assumption|]. simpl. assumption.
Qed.

(** A call that does not set [k] cannot bring an entry of [k] into
    being. *)
Lemma exec_stays_absent x c k :
  Cache.no_set k x = true →
  Cache.cache c !! k = None →
  Cache.cache (Cache.exec x c) !! k = None.
Proof.
  intros Hx Hk. destruct x as [now key|now key|now now' key d v|key|key| |now|now];
    simpl in *; try assumption.
  - unfold Cache.get. destruct (Cache.cache c !! key) as [e'|] eqn:Hkey; simpl; [|assumption].
    destruct (now >? Cache.expiresAt e'); simpl; [|assumption].
    apply lookup_delete_None. auto.
  - unfold Cache.getWithVersion.
    destruct (Cache.cache c !! key) as [e'|] eqn:Hkey; simpl; [|assumption].
    destruct (now >? Cache.expiresAt e'); simpl; [|assumption].
    apply lookup_delete_None. auto.
  - apply eqb_false_ne in Hx. rewrite lookup_insert_ne by assumption. assumption.
  - apply lookup_delete_None. auto.
  - apply lookup_empty.
  - apply map_lookup_filter_None. auto.
Qed.

Lemma leaves_no_set k x : Cache.leaves k x = true → Cache.no_set k x = true.
Proof. destruct x; simpl; auto. Qed.

Lemma exec_all_stays_absent xs c k :
  forallb (Cache.no_set k) xs = true →
  Cache.cache c !! k = None →
  Cache.cache (Cache.exec_all xs c) !! k = None.
Proof.
  revert c. induction xs as [|x xs IH]; intros c Hxs Hk; simpl in *; [assumption|].
  apply andb_prop in Hxs as [Hx Hxs].
  apply IH; [assumption|]. apply exec_stays_absent; assumption.
Qed.

Lemma exec_all_keeps_or_drops xs c k e :
  forallb (Cache.leaves k) xs = true →
  Cache.cache c !! k = Some e →
  Cache.cache (Cache.exec_all xs c) !! k = Some e
  ∨ Cache.cache (Cache.exec_all xs c) !! k = None.
Proof.
  revert c. induction xs as [|x xs IH]; intros c Hxs Hk; simpl in *; [auto|].
  apply andb_prop in Hxs as [Hx Hxs].
  destruct (exec_keeps_or_drops x c k e Hx Hk) as [Hkeep|[Hdrop _]].
  - apply IH; assumption.
  - right. apply exec_all_stays_absent; [|assumption].
    clear -Hxs. induction xs as [|y ys IHys]; simpl in *; [reflexivity|].
    apply andb_prop in Hxs as [Hy Hys]. rewrite (leaves_no_set _ _ Hy). auto.
Qed.

Lemma exec_all_keeps xs c k e t :
  forallb (Cache.leaves k) xs = true →
  Cache.reads_by t xs →
  t <= Cache.expiresAt e →
  Cache.cache c !! k = Some e →
  Cache.cache (Cache.exec_all xs c) !! k = Some e.
Proof.
  revert c. induction xs as [|x xs IH]; intros c Hxs Hreads Ht Hk; simpl in *; [assumption|].
  apply andb_prop in Hxs as [Hx Hxs]. inversion Hreads as [|? ? Hnow Hrest]; subst.
  apply IH; try assumption.
  destruct (exec_keeps_or_drops x c k e Hx Hk) as [Hkeep|[_ [now [Hread Hgt]]]];
    [assumption|].
  specialize (Hnow now Hread). lia.
Qed.


(** C9.  After [invalidate(k)], whatever entry [k] had and whatever
    calls follow that do not set [k], a [get(k)] at any clock reading
    returns [null]. *)
Theorem get_after_invalidate c k (between : list (Cache.call P)) t :
  forallb (Cache.no_set k) between = true →
  let c1 := Cache.exec_all between (Cache.invalidate k c) in
  Cache.get t k c1 = (None, c1).
Proof.
  intros Hxs c1.
  assert (Hk : Cache.cache c1 !! k = None).
  { apply exec_all_stays_absent; [assumption|]. simpl. apply lookup_delete_eq. }
  unfold Cache.get. rewrite Hk. reflexivity.
Qed.

End CacheFacts.

(** ** The registered keys *)

Section RegisteredFacts.

Context {T : Type} (empty_tables : T) (schema_tables : T → T).

Implicit Types (s : Db.state T) (d : Db.database T) (e : Db.event T).

Local Abbreviation turn := (Db.turn empty_tables schema_tables).
Local Abbreviation reachable := (Db.reachable empty_tables schema_tables).
Local Abbreviation registered_only := (Db.registered_only (T:=T)).

Lemma registered_only_store s s' :
  Db.db s' = Db.db s → Db.writing s' = Db.writing s → Db.disk s' = Db.disk s →
  registered_only s → registered_only s'.
Proof.
  unfold Db.registered_only. intros -> -> ->. auto.
Qed.

Ltac same_store := intros s0 H0; eapply registered_only_store; [| | |exact H0]; reflexivity.

Lemma registered_scheduleSave now : keeps registered_only (Db.scheduleSave now).
Proof.
  apply keeps_get_bind. intros s H. apply (keeps_bind registered_only); [| |exact H].
  - destruct (Db.saveTimeout s) as [id|]; [|apply (keeps_ret registered_only tt)].
    apply keeps_get_bind. intros s1 H1. revert s1 H1. same_store.
  - intros _. apply keeps_bind.
    + apply keeps_get_bind. intros s1 H1. revert s1 H1. same_store.
    + intros id. apply keeps_modify. same_store.
Qed.

Lemma db_run_within st d d' :
  Db.db_run st d = Some d' → Db.within d → Db.within d'.
Proof.
  unfold Db.within. intros Hrun Hd. destruct st as [name effect|updatedAt key]; simpl in Hrun.
  - destruct (effect (Db.tables d)); inversion Hrun; subst. exact Hd.
  - inversion Hrun; subst. simpl.
    destruct (Db.data_versions d !! key) as [r|] eqn:Hk; [|exact Hd].
    rewrite dom_insert_lookup_L by (rewrite Hk; eauto). exact Hd.
Qed.

Lemma registered_set_db d s :
  Db.within d → registered_only s → registered_only (Db.set_db (Some d) s).
Proof.
  unfold Db.registered_only. simpl. intros Hd (_ & Hw & Hdisk).
  split; [|auto]. intros d' Heq. inversion Heq; subst. exact Hd.
Qed.

Lemma registered_run st now : keeps registered_only (Db.run st now).
Proof.
  apply keeps_get_bind. intros s H. destruct (Db.db s) as [d|] eqn:Hd; [|exact H].
  destruct (Db.db_run st d) as [d'|] eqn:Hrun; [|exact H].
  apply (keeps_bind registered_only); [| |exact H].
  - apply keeps_modify. intros s1 H1. apply registered_set_db; [|exact H1].
    apply (db_run_within st d d' Hrun). apply (proj1 H d Hd).
  - intros _. apply keeps_bind; [apply keeps_tell|]. intros _. apply registered_scheduleSave.
Qed.

Lemma registered_run_list sts now : keeps registered_only (Db.run_list sts now).
Proof.
  induction sts as [|st sts IH]; simpl.
  - apply (keeps_ret registered_only tt).
  - apply keeps_bind; [apply registered_run|intros _; exact IH].
Qed.

Lemma registered_transaction sts now : keeps registered_only (Db.transaction sts now).
Proof.
  apply keeps_get_bind. intros s H. destruct (Db.db s) as [d|] eqn:Hd; [|exact H].
  apply (keeps_try_catch registered_only); [| |exact H].
  - apply keeps_bind; [apply registered_run_list|intros _; apply registered_scheduleSave].
  - apply keeps_bind; [|intros _; apply keeps_throw].
    apply keeps_modify. intros s1 H1. apply registered_set_db; [|exact H1].
    apply (proj1 H d Hd).
Qed.

Lemma registered_bumpVersion stamp key now :
  keeps registered_only (Db.bumpVersion stamp key now).
Proof.
  apply keeps_bind; [apply registered_run|]. intros _.
  apply keeps_bind; [|intros r; apply (keeps_ret registered_only)].
  apply keeps_get_bind. intros s H. destruct (Db.db s); exact H.
Qed.

Lemma insert_or_ignore_within key stamp (m : gmap string Db.version_row) :
  key ∈ Db.default_keys → dom m ⊆ Db.default_keys →
  dom (Db.insert_or_ignore key stamp m) ⊆ Db.default_keys.
Proof.
  intros Hkey Hm. unfold Db.insert_or_ignore. destruct (m !! key); [exact Hm|].
  rewrite dom_insert_L. apply union_least; [|exact Hm].
  apply singleton_subseteq_l. exact Hkey.
Qed.

Lemma schema_within stamp d :
  Db.within d → Db.within (Db.schema schema_tables stamp d).
Proof.
  unfold Db.within, Db.schema. simpl. intros Hd.
  repeat apply insert_or_ignore_within; try exact Hd;
    unfold Db.default_keys; rewrite !elem_of_union, !elem_of_singleton; auto.
Qed.

Lemma registered_initDb f sc stamp now :
  keeps registered_only (Db.initDb empty_tables schema_tables f sc stamp now).
Proof.
  apply keeps_get_bind. intros s H. destruct (Db.initialized s); [exact H|].
  set (loaded := match Db.disk s with
                 | Some d => if f then d
                             else {| Db.data_versions := ∅; Db.tables := empty_tables |}
                 | None => {| Db.data_versions := ∅; Db.tables := empty_tables |}
                 end).
  assert (Hloaded : Db.within loaded).
  { subst loaded. destruct (Db.disk s) as [d|] eqn:Hdisk.
    - destruct f; [apply (proj2 (proj2 H) d Hdisk)|].
      unfold Db.within. simpl. rewrite dom_empty_L. apply empty_subseteq.
    - unfold Db.within. simpl. rewrite dom_empty_L. apply empty_subseteq. }
  apply (keeps_bind registered_only); [| |exact H].
  - apply keeps_modify. intros s1 H1. apply registered_set_db; assumption.
  - intros _. apply keeps_bind.
    + destruct sc; [|apply (keeps_ret registered_only tt)].
      apply keeps_bind; [|intros _; apply registered_scheduleSave].
      apply keeps_modify. intros s1 H1. apply registered_set_db; [|exact H1].
      apply schema_within. exact Hloaded.
    + intros _. apply keeps_modify. same_store.
Qed.

Lemma registered_finish_write : keeps registered_only Db.finish_write.
Proof.
  apply keeps_bind; [apply keeps_modify; same_store|]. intros _.
  apply keeps_get_bind. intros s H. destruct (Db.pendingWrite s); [|exact H].
  apply (keeps_bind registered_only); [| |exact H].
  - apply keeps_modify. same_store.
  - intros _. apply keeps_get_bind. intros s1 H1. revert s1 H1. same_store.
Qed.

Lemma registered_saveDatabase ok : keeps registered_only (Db.saveDatabase ok).
Proof.
  apply keeps_bind; [apply keeps_tell|]. intros _.
  apply keeps_get_bind. intros s H. destruct (Db.db s) as [d|] eqn:Hd; [|exact H].
  destruct (Db.isWriting s).
  - revert s H Hd. intros s H _. revert s H. same_store.
  - apply (keeps_bind registered_only); [| |exact H].
    + apply keeps_modify. same_store.
    + intros _. destruct ok; [|apply registered_finish_write].
      apply keeps_bind; [|intros _; apply keeps_tell].
      apply keeps_modify. intros s1 (H1 & H2 & H3). split; [exact H1|]. split; [|exact H3].
      simpl. apply Forall_app. split; [apply (proj1 (proj2 H))|].
      constructor; [apply (proj1 H d Hd)|constructor].
Qed.

Lemma registered_resume_write ok : keeps registered_only (Db.resume_write ok).
Proof.
  apply keeps_get_bind. intros s H. destruct (Db.writing s) as [|buffer rest] eqn:Hw; [exact H|].
  assert (Hbuf : Db.within buffer ∧ Forall Db.within rest).
  { destruct H as (_ & H2 & _). rewrite Hw in H2. inversion H2; subst. auto. }
  destruct Hbuf as [Hbuf Hrest].
  apply (keeps_bind registered_only); [| |exact H].
  - apply keeps_modify. intros s1 (H1 & _ & H3). split; [exact H1|]. split; [exact Hrest|exact H3].
  - intros _. apply keeps_bind.
    + destruct ok; [|apply (keeps_ret registered_only tt)].
      apply keeps_modify. intros s1 (H1 & H2 & _). split; [exact H1|]. split; [exact H2|].
      simpl. intros d' Heq. inversion Heq; subst. exact Hbuf.
    + intros _. apply keeps_bind; [apply keeps_tell|intros _; apply registered_finish_write].
Qed.

Lemma registered_closeDb ok : keeps registered_only (Db.closeDb ok).
Proof.
  apply keeps_get_bind. intros s H. apply (keeps_bind registered_only); [| |exact H].
  - destruct (Db.saveTimeout s) as [id|]; [|apply (keeps_ret registered_only tt)].
    apply keeps_bind; [|intros _; apply registered_saveDatabase].
    apply keeps_get_bind. intros s1 H1. revert s1 H1. same_store.
  - intros _. apply keeps_get_bind. intros s1 H1. destruct (Db.db s1); [|exact H1].
    destruct H1 as (_ & H2 & H3). split; [discriminate|]. split; assumption.
Qed.

Lemma registered_turn now e : keeps registered_only (turn now e).
Proof.
  destruct e as [f sc st|st|sts|stamp key'|ok|id ok|ok|ok|ok]; simpl.
  - apply registered_initDb.
  - apply registered_run.
  - apply registered_transaction.
  - apply keeps_bind; [apply registered_bumpVersion|].
    intros v. apply (keeps_ret registered_only tt).
  - apply registered_saveDatabase.
  - apply keeps_get_bind. intros s H. destruct (existsb _ _); [|exact H].
    apply (keeps_bind registered_only); [| |exact H].
    + apply keeps_modify. same_store.
    + intros _. apply keeps_bind; [apply keeps_tell|intros _; apply registered_saveDatabase].
  - apply keeps_get_bind. intros s H. destruct (Db.immediates s) as [|n]; [exact H|].
    apply (keeps_bind registered_only); [| |exact H].
    + apply keeps_modify. same_store.
    + intros _. apply registered_saveDatabase.
  - apply registered_resume_write.
  - apply registered_closeDb.
Qed.

(** Whatever the module does, only the keys of the schema ever have a
    version row, provided the file it started from had no others. *)
Lemma reachable_registered_only file s :
  (∀ d, file = Some d → Db.within d) →
  reachable file s → registered_only s.
Proof.
  intros Hfile. induction 1 as [|s now e _ IH].
  - split; [discriminate|]. split; [constructor|exact Hfile].
  - apply registered_turn. exact IH.
Qed.

End RegisteredFacts.

(** ** The version table *)

Section VersionFacts.

Context {T : Type} (empty_tables : T) (schema_tables : T → T).

Implicit Types (s : Db.state T) (d : Db.database T) (e : Db.event T).

Local Abbreviation after := (Db.after empty_tables schema_tables).
Local Abbreviation after_all := (Db.after_all empty_tables schema_tables).

Ltac unfold_db :=
  unfold Db.after, Db.turn, Db.bumpVersion, Db.current_version,
    Db.getVersion, Db.run, Db.timer_callback, Db.saveDatabase, Db.resume_write,
    Db.finish_write, Db.scheduleSave, Db.setTimeout, Db.clearTimeout, Db.setImmediate,
    Db.closeDb, Db.initDb, Db.stored, state_of, value_of, trace_of,
    mbind, mret, M_bind, M_ret, bind, ret, get_state, modify, tell, throw in *.

Lemma scheduleSave_db now s :
  Db.db (state_of (Db.scheduleSave now s)) = Db.db s
  ∧ value_of (Db.scheduleSave now s) = Ok tt.
Proof. unfold_db. destruct (Db.saveTimeout s); auto. Qed.

(** [run] either throws before touching anything or applies its
    statement. *)
Lemma run_cases st now s :
  (value_of (Db.run st now s) = Throw ∧ state_of (Db.run st now s) = s)
  ∨ (∃ d d', Db.db s = Some d ∧ Db.db_run st d = Some d'
       ∧ value_of (Db.run st now s) = Ok tt
       ∧ Db.db (state_of (Db.run st now s)) = Some d').
Proof.
  unfold_db. destruct (Db.db s) as [d|] eqn:Hd; [|auto].
  destruct (Db.db_run st d) as [d'|] eqn:Hrun; [|auto].
  right. exists d, d'. simpl. destruct (Db.saveTimeout s); simpl; auto.
Qed.

Lemma db_run_mono st d d' key r :
  Db.db_run st d = Some d' →
  Db.data_versions d !! key = Some r →
  ∃ r', Db.data_versions d' !! key = Some r' ∧ Db.version r <= Db.version r'.
Proof.
  intros Hrun Hr. destruct st as [name effect|updatedAt key']; simpl in Hrun.
  - destruct (effect (Db.tables d)); inversion Hrun; subst; simpl. exists r. split; [auto|lia].
  - inversion Hrun; subst; simpl. destruct (decide (key' = key)) as [->|Hne].
    + rewrite Hr, lookup_insert_eq. eexists. split; [reflexivity|]. simpl. lia.
    + destruct (Db.data_versions d !! key').
      * rewrite lookup_insert_ne by assumption. exists r. split; [auto|lia].
      * exists r. split; [auto|lia].
Qed.

Lemma run_mono st now s key r :
  Db.stored key s = Some r →
  ∃ r', Db.stored key (state_of (Db.run st now s)) = Some r'
        ∧ Db.version r <= Db.version r'.
Proof.
  intros Hr. destruct (run_cases st now s) as [[_ ->]|(d & d' & Hd & Hrun & _ & Hd')].
  - exists r. split; [assumption|lia].
  - unfold Db.stored in *. rewrite Hd in Hr. rewrite Hd'.
    eapply db_run_mono; eassumption.
Qed.

Lemma run_list_mono sts now s key r :
  Db.stored key s = Some r →
  ∃ r', Db.stored key (state_of (Db.run_list sts now s)) = Some r'
        ∧ Db.version r <= Db.version r'.
Proof.
  revert s r. induction sts as [|st sts IH]; intros s r Hr; simpl.
  - exists r. split; [assumption|lia].
  - destruct (run_mono st now s key r Hr) as (r1 & Hr1 & Hle1).
    unfold mbind, M_bind, bind, state_of in *.
    destruct (Db.run st now s) as [[[[]|] s1] l1]; simpl in *.
    + destruct (IH s1 r1 Hr1) as (r2 & Hr2 & Hle2).
      destruct (Db.run_list sts now s1) as [[res s2] l2]; simpl in *.
      exists r2. split; [assumption|lia].
    + exists r1. split; [assumption|lia].
Qed.

Lemma transaction_mono sts now s key r :
  Db.stored key s = Some r →
  ∃ r', Db.stored key (state_of (Db.transaction sts now s)) = Some r'
        ∧ Db.version r <= Db.version r'.
Proof.
  intros Hr. unfold Db.transaction.
  unfold mbind at 1. unfold M_bind, bind, get_state. simpl.
  destruct (Db.db s) as [d0|] eqn:Hd0.
  - destruct (run_list_mono sts now s key r Hr) as (r1 & Hr1 & Hle1).
    unfold try_catch, mbind, M_bind, bind, state_of, throw, modify in *.
    destruct (Db.run_list sts now s) as [[[[]|] s1] l1]; simpl in *.
    + pose proof (scheduleSave_db now s1) as [Hdb Hval].
      unfold state_of, value_of in *.
      destruct (Db.scheduleSave now s1) as [[res s2] l2]; simpl in *. subst res. simpl.
      exists r1. unfold Db.stored in *. rewrite Hdb. split; [assumption|lia].
    + exists r. unfold Db.stored in *. simpl. rewrite Hd0 in Hr. split; [assumption|lia].
  - unfold Db.stored in Hr. rewrite Hd0 in Hr. discriminate.
Qed.

Lemma saveDatabase_db ok s : Db.db (state_of (Db.saveDatabase ok s)) = Db.db s.
Proof.
  unfold_db. simpl. destruct (Db.db s) eqn:Hd; simpl; [|assumption].
  destruct (Db.isWriting s); simpl; [assumption|].
  destruct ok; simpl; [assumption|]. destruct (Db.pendingWrite s); simpl; assumption.
Qed.

Lemma resume_write_db ok s : Db.db (state_of (Db.resume_write ok s)) = Db.db s.
Proof.
  unfold_db. simpl. destruct (Db.writing s); simpl; [reflexivity|].
  destruct ok; simpl; destruct (Db.pendingWrite s); reflexivity.
Qed.

(** The value and the stored row after [bumpVersion] on a registered
    key. *)
Lemma bumpVersion_registered stamp key now s r :
  Db.stored key s = Some r →
  value_of (Db.bumpVersion stamp key now s) = Ok (Db.version r + 1)
  ∧ Db.stored key (state_of (Db.bumpVersion stamp key now s))
    = Some {| Db.version := Db.version r + 1; Db.updated_at := stamp |}.
Proof.
  intros Hr. unfold_db. destruct (Db.db s) as [d|] eqn:Hd; [|discriminate].
  simpl. destruct (Db.saveTimeout s); simpl; rewrite Hr, lookup_insert_eq; simpl;
    (split; [|reflexivity]);
    destruct (Z.eqb_spec (Db.version r + 1) 0) as [->|]; reflexivity.
Qed.

(** Any turn that is not [initDb] or [closeDb] keeps every version row
    and never lowers its counter. *)
Lemma turn_mono now e s key r :
  Db.keeps_open e = true →
  Db.stored key s = Some r →
  ∃ r', Db.stored key (after now e s) = Some r' ∧ Db.version r <= Db.version r'.
Proof.
  intros He Hr. destruct e as [f sc st|st|sts|stamp key'|ok|id ok|ok|ok|ok];
    try discriminate; unfold Db.after, Db.turn.
  - apply run_mono; assumption.
  - apply transaction_mono; assumption.
  - destruct (run_mono (Db.IncrementVersion stamp key') now s key r Hr) as (r1 & Hr1 & Hle).
    unfold Db.bumpVersion, Db.current_version, Db.getVersion, mbind, M_bind, bind,
      state_of, get_state, mret, M_ret, ret, throw in *.
    destruct (Db.run (Db.IncrementVersion stamp key') now s) as [[[[]|] s1] l1]; simpl in *.
    + exists r1. destruct (Db.db s1); simpl; split; (assumption || lia).
    + exists r1. split; [assumption|lia].
  - exists r. unfold Db.stored. rewrite saveDatabase_db. split; [assumption|lia].
  - exists r. split; [|lia].
    unfold mbind at 1. unfold M_bind, bind, get_state. simpl.
    destruct (existsb _ _); [|assumption].
    unfold Db.timer_callback, mbind, M_bind, bind, modify, tell, state_of. simpl.
    pose proof (saveDatabase_db ok (Db.set_timers
      (filter (λ p : nat * Z, p.1 ≠ id) (Db.timers s)) s)) as Hdb.
    unfold state_of in Hdb.
    destruct (Db.saveDatabase ok _) as [[res s2] l2]; simpl in *.
    unfold Db.stored in *. rewrite Hdb. assumption.
  - exists r. split; [|lia].
    unfold mbind at 1. unfold M_bind, bind, get_state. simpl.
    destruct (Db.immediates s) as [|n]; [assumption|].
    unfold mbind, M_bind, bind, modify, state_of. simpl.
    pose proof (saveDatabase_db ok (Db.set_immediates n s)) as Hdb.
    unfold state_of in Hdb.
    destruct (Db.saveDatabase ok _) as [[res s2] l2]; simpl in *.
    unfold Db.stored in *. rewrite Hdb. assumption.
  - exists r. unfold Db.stored. rewrite resume_write_db. split; [assumption|lia].
Qed.

Lemma after_all_mono between s key r :
  Forall (λ te, Db.keeps_open (snd te) = true) between →
  Db.stored key s = Some r →
  ∃ r', Db.stored key (after_all between s) = Some r'
        ∧ Db.version r <= Db.version r'.
Proof.
  intros Hall. revert s r. induction Hall as [|[now e] rest He _ IH]; intros s r Hr; simpl.
  - exists r. split; [assumption|lia].
  - destruct (turn_mono now e s key r He Hr) as (r1 & Hr1 & Hle1).
    destruct (IH _ _ Hr1) as (r2 & Hr2 & Hle2).
    exists r2. split; [assumption|lia].
Qed.


(** C10.  On a key without a row, [bumpVersion] returns 0 and leaves the
    whole database as it was; whatever the key, the set of registered keys
    is the same before and after; on a new database the schema registers
    exactly 'raffles', 'rules' and 'sponsors'; and in every state that the
    module reaches from a file with no other keys, no other key has a
    version row. *)
Theorem bumpVersion_unregistered s d key stamp now :
  Db.db s = Some d →
  let out := Db.bumpVersion stamp key now s in
  (Db.data_versions d !! key = None →
     value_of out = Ok 0 ∧ Db.db (state_of out) = Some d)
  ∧ (∃ d', Db.db (state_of out) = Some d'
           ∧ dom (Db.data_versions d') = dom (Db.data_versions d))
  ∧ dom (Db.data_versions
           (Db.schema schema_tables stamp
              {| Db.data_versions := ∅; Db.tables := empty_tables |}))
    = ({["raffles"; "rules"; "sponsors"]} : gset string)
  ∧ (∀ file s' d',
       (∀ d0, file = Some d0 → Db.within d0) →
       Db.reachable empty_tables schema_tables file s' →
       Db.db s' = Some d' →
       dom (Db.data_versions d') ⊆ ({["raffles"; "rules"; "sponsors"]} : gset string)).
Proof.
  intros Hd out. subst out.
  assert (Hreachable : ∀ file s' d',
            (∀ d0, file = Some d0 → Db.within d0) →
            Db.reachable empty_tables schema_tables file s' →
            Db.db s' = Some d' →
            dom (Db.data_versions d') ⊆ ({["raffles"; "rules"; "sponsors"]} : gset string)).
  { intros file s' d' Hfile Hreach Hd'.
    exact (proj1 (reachable_registered_only empty_tables schema_tables
                    file s' Hfile Hreach) d' Hd'). }
  unfold_db. rewrite Hd. simpl. split; [|split; [|split; [|exact Hreachable]]].
  - intros Hnone. unfold Db.increment_version.
    destruct (Db.saveTimeout s); simpl; rewrite Hnone; simpl; rewrite Hnone;
      (split; [reflexivity|]); destruct d; reflexivity.
  - destruct (Db.saveTimeout s); simpl; eexists; (split; [reflexivity|]); simpl;
      (destruct (Db.data_versions d !! key) eqn:Hk; [|reflexivity]);
      apply dom_insert_lookup_L; rewrite Hk; eauto.
  - unfold Db.insert_or_ignore. simpl.
    rewrite lookup_empty, lookup_insert_ne, lookup_empty by discriminate.
    rewrite !lookup_insert_ne, lookup_empty by discriminate.
    rewrite !dom_insert_L, dom_empty_L. set_solver.
Qed.

End VersionFacts.
(** ** The saver: one write at a time *)

Section SaverFacts.

Context {T : Type} (empty_tables : T) (schema_tables : T → T).

Implicit Types (s : Db.state T) (d : Db.database T) (e : Db.event T).

Local Abbreviation after := (Db.after empty_tables schema_tables).
Local Abbreviation turn := (Db.turn empty_tables schema_tables).
Local Abbreviation reachable := (Db.reachable empty_tables schema_tables).
Local Abbreviation one_flight := (Db.one_flight (T:=T)).

Lemma one_flight_on_flight : Db.on_flight (T:=T) Db.one_flight.
Proof.
  unfold Db.on_flight, Db.flight, Db.one_flight. intros s s' H. inversion H as [[H1 H2 H3 H4]].
  rewrite H1, H2, H3. auto.
Qed.

Section Frame.

Context (P : Db.state T → Prop) (HP : Db.on_flight P).

Ltac frame := intros s0 H0; eapply HP; [|exact H0]; reflexivity.

Lemma keeps_setTimeout now delay : keeps P (Db.setTimeout now delay).
Proof.
  apply keeps_get_bind. intros s H. eapply HP; [|exact H]. reflexivity.
Qed.

Lemma keeps_clearTimeout id : keeps P (Db.clearTimeout id).
Proof.
  apply keeps_get_bind. intros s H. eapply HP; [|exact H]. reflexivity.
Qed.

Lemma keeps_scheduleSave now : keeps P (Db.scheduleSave now).
Proof.
  apply keeps_get_bind. intros s H.
  apply (keeps_bind P); [| |exact H].
  - destruct (Db.saveTimeout s); [apply keeps_clearTimeout|apply (keeps_ret P tt)].
  - intros _. apply keeps_bind; [apply keeps_setTimeout|].
    intros id. apply keeps_modify. intros s1 H1. eapply HP; [|exact H1]. reflexivity.
Qed.

Lemma keeps_run st now : keeps P (Db.run st now).
Proof.
  apply keeps_get_bind. intros s H. destruct (Db.db s) as [d|]; [|exact H].
  destruct (Db.db_run st d) as [d'|]; [|exact H].
  apply (keeps_bind P); [| |exact H].
  - apply keeps_modify. intros s1 H1. eapply HP; [|exact H1]. reflexivity.
  - intros _. apply keeps_bind; [apply keeps_tell|]. intros _. apply keeps_scheduleSave.
Qed.

Lemma keeps_run_list sts now : keeps P (Db.run_list sts now).
Proof.
  induction sts as [|st sts IH]; simpl.
  - apply (keeps_ret P tt).
  - apply keeps_bind; [apply keeps_run|intros _; exact IH].
Qed.

Lemma keeps_transaction sts now : keeps P (Db.transaction sts now).
Proof.
  apply keeps_get_bind. intros s H. destruct (Db.db s) as [d|]; [|exact H].
  apply (keeps_try_catch P); [| |exact H].
  - apply keeps_bind; [apply keeps_run_list|intros _; apply keeps_scheduleSave].
  - apply keeps_bind; [|intros _; apply keeps_throw].
    apply keeps_modify. intros s1 H1. eapply HP; [|exact H1]. reflexivity.
Qed.

Lemma keeps_current_version key : keeps P (Db.current_version key).
Proof.
  apply keeps_bind; [|intros r; apply (keeps_ret P)].
  apply keeps_get_bind. intros s H. destruct (Db.db s); exact H.
Qed.

Lemma keeps_bumpVersion stamp key now : keeps P (Db.bumpVersion stamp key now).
Proof.
  apply keeps_bind; [apply keeps_run|intros _; apply keeps_current_version].
Qed.

Lemma keeps_initDb f sc stamp now :
  keeps P (Db.initDb empty_tables schema_tables f sc stamp now).
Proof.
  apply keeps_get_bind. intros s H. destruct (Db.initialized s); [exact H|].
  apply (keeps_bind P); [| |exact H].
  - apply keeps_modify. intros s1 H1. eapply HP; [|exact H1]. reflexivity.
  - intros _. apply keeps_bind.
    + destruct sc; [|apply (keeps_ret P tt)].
      apply keeps_bind; [|intros _; apply keeps_scheduleSave].
      apply keeps_modify. intros s1 H1. eapply HP; [|exact H1]. reflexivity.
    + intros _. apply keeps_modify. intros s1 H1. eapply HP; [|exact H1]. reflexivity.
Qed.

End Frame.

Lemma keeps_saveDatabase ok : keeps one_flight (Db.saveDatabase ok).
Proof.
  apply keeps_bind; [apply keeps_tell|]. intros _.
  apply keeps_get_bind. intros s H. destruct (Db.db s) as [d|]; [|exact H].
  unfold Db.one_flight in *.
  destruct H as [[Hw [b Hb]]|(Hw & Hb & Hp)]; rewrite Hw.
  - left. simpl. eauto.
  - unfold Db.finish_write, Db.setImmediate, state_of.
    unfold mbind, M_bind, bind, tell, get_state, modify, mret, M_ret, ret.
    destruct ok; simpl.
    + left. rewrite Hb. eauto.
    + rewrite Hp. simpl. right. auto.
Qed.

Lemma keeps_resume_write ok : keeps one_flight (Db.resume_write ok).
Proof.
  apply keeps_get_bind. intros s H. unfold Db.one_flight in *.
  destruct H as [[Hw [b Hb]]|(Hw & Hb & Hp)]; rewrite Hb; [|right; auto].
  unfold Db.finish_write, Db.setImmediate, state_of.
  unfold mbind, M_bind, bind, tell, get_state, modify, mret, M_ret, ret.
  right. destruct ok; simpl; destruct (Db.pendingWrite s) eqn:Hp; simpl; auto.
Qed.

Lemma keeps_closeDb ok : keeps one_flight (Db.closeDb ok).
Proof.
  apply keeps_get_bind. intros s H. apply (keeps_bind one_flight); [| |exact H].
  - destruct (Db.saveTimeout s) as [id|]; [|apply (keeps_ret one_flight tt)].
    apply keeps_bind; [|intros _; apply keeps_saveDatabase].
    apply keeps_clearTimeout. apply one_flight_on_flight.
  - intros _. apply keeps_get_bind. intros s1 H1. destruct (Db.db s1); exact H1.
Qed.

Lemma keeps_turn now e : keeps one_flight (turn now e).
Proof.
  destruct e as [f sc st|st|sts|stamp key'|ok|id ok|ok|ok|ok]; simpl.
  - apply keeps_initDb, one_flight_on_flight.
  - apply keeps_run, one_flight_on_flight.
  - apply keeps_transaction, one_flight_on_flight.
  - apply keeps_bind; [|intros v; apply (keeps_ret one_flight tt)].
    apply keeps_bumpVersion, one_flight_on_flight.
  - apply keeps_saveDatabase.
  - apply keeps_get_bind. intros s H. destruct (existsb _ _); [|exact H].
    apply (keeps_bind one_flight); [| |exact H].
    + apply keeps_modify. intros s1 H1. exact H1.
    + intros _. apply keeps_bind; [apply keeps_tell|intros _; apply keeps_saveDatabase].
  - apply keeps_get_bind. intros s H. destruct (Db.immediates s) as [|n]; [exact H|].
    apply (keeps_bind one_flight); [| |exact H].
    + apply keeps_modify. intros s1 H1. exact H1.
    + intros _. apply keeps_saveDatabase.
  - apply keeps_resume_write.
  - apply keeps_closeDb.
Qed.

Lemma reachable_one_flight file s : reachable file s → Db.one_flight s.
Proof.
  induction 1 as [|s now e _ IH].
  - right. auto.
  - apply keeps_turn. exact IH.
Qed.

(** C2 as amended.  In every state that the module can reach, at most
    one buffer is in the file operations, and one is exactly when
    [isWriting] is set.  A [saveDatabase()] entered while [isWriting] is
    set starts no write: with the handle open it sets [pendingWrite] and
    does nothing else, with [db = null] it returns at the guard and
    changes nothing.  When the write under way settles with
    [pendingWrite] set, both flags are cleared, no buffer is left in the
    file operations and exactly one [saveDatabase] call is queued with
    [setImmediate]; that call, run next on an open handle, starts one
    write. *)
Theorem single_flight file s :
  reachable file s →
  (length (Db.writing s) <= 1)%nat
  ∧ (Db.isWriting s = true ↔ length (Db.writing s) = 1%nat)
  ∧ (Db.isWriting s = true →
     ∀ export_ok,
       state_of (Db.saveDatabase export_ok s)
       = match Db.db s with Some _ => Db.set_pendingWrite true s | None => s end
       ∧ trace_of (Db.saveDatabase export_ok s) = [ASaveDatabase])
  ∧ (Db.pendingWrite s = true →
     ∀ ok,
       let s' := state_of (Db.resume_write ok s) in
       Db.isWriting s' = false ∧ Db.pendingWrite s' = false ∧ Db.writing s' = []
       ∧ Db.immediates s' = Datatypes.S (Db.immediates s)
       ∧ trace_of (Db.resume_write ok s) = [AWriteEnd ok; ASetImmediate]
       ∧ ∀ now d, Db.db s = Some d →
           Db.writing (after now (Db.EImmediate true) s') = [d]
           ∧ Db.immediates (after now (Db.EImmediate true) s') = Db.immediates s).
Proof.
  intros Hreach. pose proof (reachable_one_flight file s Hreach) as Hone.
  split; [|split; [|split]].
  - destruct Hone as [[_ [b ->]]|(_ & -> & _)]; simpl; lia.
  - destruct Hone as [[-> [b ->]]|(-> & -> & _)]; simpl; split; congruence.
  - intros Hw export_ok. unfold Db.saveDatabase, state_of, trace_of.
    unfold mbind, M_bind, bind, tell, get_state, modify, mret, M_ret, ret. simpl.
    destruct (Db.db s); rewrite ?Hw; simpl; auto.
  - intros Hp ok s'. subst s'.
    destruct Hone as [[Hw [b Hb]]|(_ & _ & Hnp)]; [|congruence].
    unfold Db.after, Db.turn, Db.resume_write, Db.finish_write, Db.setImmediate,
      Db.saveDatabase, state_of, trace_of.
    unfold mbind, M_bind, bind, tell, get_state, modify, mret, M_ret, ret.
    simpl. rewrite Hb. simpl. destruct ok; simpl; rewrite Hp; simpl;
      (repeat (split; [reflexivity|])); intros now d Hd; rewrite Hd; simpl; auto.
Qed.

End SaverFacts.

(** ** The saver: debounce *)

Section DebounceFacts.

Context {T : Type} (empty_tables : T) (schema_tables : T → T).

Implicit Types (s : Db.state T) (e : Db.event T) (l : list (Z * action)).

Local Abbreviation turn := (Db.turn empty_tables schema_tables).
Local Abbreviation play := (Db.play empty_tables schema_tables).
Local Abbreviation play_one := (Db.play_one empty_tables schema_tables).
Local Abbreviation advance := (Db.advance empty_tables schema_tables).
Local Abbreviation fire := (Db.fire empty_tables schema_tables).
Local Abbreviation schedules_only := (Db.schedules_only (T:=T)).

Ltac unfold_m :=
  unfold state_of, value_of, trace_of, try_catch,
    mbind, mret, M_bind, M_ret, bind, ret, get_state, modify, tell, throw in *.

(** *** Computations that only call [scheduleSave] *)

Lemma only_ret {A} now (a : A) : schedules_only now (mret a : M (Db.state T) A).
Proof. intros s. exists O. auto. Qed.

Lemma only_throw {A} now : schedules_only now (throw : M (Db.state T) A).
Proof. intros s. exists O. auto. Qed.

Lemma only_tell now a :
  Db.is_schedule a = false → Db.is_fired a = false → schedules_only now (tell a).
Proof.
  intros H1 H2 s. exists O. unfold_m. simpl. rewrite H1, H2. auto.
Qed.

Lemma only_modify now (f : Db.state T → Db.state T) :
  (∀ s, Db.debounce_view (f s) = Db.debounce_view s) → schedules_only now (modify f).
Proof. intros Hf s. exists O. unfold_m. simpl. auto. Qed.

Lemma only_bind {A B} now (m : M (Db.state T) A) (k : A → M (Db.state T) B) :
  schedules_only now m → (∀ a, schedules_only now (k a)) → schedules_only now (m ≫= k).
Proof.
  intros Hm Hk s. destruct (Hm s) as (n1 & Hv1 & Hn1 & Hf1). unfold_m.
  destruct (m s) as [[[a|] s1] l1]; simpl in *.
  - destruct (Hk a s1) as (n2 & Hv2 & Hn2 & Hf2). unfold_m.
    destruct (k a s1) as [[r s2] l2]; simpl in *.
    exists (n2 + n1)%nat. rewrite Nat.iter_add, <- Hv1, <- Hv2.
    rewrite !List.filter_app, length_app, Hf1, Hf2. split; [reflexivity|]. split; [lia|auto].
  - exists n1. auto.
Qed.

Lemma only_get_bind {B} now (k : Db.state T → M (Db.state T) B) :
  (∀ s, schedules_only now (k s)) → schedules_only now (get_state ≫= k).
Proof.
  intros Hk s. destruct (Hk s s) as (n & Hv & Hn & Hf). unfold_m. simpl.
  destruct (k s s) as [[r s2] l2]; simpl in *. exists n. auto.
Qed.

Lemma only_try_catch {A} now (m h : M (Db.state T) A) :
  schedules_only now m → schedules_only now h → schedules_only now (try_catch m h).
Proof.
  intros Hm Hh s. destruct (Hm s) as (n1 & Hv1 & Hn1 & Hf1). unfold_m.
  destruct (m s) as [[[a|] s1] l1]; simpl in *.
  - exists n1. auto.
  - destruct (Hh s1) as (n2 & Hv2 & Hn2 & Hf2). unfold_m.
    destruct (h s1) as [[r s2] l2]; simpl in *.
    exists (n2 + n1)%nat. rewrite Nat.iter_add, <- Hv1, <- Hv2.
    rewrite !List.filter_app, length_app, Hf1, Hf2. split; [reflexivity|]. split; [lia|auto].
Qed.

Lemma only_scheduleSave now : schedules_only now (Db.scheduleSave now).
Proof.
  intros s. exists 1%nat. unfold Db.scheduleSave, Db.clearTimeout, Db.setTimeout. unfold_m.
  destruct s as [d i st w p tm nx im wr dk]. simpl. destruct st as [id|]; simpl; auto.
Qed.

Lemma only_run st now : schedules_only now (Db.run st now).
Proof.
  apply only_get_bind. intros s. destruct (Db.db s) as [d|]; [|apply only_throw].
  destruct (Db.db_run st d); [|apply only_throw].
  apply only_bind; [apply only_modify; reflexivity|]. intros _.
  apply only_bind; [apply only_tell; reflexivity|]. intros _. apply only_scheduleSave.
Qed.

Lemma only_run_list sts now : schedules_only now (Db.run_list sts now).
Proof.
  induction sts as [|st sts IH]; simpl; [apply only_ret|].
  apply only_bind; [apply only_run|intros _; exact IH].
Qed.

Lemma only_transaction sts now : schedules_only now (Db.transaction sts now).
Proof.
  apply only_get_bind. intros s. destruct (Db.db s) as [d|]; [|apply only_throw].
  apply only_try_catch.
  - apply only_bind; [apply only_run_list|intros _; apply only_scheduleSave].
  - apply only_bind; [apply only_modify; reflexivity|intros _; apply only_throw].
Qed.

Lemma only_bumpVersion stamp key now : schedules_only now (Db.bumpVersion stamp key now).
Proof.
  apply only_bind; [apply only_run|]. intros _.
  apply only_bind; [|intros r; apply only_ret].
  apply only_get_bind. intros s. destruct (Db.db s); [apply only_ret|apply only_throw].
Qed.

Lemma only_initDb f sc stamp now :
  schedules_only now (Db.initDb empty_tables schema_tables f sc stamp now).
Proof.
  apply only_get_bind. intros s. destruct (Db.initialized s); [apply only_ret|].
  apply only_bind; [apply only_modify; reflexivity|]. intros _.
  apply only_bind; [|intros _; apply only_modify; reflexivity].
  destruct sc; [|apply only_ret].
  apply only_bind; [apply only_modify; reflexivity|intros _; apply only_scheduleSave].
Qed.

(** [saveDatabase] and the end of a write leave the debounce alone. *)
Lemma saveDatabase_quiet ok s :
  Db.debounce_view (state_of (Db.saveDatabase ok s)) = Db.debounce_view s
  ∧ List.filter Db.is_schedule (trace_of (Db.saveDatabase ok s)) = []
  ∧ List.filter Db.is_fired (trace_of (Db.saveDatabase ok s)) = [].
Proof.
  unfold Db.saveDatabase, Db.finish_write, Db.setImmediate. unfold_m. simpl.
  destruct (Db.db s); simpl; [|auto].
  destruct (Db.isWriting s); simpl; [auto|].
  destruct ok; simpl; [auto|]. destruct (Db.pendingWrite s); simpl; auto.
Qed.

Lemma only_saveDatabase ok now : schedules_only now (Db.saveDatabase ok).
Proof.
  intros s. exists O. destruct (saveDatabase_quiet ok s) as (Hv & Hs & Hf).
  rewrite Hs. auto.
Qed.

Lemma only_finish_write now : schedules_only now Db.finish_write.
Proof.
  apply only_bind; [apply only_modify; reflexivity|]. intros _.
  apply only_get_bind. intros s. destruct (Db.pendingWrite s); [|apply only_ret].
  apply only_bind; [apply only_modify; reflexivity|]. intros _.
  apply only_get_bind. intros s1.
  apply only_bind; [apply only_modify; reflexivity|intros _; apply only_tell; reflexivity].
Qed.

Lemma only_resume_write ok now : schedules_only now (Db.resume_write ok).
Proof.
  apply only_get_bind. intros s. destruct (Db.writing s) as [|b rest]; [apply only_ret|].
  apply only_bind; [apply only_modify; reflexivity|]. intros _.
  apply only_bind; [destruct ok; [apply only_modify; reflexivity|apply only_ret]|].
  intros _. apply only_bind; [apply only_tell; reflexivity|].
  intros _. apply only_finish_write.
Qed.

Lemma only_turn now e : Db.undisturbed e = true → schedules_only now (turn now e).
Proof.
  destruct e as [f sc st|st|sts|stamp key'|ok|id ok|ok|ok|ok]; simpl;
    intros He; try discriminate.
  - apply only_initDb.
  - apply only_run.
  - apply only_transaction.
  - apply only_bind; [apply only_bumpVersion|intros v; apply only_ret].
  - apply only_saveDatabase.
  - apply only_get_bind. intros s. destruct (Db.immediates s); [apply only_ret|].
    apply only_bind; [apply only_modify; reflexivity|intros _; apply only_saveDatabase].
  - apply only_resume_write.
Qed.

(** *** Call times and flush times *)

Lemma schedules_app l1 l2 :
  Db.schedules (l1 ++ l2) = Db.schedules l1 ++ Db.schedules l2.
Proof. apply omap_app. Qed.

Lemma flushes_app l1 l2 : Db.flushes (l1 ++ l2) = Db.flushes l1 ++ Db.flushes l2.
Proof. apply omap_app. Qed.

Lemma schedules_stamp t (la : list action) :
  Db.schedules (List.map (pair t) la)
  = replicate (length (List.filter Db.is_schedule la)) t.
Proof.
  induction la as [|a la IH]; [reflexivity|]. destruct a; simpl; rewrite <- ?IH; reflexivity.
Qed.

Lemma flushes_stamp t (la : list action) :
  Db.flushes (List.map (pair t) la)
  = replicate (length (List.filter Db.is_fired la)) t.
Proof.
  induction la as [|a la IH]; [reflexivity|]. destruct a; simpl; rewrite <- ?IH; reflexivity.
Qed.

Lemma is_due_id eager t id D : Db.is_due eager t (id, D) = Db.is_due eager t (O, D).
Proof. reflexivity. Qed.

Lemma is_due_later eager t t' D :
  t <= t' → Db.is_due eager t (O, D) = true → Db.is_due eager t' (O, D) = true.
Proof. unfold Db.is_due. destruct eager; simpl; lia. Qed.

Lemma is_due_own eager t : Db.is_due eager t (O, t + Db.save_delay) = false.
Proof. unfold Db.is_due, Db.save_delay. destruct eager; simpl; lia. Qed.

Lemma committed_snoc eager ts t :
  Db.committed eager (ts ++ [t])
  = Db.committed eager ts
    ++ match last ts with
       | Some t0 => if Db.is_due eager t (O, t0 + Db.save_delay)
                    then [t0 + Db.save_delay] else []
       | None => []
       end.
Proof.
  induction ts as [|a ts IH]; [reflexivity|].
  destruct ts as [|b ts].
  - simpl. rewrite app_nil_r. reflexivity.
  - change ((a :: b :: ts) ++ [t]) with (a :: (b :: ts) ++ [t]).
    change (Db.committed eager (a :: (b :: ts) ++ [t]))
      with ((if Db.is_due eager b (O, a + Db.save_delay) then [a + Db.save_delay] else [])
            ++ Db.committed eager ((b :: ts) ++ [t])).
    rewrite IH, last_cons_cons, app_assoc. reflexivity.
Qed.

(** *** The invariant *)

Lemma rearm_inv eager t v ts F :
  Db.debounce_inv eager t v ts F →
  Db.debounce_inv eager t (Db.rearm t v) (ts ++ [t]) F.
Proof.
  destruct v as [[armed handle] next].
  intros [(Harmed & HF & Hdue)|(id & t0 & Harmed & Hhandle & Hlast & HF & Hle & Hdue)];
    simpl in *; subst armed; right; exists next, t.
  - assert (Hnil : match handle with
                   | Some id => filter (λ p : nat * Z, p.1 ≠ id) []
                   | None => []
                   end = ([] : list (nat * Z))) by (destruct handle; reflexivity).
    rewrite Hnil, last_snoc, committed_snoc. simpl.
    split; [reflexivity|]. split; [reflexivity|]. split; [reflexivity|].
    split; [|split; [lia|apply is_due_own]].
    subst F. unfold Db.trailing_edge. destruct (last ts) as [t0|]; [|reflexivity].
    rewrite (Hdue t0 eq_refl). reflexivity.
  - subst handle. rewrite last_snoc, committed_snoc, Hlast, Hdue, app_nil_r.
    rewrite filter_cons_False by (simpl; tauto). rewrite filter_nil. simpl.
    split; [reflexivity|]. split; [reflexivity|]. split; [reflexivity|].
    split; [assumption|]. split; [lia|apply is_due_own].
Qed.

Lemma rearm_iter_inv eager t n v ts F :
  Db.debounce_inv eager t v ts F →
  Db.debounce_inv eager t (Nat.iter n (Db.rearm t) v) (ts ++ replicate n t) F.
Proof.
  intros H. induction n as [|n IH].
  - simpl. rewrite app_nil_r. exact H.
  - rewrite replicate_S_end, app_assoc. simpl. apply rearm_inv, IH.
Qed.

Lemma turn_inv eager t e s l :
  Db.undisturbed e = true →
  Db.debounce_inv eager t (Db.debounce_view s) (Db.schedules l) (Db.flushes l) →
  Db.debounce_inv eager t
    (Db.debounce_view (state_of (turn t e s)))
    (Db.schedules (l ++ List.map (pair t) (trace_of (turn t e s))))
    (Db.flushes (l ++ List.map (pair t) (trace_of (turn t e s)))).
Proof.
  intros He H. destruct (only_turn t e He s) as (n & Hv & Hn & Hf).
  rewrite schedules_app, flushes_app, schedules_stamp, flushes_stamp, Hn, Hf, Hv.
  simpl. rewrite app_nil_r. apply rearm_iter_inv, H.
Qed.

Lemma fire_armed exports s l id D :
  Db.timers s = [(id, D)] →
  ∃ s2 la,
    fire exports (s, l) (id, D) = (s2, l ++ List.map (pair D) (ATimerFired id :: la))
    ∧ Db.debounce_view s2 = ([], Db.saveTimeout s, Db.next_timer s)
    ∧ List.filter Db.is_schedule la = []
    ∧ List.filter Db.is_fired la = [].
Proof.
  intros Harmed. unfold Db.fire, Db.turn, Db.timer_callback. simpl.
  unfold mbind, M_bind, bind, get_state, modify, tell. simpl.
  rewrite Harmed. simpl. rewrite Nat.eqb_refl, Z.leb_refl. simpl.
  rewrite filter_cons_False by (simpl; tauto). rewrite filter_nil.
  destruct (saveDatabase_quiet (exports id) (Db.set_timers [] s)) as (Hv & Hs & Hf).
  unfold state_of, trace_of in *.
  destruct (Db.saveDatabase (exports id) (Db.set_timers [] s)) as [[r s2] l2]; simpl in *.
  exists s2, l2. auto.
Qed.

Lemma advance_inv eager exports now t s l :
  now <= t →
  Db.debounce_inv eager now (Db.debounce_view s) (Db.schedules l) (Db.flushes l) →
  let acc := advance eager exports t (s, l) in
  Db.debounce_inv eager t (Db.debounce_view (fst acc)) (Db.schedules (snd acc))
    (Db.flushes (snd acc)).
Proof.
  intros Hle [(Harmed & HF & Hdue)|(id & t0 & Harmed & Hhandle & Hlast & HF & Hle0 & Hdue)];
    simpl in *; unfold Db.advance; simpl; rewrite Harmed.
  - rewrite filter_nil. simpl. left. split; [exact Harmed|].
    split; [assumption|]. intros t1 Ht1. eapply is_due_later; eauto.
  - destruct (Db.is_due eager t (id, t0 + Db.save_delay)) eqn:Hnow.
    + rewrite filter_cons_True by assumption. rewrite filter_nil. simpl.
      destruct (fire_armed exports s l id _ Harmed) as (s2 & la & -> & Hv & Hs & Hf).
      simpl. left. rewrite Hv, schedules_app, flushes_app. simpl.
      rewrite schedules_stamp, flushes_stamp, Hs, Hf. simpl. rewrite app_nil_r.
      split; [reflexivity|]. split.
      * unfold Db.trailing_edge. rewrite Hlast, HF. reflexivity.
      * intros t1 Ht1. rewrite Hlast in Ht1. inversion Ht1; subst. exact Hnow.
    + rewrite filter_cons_False by (rewrite Hnow; discriminate). rewrite filter_nil. simpl.
      right. exists id, t0. repeat (split; [assumption || reflexivity|]).
      split; [lia|exact Hnow].
Qed.

Lemma play_one_inv eager exports now te s l :
  now <= fst te →
  Db.undisturbed (snd te) = true →
  Db.debounce_inv eager now (Db.debounce_view s) (Db.schedules l) (Db.flushes l) →
  let acc := play_one eager exports (s, l) te in
  Db.debounce_inv eager (fst te) (Db.debounce_view (fst acc)) (Db.schedules (snd acc))
    (Db.flushes (snd acc)).
Proof.
  intros Hle He H. pose proof (advance_inv eager exports now (fst te) s l Hle H) as H1.
  simpl in H1. unfold Db.play_one.
  destruct (advance eager exports (fst te) (s, l)) as [s1 l1]. simpl in *.
  pose proof (turn_inv eager (fst te) (snd te) s1 l1 He H1) as H2.
  unfold state_of, trace_of in H2.
  destruct (turn (fst te) (snd te) s1) as [[r s2] l2]. exact H2.
Qed.

Lemma fold_inv eager exports timeline now acc :
  Db.chronological now timeline = true →
  forallb (λ te, Db.undisturbed (snd te)) timeline = true →
  Db.debounce_inv eager now (Db.debounce_view (fst acc)) (Db.schedules (snd acc))
    (Db.flushes (snd acc)) →
  ∃ now', (∀ bound, now <= bound → forallb (λ te, fst te <=? bound) timeline = true →
                    now' <= bound)
    ∧ let acc' := foldl (play_one eager exports) acc timeline in
      Db.debounce_inv eager now' (Db.debounce_view (fst acc')) (Db.schedules (snd acc'))
        (Db.flushes (snd acc')).
Proof.
  revert now acc. induction timeline as [|te rest IH]; intros now acc Hchron Hund Hinv.
  - exists now. split; [auto|exact Hinv].
  - simpl in *. apply andb_prop in Hchron as [Hle Hchron]. apply andb_prop in Hund as [He Hund].
    destruct acc as [s l].
    pose proof (play_one_inv eager exports now te s l ltac:(lia) He Hinv) as H1.
    destruct (IH (fst te) _ Hchron Hund H1) as (now' & Hbound & H2).
    exists now'. split; [|exact H2].
    intros bound Hb Hall. apply andb_prop in Hall as [Hte Hall]. apply Hbound; [lia|exact Hall].
Qed.

(** The timer callbacks run at the deadlines that trailing-edge debounce
    assigns to the calls of [scheduleSave]. *)
Lemma play_trailing_edge eager exports timeline start horizon s :
  Db.timers s = [] →
  Db.chronological start timeline = true →
  forallb (λ te, Db.undisturbed (snd te)) timeline = true →
  forallb (λ te, fst te <=? horizon - Db.save_delay) timeline = true →
  let log := snd (play eager exports timeline horizon s) in
  Db.flushes log = Db.trailing_edge eager (Db.schedules log).
Proof.
  intros Htimers Hchron Hund Hhor log. subst log. unfold Db.play.
  assert (Hstart : Db.debounce_inv eager (Z.min start (horizon - Db.save_delay))
            (Db.debounce_view s) (Db.schedules []) (Db.flushes [])).
  { left. simpl. rewrite Htimers. split; [reflexivity|]. split; [reflexivity|]. discriminate. }
  assert (Hchron' : Db.chronological (Z.min start (horizon - Db.save_delay)) timeline = true).
  { destruct timeline as [|te rest]; [reflexivity|]. simpl in *.
    apply andb_prop in Hchron as [H1 H2]. rewrite H2, andb_true_r. lia. }
  destruct (fold_inv eager exports timeline _ (s, []) Hchron' Hund Hstart)
    as (now' & Hbound & Hinv).
  specialize (Hbound (horizon - Db.save_delay) ltac:(lia) Hhor). simpl in Hinv.
  destruct (foldl (play_one eager exports) (s, []) timeline) as [s1 l1]. simpl in Hinv.
  destruct Hinv as [(Harmed & HF & Hdue)|(id & t0 & Harmed & Hhandle & Hlast & HF & Hle0 & Hdue)];
    simpl in *; unfold Db.advance; simpl; rewrite Harmed.
  - rewrite filter_nil. simpl. exact HF.
  - rewrite filter_cons_True by (unfold Db.is_due; simpl; lia). rewrite filter_nil. simpl.
    destruct (fire_armed exports s1 l1 id _ Harmed) as (s2 & la & -> & Hv & Hs & Hf).
    simpl. rewrite schedules_app, flushes_app. simpl.
    rewrite schedules_stamp, flushes_stamp, Hs, Hf. simpl. rewrite app_nil_r.
    unfold Db.trailing_edge. rewrite Hlast, HF. reflexivity.
Qed.

Lemma committed_burst eager ts : Db.burst ts = true → Db.committed eager ts = [].
Proof.
  induction ts as [|a ts IH]; [reflexivity|]. destruct ts as [|b ts]; [reflexivity|].
  intros H. change (Db.burst (a :: b :: ts))
    with ((b - a <? Db.save_delay) && Db.burst (b :: ts)) in H.
  apply andb_prop in H as [Hab Hrest].
  change (Db.committed eager (a :: b :: ts))
    with ((if Db.is_due eager b (O, a + Db.save_delay) then [a + Db.save_delay] else [])
          ++ Db.committed eager (b :: ts)).
  rewrite (IH Hrest), app_nil_r.
  replace (Db.is_due eager b (O, a + Db.save_delay)) with false; [reflexivity|].
  unfold Db.is_due. destruct eager; simpl; lia.
Qed.

Lemma trailing_edge_spaced eager ts :
  Db.spaced ts = true → Db.trailing_edge eager ts = (λ t, t + Db.save_delay) <$> ts.
Proof.
  unfold Db.trailing_edge.
  induction ts as [|a ts IH]; [reflexivity|]. destruct ts as [|b ts]; [reflexivity|].
  intros H. change (Db.spaced (a :: b :: ts))
    with ((Db.save_delay <? b - a) && Db.spaced (b :: ts)) in H.
  apply andb_prop in H as [Hab Hrest].
  change (Db.committed eager (a :: b :: ts))
    with ((if Db.is_due eager b (O, a + Db.save_delay) then [a + Db.save_delay] else [])
          ++ Db.committed eager (b :: ts)).
  rewrite last_cons_cons, <- app_assoc, (IH Hrest).
  replace (Db.is_due eager b (O, a + Db.save_delay)) with true; [reflexivity|].
  unfold Db.is_due. destruct eager; simpl; lia.
Qed.


End DebounceFacts.

(** ** The hub *)

Section HubFacts.

Implicit Types (s : Hub.state) (cs : list nat) (ch : Hub.channel).

Ltac unfold_m :=
  unfold state_of, value_of, trace_of, try_catch,
    mbind, mret, M_bind, M_ret, bind, ret, get_state, modify, tell, throw in *.

(** One guarded write, as in the loops of [broadcast] and
    [sendHeartbeatToAll]. *)
Lemma guarded_write c text s :
  try_catch (Hub.write c text;; mret []) (mret [c]) s
  = (Ok (if Hub.can_write s c then [] else [c]),
     Hub.set_channels (Hub.deliver text [c] (Hub.channels s)) s,
     [AWrite c text (Hub.can_write s c)]).
Proof.
  unfold Hub.write, Hub.can_write, Hub.deliver. unfold_m. simpl.
  destruct s as [cl mx hb heap]. simpl.
  destruct (heap !! c) as [ch|]; simpl; [|reflexivity].
  destruct (Hub.writable ch); reflexivity.
Qed.

Lemma can_write_deliver text cs s c :
  Hub.can_write (Hub.set_channels (Hub.deliver text cs (Hub.channels s)) s) c
  = Hub.can_write s c.
Proof.
  unfold Hub.can_write. simpl. generalize (Hub.channels s) as heap.
  induction cs as [|c0 cs IH]; intros heap; [reflexivity|]. simpl. rewrite IH.
  destruct (heap !! c0) as [ch0|] eqn:H0; [|reflexivity].
  destruct (Hub.writable ch0) eqn:Hw; [|reflexivity].
  destruct (decide (c0 = c)) as [->|Hne].
  - rewrite lookup_insert_eq, H0. simpl. congruence.
  - rewrite lookup_insert_ne by assumption. reflexivity.
Qed.

(** The write loop attempts every client in order and returns those whose
    write threw; the set of clients is not touched. *)
Lemma write_each_spec cs text s :
  Hub.write_each cs text s
  = (Ok (filter (λ c, Hub.can_write s c = false) cs),
     Hub.set_channels (Hub.deliver text cs (Hub.channels s)) s,
     (λ c, AWrite c text (Hub.can_write s c)) <$> cs).
Proof.
  revert s. induction cs as [|c cs IH]; intros s.
  - destruct s; reflexivity.
  - change (Hub.write_each (c :: cs) text)
      with (failed ← try_catch (Hub.write c text;; mret []) (mret [c]);
            more ← Hub.write_each cs text;
            mret (failed ++ more)).
    unfold mbind at 1. unfold M_bind, bind. rewrite guarded_write.
    set (s1 := Hub.set_channels (Hub.deliver text [c] (Hub.channels s)) s).
    unfold mbind at 1. unfold M_bind, bind. rewrite IH.
    assert (Hsame : ∀ c0, Hub.can_write s1 c0 = Hub.can_write s c0)
      by (intros c0; apply can_write_deliver).
    unfold mret, M_ret, ret. rewrite !app_nil_r.
    apply (f_equal2 pair); [apply (f_equal2 pair)|].
    + f_equal. rewrite (list_filter_iff _ (λ c0, Hub.can_write s c0 = false))
        by (intros c0; rewrite Hsame; reflexivity).
      destruct (Hub.can_write s c) eqn:Hc.
      * rewrite filter_cons_False by congruence. reflexivity.
      * rewrite filter_cons_True by assumption. reflexivity.
    + subst s1. unfold Hub.deliver. destruct s; reflexivity.
    + rewrite fmap_cons. simpl. f_equal. apply list_fmap_ext. intros _ c0 _.
      rewrite Hsame. reflexivity.
Qed.

Lemma filter_ext_in {A} (P1 P2 : A → Prop)
    `{!∀ x, Decision (P1 x), !∀ x, Decision (P2 x)} (l : list A) :
  (∀ x, x ∈ l → (P1 x ↔ P2 x)) → filter P1 l = filter P2 l.
Proof.
  induction l as [|a l IH]; intros Hiff; [reflexivity|].
  assert (Ha : P1 a ↔ P2 a) by (apply Hiff; left).
  assert (Hl : filter P1 l = filter P2 l)
    by (apply IH; intros x Hx; apply Hiff; right; exact Hx).
  destruct (decide (P1 a)).
  - rewrite !filter_cons_True by tauto. rewrite Hl. reflexivity.
  - rewrite !filter_cons_False by tauto. exact Hl.
Qed.

Lemma filter_all {A} (P : A → Prop) `{!∀ x, Decision (P x)} (l : list A) :
  (∀ x, x ∈ l → P x) → filter P l = l.
Proof.
  induction l as [|a l IH]; intros Hall; [reflexivity|].
  rewrite filter_cons_True by (apply Hall; left). rewrite IH; [reflexivity|].
  intros x Hx. apply Hall. right. exact Hx.
Qed.

Lemma length_filter_bool {A} (f : A → bool) (l : list A) :
  (length (filter (λ x, f x = true) l) + length (filter (λ x, f x = false) l))%nat
  = length l.
Proof.
  induction l as [|a l IH]; [reflexivity|]. destruct (f a) eqn:Ha.
  - rewrite filter_cons_True, filter_cons_False by congruence. simpl. lia.
  - rewrite filter_cons_False, filter_cons_True by congruence. simpl. lia.
Qed.

Lemma delete_each_spec failed s :
  Hub.delete_each failed s
  = (Ok tt, Hub.set_clients (filter (λ c, c ∉ failed) (Hub.clients s)) s, []).
Proof.
  revert s. induction failed as [|c failed IH]; intros s.
  - unfold Hub.delete_each. simpl. unfold_m.
    rewrite filter_all by (intros c _; apply not_elem_of_nil). destruct s; reflexivity.
  - unfold Hub.delete_each in *. simpl. unfold mbind at 1. unfold M_bind, bind.
    unfold mbind at 1. unfold M_bind, bind, get_state, modify. simpl.
    rewrite IH. simpl. apply (f_equal2 pair); [apply (f_equal2 pair)|]; try reflexivity.
    unfold Hub.set_clients, Hub.set_delete. simpl. f_equal.
    rewrite list_filter_filter. apply list_filter_iff. intros c0.
    rewrite not_elem_of_cons. tauto.
Qed.

Lemma deliver_lookup text cs (heap : gmap nat Hub.channel) c :
  NoDup cs →
  Hub.deliver text cs heap !! c
  = match heap !! c with
    | Some ch => Some (if Hub.writable ch && bool_decide (c ∈ cs)
                       then Hub.push text ch else ch)
    | None => None
    end.
Proof.
  revert heap. induction cs as [|c0 cs IH]; intros heap Hnd.
  - simpl. destruct (heap !! c) as [ch|]; [|reflexivity].
    rewrite andb_false_r. reflexivity.
  - apply NoDup_cons in Hnd as [Hnotin Hnd]. simpl. rewrite IH by assumption.
    destruct (decide (c0 = c)) as [->|Hne].
    + rewrite (bool_decide_eq_true_2 (c ∈ c :: cs)) by (left).
      rewrite (bool_decide_eq_false_2 (c ∈ cs)) by assumption.
      destruct (heap !! c) as [ch|] eqn:Hc; [|rewrite Hc; reflexivity].
      destruct (Hub.writable ch) eqn:Hw.
      * rewrite lookup_insert_eq. simpl. rewrite Hw. reflexivity.
      * rewrite Hc, Hw. reflexivity.
    + assert (Hlook : match heap !! c0 with
                      | Some ch => if Hub.writable ch
                                   then <[c0:=Hub.push text ch]> heap else heap
                      | None => heap
                      end !! c = heap !! c).
      { destruct (heap !! c0) as [ch0|]; [|reflexivity].
        destruct (Hub.writable ch0); [|reflexivity].
        apply lookup_insert_ne. assumption. }
      rewrite Hlook. destruct (heap !! c) as [ch|]; [|reflexivity].
      replace (bool_decide (c ∈ c0 :: cs)) with (bool_decide (c ∈ cs)); [reflexivity|].
      apply bool_decide_ext. rewrite elem_of_cons.
      split; [auto|]. intros [Heq|Hin]; [congruence|exact Hin].
Qed.

Lemma broadcast_run s event data :
  Hub.broadcast event data s
  = (Ok tt,
     Hub.set_clients
       (filter (λ c, c ∉ filter (λ c, Hub.can_write s c = false) (Hub.clients s))
               (Hub.clients s))
       (Hub.set_channels
          (Hub.deliver (Hub.frame event data) (Hub.clients s) (Hub.channels s)) s),
     ABroadcast event data
     :: ((λ c, AWrite c (Hub.frame event data) (Hub.can_write s c)) <$> Hub.clients s)).
Proof.
  unfold Hub.broadcast. unfold mbind at 1. unfold M_bind, bind, tell.
  unfold mbind at 1. unfold M_bind, bind, get_state.
  unfold mbind at 1. unfold M_bind, bind. rewrite write_each_spec, delete_each_spec.
  simpl. rewrite app_nil_r. reflexivity.
Qed.

(** C1.  [broadcast(event, data)] on a set of [N] clients of which [M]
    have a failing write: no exception escapes; the write of the frame is
    attempted on every client, in iteration order, whether or not earlier
    writes failed; afterwards the live set holds exactly the clients whose
    write succeeded, [N - M] of them; and each of these has the frame for
    [(event, data)] as its last chunk written. *)
Theorem broadcast_spec s event data :
  NoDup (Hub.clients s) →
  let out := Hub.broadcast event data s in
  let ok := λ c, Hub.can_write s c = true in
  let failing := filter (λ c, Hub.can_write s c = false) (Hub.clients s) in
  value_of out = Ok tt
  ∧ trace_of out
    = ABroadcast event data
      :: ((λ c, AWrite c (Hub.frame event data) (Hub.can_write s c)) <$> Hub.clients s)
  ∧ Hub.clients (state_of out) = filter ok (Hub.clients s)
  ∧ length (Hub.clients (state_of out))
    = (length (Hub.clients s) - length failing)%nat
  ∧ ∀ c, c ∈ Hub.clients (state_of out) →
      ∃ ch, Hub.channels s !! c = Some ch
            ∧ Hub.channels (state_of out) !! c
              = Some (Hub.push (Hub.frame event data) ch).
Proof.
  intros Hnd out ok failing. subst out. rewrite broadcast_run.
  unfold value_of, trace_of, state_of. simpl. fold failing.
  assert (Hclients : filter (λ c, c ∉ failing) (Hub.clients s) = filter ok (Hub.clients s)).
  { apply filter_ext_in. intros c Hc. subst failing ok. simpl.
    rewrite list_elem_of_filter. destruct (Hub.can_write s c); split; intros H.
    - reflexivity.
    - intros [? _]. discriminate.
    - exfalso. apply H. auto.
    - discriminate. }
  split; [reflexivity|]. split; [reflexivity|]. split; [exact Hclients|]. split.
  - rewrite Hclients. subst failing ok.
    pose proof (length_filter_bool (Hub.can_write s) (Hub.clients s)) as Hlen. lia.
  - intros c Hc. rewrite Hclients in Hc. subst ok.
    apply list_elem_of_filter in Hc as [Hok Hin]. unfold Hub.can_write in Hok.
    destruct (Hub.channels s !! c) as [ch|] eqn:Hch; [|discriminate].
    exists ch. split; [reflexivity|]. rewrite deliver_lookup by assumption.
    rewrite Hch, Hok, (bool_decide_eq_true_2 _ Hin). reflexivity.
Qed.

(** *** Admission *)

Lemma addClient_full s res :
  (Hub.maxConnections s <= length (Hub.clients s))%nat →
  Hub.addClient res s = (Ok false, s, []).
Proof.
  intros Hfull. unfold Hub.addClient. unfold_m.
  rewrite (proj2 (Nat.leb_le _ _) Hfull). reflexivity.
Qed.

Lemma addClient_admits s res ch :
  (length (Hub.clients s) < Hub.maxConnections s)%nat →
  Hub.channels s !! res = Some ch →
  Hub.writable ch = true →
  Hub.addClient res s
  = (Ok true,
     Hub.State (Hub.set_add res (Hub.clients s)) (Hub.maxConnections s)
       (Hub.heartbeatInterval s) (<[res := Hub.admitted res ch]> (Hub.channels s)),
     [AWrite res Hub.heartbeat_frame true]).
Proof.
  intros Hroom Hch Hw. unfold Hub.addClient, Hub.writeHead, Hub.write, Hub.on. unfold_m.
  rewrite (proj2 (Nat.leb_gt _ _) Hroom). simpl. rewrite Hch, Hw. simpl.
  rewrite lookup_insert_eq. simpl.
  rewrite lookup_insert_eq. simpl. rewrite lookup_insert_eq. simpl.
  rewrite !insert_insert_eq. unfold Hub.admitted, Hub.push. simpl.
  rewrite <- app_assoc, Hw. reflexivity.
Qed.

Lemma listeners_only_remove (ls : list (string * Hub.listener)) s c :
  c ∈ Hub.clients (state_of (for_each ls (λ nl, Hub.call_listener (snd nl)) s)) →
  c ∈ Hub.clients s.
Proof.
  revert s. induction ls as [|[name [r]] ls IH]; intros s; [auto|].
  simpl. unfold mbind, M_bind, bind, get_state, modify, state_of in *. simpl.
  specialize (IH (Hub.set_clients (Hub.set_delete r (Hub.clients s)) s)).
  destruct (for_each ls _ _) as [[res s2] l2]. simpl in *.
  intros Hc. apply IH in Hc. simpl in Hc. unfold Hub.set_delete in Hc.
  apply list_elem_of_filter in Hc. tauto.
Qed.

Lemma listeners_remove (ls : list (string * Hub.listener)) s res :
  Hub.RemoveClient res ∈ snd <$> ls →
  res ∉ Hub.clients (state_of (for_each ls (λ nl, Hub.call_listener (snd nl)) s)).
Proof.
  revert s. induction ls as [|[name [r]] ls IH]; intros s Hin.
  - simpl in Hin. apply elem_of_nil in Hin. contradiction.
  - pose proof (listeners_only_remove ls
      (Hub.set_clients (Hub.set_delete r (Hub.clients s)) s) res) as Honly.
    specialize (IH (Hub.set_clients (Hub.set_delete r (Hub.clients s)) s)).
    simpl. unfold mbind, M_bind, bind, get_state, modify, state_of in *. simpl.
    destruct (for_each ls _ _) as [[res' s2] l2]. simpl in *.
    rewrite ?fmap_cons in Hin. apply elem_of_cons in Hin as [Heq|Hin]; [|auto].
    inversion Heq; subst r. intros Hc. apply Honly in Hc. unfold Hub.set_delete in Hc.
    apply list_elem_of_filter in Hc. tauto.
Qed.

Lemma emit_removes s res ch name :
  Hub.channels s !! res = Some ch →
  (name, Hub.RemoveClient res) ∈ Hub.listeners ch →
  res ∉ Hub.clients (state_of (Hub.emit res name s)).
Proof.
  intros Hch Hin.
  pose proof (listeners_remove (filter (λ nl, fst nl = name) (Hub.listeners ch)) s res) as H.
  unfold Hub.emit. unfold mbind at 1. unfold M_bind, bind, get_state. rewrite Hch.
  unfold state_of in *. destruct (for_each _ _ s) as [[r s2] l2]. simpl in *.
  apply H. apply list_elem_of_fmap. exists (name, Hub.RemoveClient res).
  split; [reflexivity|]. apply list_elem_of_filter. auto.
Qed.

Lemma set_add_elem x l : x ∈ Hub.set_add x l.
Proof.
  unfold Hub.set_add. destruct (decide (x ∈ l)); [assumption|].
  apply elem_of_app. right. left.
Qed.

(** A run of admissions of distinct, writable responses that fits under
    the ceiling is accepted throughout. *)
Lemma admit_all_room rs s :
  NoDup rs →
  (∀ r, r ∈ rs → (r ∉ Hub.clients s) ∧ Hub.can_write s r = true) →
  (length (Hub.clients s) + length rs <= Hub.maxConnections s)%nat →
  fst (Hub.admit_all rs s) = replicate (length rs) true
  ∧ Hub.clients (snd (Hub.admit_all rs s)) = Hub.clients s ++ rs
  ∧ Hub.maxConnections (snd (Hub.admit_all rs s)) = Hub.maxConnections s.
Proof.
  revert s. induction rs as [|r rs IH]; intros s Hnd Hrs Hroom.
  - simpl. rewrite app_nil_r. auto.
  - apply NoDup_cons in Hnd as [Hnotin Hnd].
    destruct (Hrs r (list_elem_of_here _ _)) as [Hnew Hcw]. unfold Hub.can_write in Hcw.
    destruct (Hub.channels s !! r) as [ch|] eqn:Hch; [|discriminate].
    simpl in Hroom. simpl.
    assert (Hlt : (length (Hub.clients s) < Hub.maxConnections s)%nat) by lia.
    rewrite (addClient_admits s r ch Hlt Hch Hcw).
    set (s1 := Hub.State _ _ _ _).
    destruct (IH s1 Hnd) as (Hans & Hcl & Hmax).
    + intros r' Hr'. subst s1. simpl. unfold Hub.set_add.
      rewrite decide_False by assumption. split.
      * rewrite elem_of_app, list_elem_of_singleton.
        intros [Hold| ->]; [|contradiction]. apply (Hrs r' (list_elem_of_further _ _ _ Hr')). exact Hold.
      * unfold Hub.can_write. simpl.
        assert (Hne : r ≠ r') by (intros ->; contradiction).
        rewrite lookup_insert_ne by assumption.
        apply (Hrs r' (list_elem_of_further _ _ _ Hr')).
    + subst s1. simpl. unfold Hub.set_add. rewrite decide_False by assumption.
      rewrite length_app. simpl. lia.
    + destruct (Hub.admit_all rs s1) as [answers s2]. simpl in *.
      rewrite Hans, Hcl, Hmax. subst s1. simpl. unfold Hub.set_add.
      rewrite decide_False by assumption. rewrite <- app_assoc. auto.
Qed.

(** C4.  [addClient] at or above the ceiling returns [false], writes
    nothing and leaves the hub as it was.  Below the ceiling, on a
    response that accepts writes, it writes the stream headers and the
    heartbeat frame, puts the response in the live set, registers a
    'close' and an 'error' listener, either of which removes it, and
    returns [true].  The ceiling of a new manager is 2000.  Once as many
    distinct responses as the ceiling have been Hub.admitted, all accepted,
    one more attempt is rejected and the count stays at the ceiling. *)
Theorem addClient_spec s res :
  ((Hub.maxConnections s <= length (Hub.clients s))%nat →
     Hub.addClient res s = (Ok false, s, []))
  ∧ ((length (Hub.clients s) < Hub.maxConnections s)%nat →
     ∀ ch, Hub.channels s !! res = Some ch → Hub.writable ch = true →
       let out := Hub.addClient res s in
       value_of out = Ok true
       ∧ trace_of out = [AWrite res Hub.heartbeat_frame true]
       ∧ Hub.channels (state_of out) !! res = Some (Hub.admitted res ch)
       ∧ Hub.clients (state_of out) = Hub.set_add res (Hub.clients s)
       ∧ res ∈ Hub.clients (state_of out)
       ∧ (res ∉ Hub.clients (state_of (Hub.emit res "close" (state_of out))))
       ∧ (res ∉ Hub.clients (state_of (Hub.emit res "error" (state_of out)))))
  ∧ (∀ timer heap, Hub.maxConnections (Hub.new timer heap) = 2000%nat)
  ∧ (∀ rs, NoDup rs → Hub.clients s = [] → length rs = Hub.maxConnections s →
       (∀ r, r ∈ rs → Hub.can_write s r = true) →
       let full := snd (Hub.admit_all rs s) in
       fst (Hub.admit_all rs s) = replicate (length rs) true
       ∧ Hub.getClientCount full = Hub.maxConnections s
       ∧ Hub.addClient res full = (Ok false, full, [])
       ∧ Hub.getClientCount (state_of (Hub.addClient res full)) = Hub.maxConnections s).
Proof.
  split; [apply addClient_full|]. split; [|split; [reflexivity|]].
  - intros Hroom ch Hch Hw out. subst out.
    rewrite (addClient_admits s res ch Hroom Hch Hw).
    unfold value_of, trace_of, state_of. simpl.
    split; [reflexivity|]. split; [reflexivity|].
    split; [apply lookup_insert_eq|]. split; [reflexivity|].
    split; [apply set_add_elem|].
    split; (eapply emit_removes; [simpl; apply lookup_insert_eq|]);
      unfold Hub.admitted; simpl; rewrite elem_of_app; right.
    + left.
    + right. left.
  - intros rs Hnd Hempty Hlen Hcw full. subst full.
    destruct (admit_all_room rs s Hnd) as (Hans & Hcl & Hmax).
    + intros r Hr. rewrite Hempty. split; [apply not_elem_of_nil|auto].
    + rewrite Hempty. simpl. lia.
    + assert (Hcount : Hub.getClientCount (snd (Hub.admit_all rs s)) = Hub.maxConnections s).
      { unfold Hub.getClientCount. rewrite Hcl, Hempty. simpl. exact Hlen. }
      assert (Hrej : Hub.addClient res (snd (Hub.admit_all rs s))
                     = (Ok false, snd (Hub.admit_all rs s), [])).
      { apply addClient_full. unfold Hub.getClientCount in Hcount. rewrite Hcount, Hmax. lia. }
      split; [exact Hans|]. split; [exact Hcount|]. split; [exact Hrej|].
      rewrite Hrej. exact Hcount.
Qed.

End HubFacts.

(** ** Version tokens *)

Section TokenFacts.

Example parseInt_samples :
  parseInt " 42abc" = Some 42 ∧ parseInt "0x1F" = Some 31 ∧ parseInt "abc" = None
  ∧ parseInt "-7" = Some (-7) ∧ parseInt EmptyString = None ∧ parseInt "12.5" = Some 12.
Proof. vm_compute. auto 10. Qed.

Lemma pretty_N_char_digit d :
  (d < 10)%N →
  digit_value 10 (pretty_N_char d) = Some (Z.of_N d)
  ∧ is_space (pretty_N_char d) = false
  ∧ Ascii.eqb (pretty_N_char d) "-" = false
  ∧ Ascii.eqb (pretty_N_char d) "+" = false
  ∧ Ascii.eqb (pretty_N_char d) "x" = false
  ∧ Ascii.eqb (pretty_N_char d) "X" = false.
Proof.
  intros Hd.
  assert (Hcases : (d = 0 ∨ d = 1 ∨ d = 2 ∨ d = 3 ∨ d = 4 ∨ d = 5 ∨ d = 6 ∨ d = 7
                    ∨ d = 8 ∨ d = 9)%N) by lia.
  repeat (destruct Hcases as [->|Hcases]); [..|subst d]; vm_compute; auto 10.
Qed.

Lemma pretty_N_go_digits x s : all_digits s → all_digits (pretty_N_go x s).
Proof.
  revert s. induction (N.lt_wf_0 x) as [x _ IH]; intros s Hs.
  destruct (N.eq_dec x 0%N) as [->|Hx]; [rewrite pretty_N_go_0; exact Hs|].
  rewrite pretty_N_go_step by lia. apply IH; [apply N.div_lt; lia|].
  split; [|exact Hs]. exists (x mod 10)%N. split; [apply N.mod_lt; lia|reflexivity].
Qed.

Lemma pretty_N_go_cons x c s : ∃ c' rest, pretty_N_go x (String c s) = String c' rest.
Proof.
  revert c s. induction (N.lt_wf_0 x) as [x _ IH]; intros c s.
  destruct (N.eq_dec x 0%N) as [->|Hx]; [rewrite pretty_N_go_0; eauto|].
  rewrite pretty_N_go_step by lia. apply IH. apply N.div_lt; lia.
Qed.

(** Reading back the digits that [pretty_N_go] writes. *)
Lemma read_digits_go x :
  (0 < x)%N →
  ∃ p, ∀ s acc,
    read_digits 10 acc (pretty_N_go x s)
    = read_digits 10 (Some (default 0 acc * p + Z.of_N x)) s.
Proof.
  induction (N.lt_wf_0 x) as [x _ IH]; intros Hx.
  destruct (pretty_N_char_digit (x mod 10)%N) as (Hval & _); [apply N.mod_lt; lia|].
  destruct (N.eq_dec (x / 10)%N 0%N) as [Hsmall|Hbig].
  - exists 10. intros s acc. rewrite pretty_N_go_step, Hsmall, pretty_N_go_0 by exact Hx.
    simpl. rewrite Hval. f_equal. f_equal.
    assert (Hdm : x = (10 * (x / 10) + x mod 10)%N) by (apply N.div_mod; lia).
    rewrite Hsmall, N.mul_0_r, N.add_0_l in Hdm. rewrite <- Hdm. reflexivity.
  - destruct (IH (x / 10)%N) as [p Hp];
      [apply N.div_lt; [exact Hx|reflexivity]|apply N.neq_0_lt_0; exact Hbig|].
    exists (p * 10). intros s acc. rewrite pretty_N_go_step, Hp by exact Hx.
    simpl. rewrite Hval. f_equal. f_equal. simpl.
    assert (Hdm : x = (10 * (x / 10) + x mod 10)%N) by (apply N.div_mod; lia).
    assert (Hz : Z.of_N x = 10 * Z.of_N (x / 10) + Z.of_N (x mod 10))
      by (rewrite Hdm at 1; rewrite N2Z.inj_add, N2Z.inj_mul; reflexivity).
    rewrite Hz. ring.
Qed.

Lemma parseInt_digits c rest :
  all_digits (String c rest) →
  parseInt (String c rest) = read_digits 10 None (String c rest).
Proof.
  intros [(d & Hd & ->) Hrest].
  destruct (pretty_N_char_digit d Hd) as (_ & Hsp & Hminus & Hplus & _).
  unfold parseInt. cbn [skip_spaces]. rewrite Hsp, Hminus, Hplus.
  assert (Hradix :
    match String (pretty_N_char d) rest with
    | String c (String x rest0) =>
        if Ascii.eqb c "0" && (Ascii.eqb x "x" || Ascii.eqb x "X")
        then (16, rest0) else (10, String (pretty_N_char d) rest)
    | _ => (10, String (pretty_N_char d) rest)
    end = (10, String (pretty_N_char d) rest)).
  { destruct rest as [|x rest0]; [reflexivity|].
    destruct Hrest as [(d' & Hd' & ->) _].
    destruct (pretty_N_char_digit d' Hd') as (_ & _ & _ & _ & Hx & HX).
    rewrite Hx, HX, andb_false_r. reflexivity. }
  rewrite Hradix. destruct (read_digits 10 None _) as [n|]; simpl; [|reflexivity].
  f_equal. destruct n; reflexivity.
Qed.

Lemma parseInt_pretty_pos p : parseInt (pretty_N_go (N.pos p) EmptyString) = Some (Z.pos p).
Proof.
  assert (Hpos : (0 < N.pos p)%N) by lia.
  assert (Hcons : ∃ c rest, pretty_N_go (N.pos p) EmptyString = String c rest).
  { rewrite pretty_N_go_step by exact Hpos. apply pretty_N_go_cons. }
  destruct Hcons as (c & rest & Heq).
  pose proof (pretty_N_go_digits (N.pos p) EmptyString I) as Hdig. rewrite Heq in Hdig.
  rewrite Heq, (parseInt_digits c rest Hdig), <- Heq.
  destruct (read_digits_go (N.pos p) Hpos) as [q Hq]. rewrite Hq. simpl. reflexivity.
Qed.

Lemma parseInt_minus_digits c rest :
  all_digits (String c rest) →
  parseInt (String "-" (String c rest))
  = (λ n, - n) <$> read_digits 10 None (String c rest).
Proof.
  intros Hdig. unfold parseInt. cbn [skip_spaces].
  replace (is_space "-") with false by reflexivity.
  rewrite (Ascii.eqb_refl "-"%char). cbv iota beta.
  destruct rest as [|x rest0].
  - destruct (read_digits 10 None _) as [n|]; simpl; [|reflexivity].
    destruct n; reflexivity.
  - destruct Hdig as [_ [(d' & Hd' & ->) _]].
    destruct (pretty_N_char_digit d' Hd') as (_ & _ & _ & _ & Hx & HX).
    rewrite Hx, HX, andb_false_r.
    destruct (read_digits 10 None _) as [n|]; simpl; [|reflexivity].
    destruct n; reflexivity.
Qed.

(** [parseInt(String(n)) === n] for every integer [n]. *)
Lemma parseInt_to_string n : parseInt (to_string n) = Some n.
Proof.
  destruct n as [|p|p]; [reflexivity| |].
  - apply parseInt_pretty_pos.
  - change (to_string (Z.neg p))
      with (String "-"%char (pretty_N_go (N.pos p) EmptyString)).
    pose proof (parseInt_pretty_pos p) as Hp.
    assert (Hpos : (0 < N.pos p)%N) by lia.
    assert (Hcons : ∃ c rest, pretty_N_go (N.pos p) EmptyString = String c rest).
    { rewrite pretty_N_go_step by exact Hpos. apply pretty_N_go_cons. }
    destruct Hcons as (c & rest & Heq).
    pose proof (pretty_N_go_digits (N.pos p) EmptyString I) as Hdig. rewrite Heq in *.
    rewrite (parseInt_digits c rest Hdig) in Hp.
    rewrite (parseInt_minus_digits c rest Hdig), Hp. reflexivity.
Qed.

Lemma to_string_nonempty n : String.eqb (to_string n) EmptyString = false.
Proof.
  destruct n as [|p|p]; [reflexivity| |reflexivity].
  assert (Hpos : (0 < N.pos p)%N) by lia.
  change (to_string (Z.pos p)) with (pretty_N_go (N.pos p) EmptyString).
  rewrite pretty_N_go_step by exact Hpos.
  destruct (pretty_N_go_cons (N.pos p `div` 10)%N (pretty_N_char (N.pos p `mod` 10)%N) EmptyString)
    as (c & rest & ->). reflexivity.
Qed.

End TokenFacts.

(** ** The handlers *)

Section ServerFacts.

Context {T : Type}.

Implicit Types (w : Server.world T) (s : Db.state T) (d : Db.database T).

Ltac unfold_m :=
  unfold state_of, value_of, trace_of, try_catch, zoom,
    mbind, mret, M_bind, M_ret, bind, ret, get_state, modify, tell, throw in *.

Lemma scheduleSave_run now s :
  Db.scheduleSave now s
  = (Ok tt, state_of (Db.scheduleSave now s),
     match Db.saveTimeout s with Some id => [AClearTimeout id] | None => [] end
     ++ [ASetTimeout (Db.next_timer s) (now + Db.save_delay)]).
Proof.
  unfold Db.scheduleSave, Db.clearTimeout, Db.setTimeout. unfold_m.
  destruct (Db.saveTimeout s); reflexivity.
Qed.

Lemma scheduleSave_steps now s :
  Server.steps (trace_of (Db.scheduleSave now s)) = [Server.Scheduled].
Proof.
  rewrite scheduleSave_run. unfold trace_of. simpl.
  destruct (Db.saveTimeout s); reflexivity.
Qed.

Lemma scheduleSave_stored now s key :
  Db.stored key (state_of (Db.scheduleSave now s)) = Db.stored key s.
Proof.
  unfold Db.scheduleSave, Db.clearTimeout, Db.setTimeout, Db.stored. unfold_m.
  destruct (Db.saveTimeout s); reflexivity.
Qed.

Lemma run_open st now s d d' :
  Db.db s = Some d → Db.db_run st d = Some d' →
  Db.run st now s
  = (Ok tt, state_of (Db.scheduleSave now (Db.set_db (Some d') s)),
     ARun (Db.label_of st) :: trace_of (Db.scheduleSave now (Db.set_db (Some d') s))).
Proof.
  intros Hd Hrun. unfold Db.run. unfold mbind at 1. unfold M_bind, bind, get_state.
  rewrite Hd, Hrun. unfold mbind at 1. unfold M_bind, bind, modify.
  unfold mbind at 1. unfold M_bind, bind, tell.
  rewrite scheduleSave_run. reflexivity.
Qed.

Lemma current_version_run key s d :
  Db.db s = Some d →
  Db.current_version key s
  = (Ok (or_default (Db.version <$> Db.data_versions d !! key) 0), s, []).
Proof.
  intros Hd. unfold Db.current_version, Db.getVersion. unfold_m. rewrite Hd. reflexivity.
Qed.

Lemma bumpVersion_run stamp key now s r :
  Db.stored key s = Some r →
  ∃ s', Db.bumpVersion stamp key now s
        = (Ok (Db.version r + 1), s',
           ARun (LIncrementVersion key)
           :: trace_of (Db.scheduleSave now
                (Db.set_db (Db.increment_version stamp key <$> Db.db s) s)))
        ∧ Db.stored key s' = Some (Db.Row (Db.version r + 1) stamp).
Proof.
  intros Hr. unfold Db.stored in Hr. destruct (Db.db s) as [d|] eqn:Hd; [|discriminate].
  eexists. unfold Db.bumpVersion. unfold mbind at 1. unfold M_bind, bind.
  rewrite (run_open (Db.IncrementVersion stamp key) now s d _ Hd eq_refl).
  set (s' := state_of _).
  assert (Hs' : Db.stored key s' = Some (Db.Row (Db.version r + 1) stamp)).
  { subst s'. rewrite scheduleSave_stored. unfold Db.stored, Db.increment_version. simpl.
    rewrite Hr, lookup_insert_eq. reflexivity. }
  unfold Db.stored in Hs'. destruct (Db.db s') as [d'|] eqn:Hd'; [|discriminate].
  rewrite (current_version_run key s' d' Hd'), Hs'. simpl.
  rewrite app_nil_r. split; [|unfold Db.stored; rewrite Hd'; exact Hs'].
  replace (if Db.version r + 1 =? 0 then 0 else Db.version r + 1) with (Db.version r + 1)
    by (destruct (Z.eqb_spec (Db.version r + 1) 0); lia).
  reflexivity.
Qed.

Lemma notifyClients_run type w r :
  Db.stored type (Server.db w) = Some r →
  Server.notifyClients type w
  = (Ok tt,
     Server.World (Server.db w) (Server.cache w)
       (state_of (Hub.broadcast "update" (Server.update_event type (or_default (Some (Db.version r)) 0))
                    (Server.sseManager w))),
     trace_of (Hub.broadcast "update" (Server.update_event type (or_default (Some (Db.version r)) 0))
                 (Server.sseManager w))).
Proof.
  intros Hr. unfold Db.stored in Hr.
  destruct (Db.db (Server.db w)) as [d|] eqn:Hd; [|discriminate].
  unfold Server.notifyClients, Server.in_db, Server.in_hub.
  unfold mbind at 1. unfold M_bind, bind, zoom.
  rewrite (current_version_run type (Server.db w) d Hd), Hr. simpl.
  rewrite broadcast_run. unfold state_of, trace_of. simpl. destruct w; reflexivity.
Qed.

Lemma invalidate_and_notify_run domain stamp now w r :
  Db.stored domain (Server.db w) = Some r →
  ∃ s',
    Server.invalidate_and_notify domain stamp now w
    = (Ok tt,
       Server.World s' (Cache.invalidate domain (Server.cache w))
         (state_of (Hub.broadcast "update" (Server.update_event domain (Db.version r + 1))
                      (Server.sseManager w))),
       ACacheInvalidate domain
       :: ARun (LIncrementVersion domain)
       :: trace_of (Db.scheduleSave now
            (Db.set_db (Db.increment_version stamp domain <$> Db.db (Server.db w))
               (Server.db w)))
       ++ trace_of (Hub.broadcast "update" (Server.update_event domain (Db.version r + 1))
                      (Server.sseManager w)))
    ∧ Db.stored domain s' = Some (Db.Row (Db.version r + 1) stamp).
Proof.
  intros Hr. destruct (bumpVersion_run stamp domain now (Server.db w) r Hr) as (s' & Hbump & Hs').
  exists s'. split; [|exact Hs'].
  unfold Server.invalidate_and_notify, Server.cache_invalidate, Server.in_db.
  unfold mbind at 1. unfold M_bind, bind.
  unfold mbind at 1. unfold M_bind, bind, modify, tell.
  unfold mbind at 1. unfold M_bind, bind, zoom. simpl. rewrite Hbump.
  rewrite (notifyClients_run domain _ (Db.Row (Db.version r + 1) stamp)) by exact Hs'.
  simpl.
  replace (if Db.version r + 1 =? 0 then 0 else Db.version r + 1) with (Db.version r + 1)
    by (destruct (Z.eqb_spec (Db.version r + 1) 0); lia).
  reflexivity.
Qed.

Lemma steps_app l1 l2 : Server.steps (l1 ++ l2) = Server.steps l1 ++ Server.steps l2.
Proof. apply omap_app. Qed.

Lemma steps_cons a l :
  Server.steps (a :: l)
  = match Server.step_of a with
    | Some x => x :: Server.steps l
    | None => Server.steps l
    end.
Proof. reflexivity. Qed.

Lemma broadcast_steps event data (h : Hub.state) :
  Server.steps (trace_of (Hub.broadcast event data h)) = [Server.Notified data].
Proof.
  rewrite broadcast_run. unfold trace_of. simpl. f_equal.
  induction (Hub.clients h) as [|c cs IH]; [reflexivity|exact IH].
Qed.

(** C7 as amended.  A mutation handler that is not refused, whose
    statements succeed and whose domain has a version row, answers 200
    after issuing, in this order: what its statements issue (for a single
    [statements.*.run], one scheduling of the durable write), then the
    cache invalidation for the domain, then the version increment, which
    schedules the durable write again, then the broadcast of the 'update'
    event carrying the new version. *)
Theorem mutation_order domain (writes : M (Db.state T) unit) stamp now w s1 issued r :
  writes (Server.db w) = (Ok tt, s1, issued) →
  Db.stored domain s1 = Some r →
  let out := Server.mutation domain None writes stamp now w in
  value_of out = Ok (Server.Response 200 [] (Some (JObj [("success"%string, JBool true)])))
  ∧ Server.steps (trace_of out)
    = Server.steps issued
      ++ [Server.Invalidated domain; Server.Incremented domain; Server.Scheduled;
          Server.Notified (Server.update_event domain (Db.version r + 1))]
  ∧ (∀ name effect d t,
       writes = Db.run (Db.Statement name effect) now →
       Db.db (Server.db w) = Some d → effect (Db.tables d) = Some t →
       Server.steps (trace_of out)
       = [Server.Scheduled; Server.Invalidated domain; Server.Incremented domain;
          Server.Scheduled;
          Server.Notified (Server.update_event domain (Db.version r + 1))]
       ∧ Server.in_order (Server.handler_order domain) (Server.steps (trace_of out)) = true
       ∧ Server.in_order (Server.documented_order domain) (Server.steps (trace_of out))
         = false).
Proof.
  intros Hwrites Hr out.
  destruct (invalidate_and_notify_run domain stamp now
              (Server.World s1 (Server.cache w) (Server.sseManager w)) r Hr)
    as (s' & Htail & Hs').
  assert (Hout : out
    = (Ok (Server.Response 200 [] (Some (JObj [("success"%string, JBool true)]))),
       Server.World s' (Cache.invalidate domain (Server.cache w))
         (state_of (Hub.broadcast "update" (Server.update_event domain (Db.version r + 1))
                      (Server.sseManager w))),
       issued
       ++ (ACacheInvalidate domain
           :: ARun (LIncrementVersion domain)
           :: trace_of (Db.scheduleSave now
                (Db.set_db (Db.increment_version stamp domain <$> Db.db s1) s1))
           ++ trace_of (Hub.broadcast "update"
                          (Server.update_event domain (Db.version r + 1))
                          (Server.sseManager w))))).
  { subst out. unfold Server.mutation, try_catch.
    unfold mbind at 1. unfold M_bind, bind. unfold Server.in_db at 1. unfold zoom.
    rewrite Hwrites. unfold mbind at 1. unfold M_bind, bind. rewrite Htail.
    unfold mret, M_ret, ret. simpl. rewrite app_nil_r. reflexivity. }
  assert (Hsteps : Server.steps (trace_of out)
    = Server.steps issued
      ++ [Server.Invalidated domain; Server.Incremented domain; Server.Scheduled;
          Server.Notified (Server.update_event domain (Db.version r + 1))]).
  { rewrite Hout. unfold trace_of at 1. cbn [snd]. rewrite steps_app. f_equal.
    rewrite !steps_cons. cbn [Server.step_of].
    rewrite steps_app, scheduleSave_steps, broadcast_steps. reflexivity. }
  split; [rewrite Hout; reflexivity|]. split; [exact Hsteps|].
  intros name effect d t -> Hd Heff.
  assert (Hissued : Server.steps issued = [Server.Scheduled]).
  { rewrite (run_open (Db.Statement name effect) now (Server.db w) d
               (Db.Database (Db.data_versions d) t) Hd) in Hwrites
      by (simpl; rewrite Heff; reflexivity).
    inversion Hwrites; subst. rewrite steps_cons. cbn [Server.step_of Db.label_of].
    apply scheduleSave_steps. }
  rewrite Hsteps, Hissued. split; [reflexivity|]. simpl.
  unfold Server.in_order. simpl. rewrite String.eqb_refl. split; reflexivity.
Qed.

Lemma not_modified_issued v currentVersion :
  Server.not_modified (Some (to_string v)) currentVersion = true ↔ v = currentVersion.
Proof.
  unfold Server.not_modified. rewrite to_string_nonempty, parseInt_to_string. simpl.
  rewrite bool_decide_eq_true. split; congruence.
Qed.


End ServerFacts.

(** ** The cache: versions, sweeping and statistics *)

Section CacheSweep.

Context {P : Type}.

Implicit Types (c : Cache.DataCache P) (x : Cache.call P) (k : string).

Lemma or_default_zero v : or_default (Some v) 0 = v.
Proof. unfold or_default. destruct (Z.eqb_spec v 0); congruence. Qed.

(** Only [set], [invalidate] and [invalidateAll] write to
    [this.versions]. *)
Lemma exec_versions x c k :
  Cache.leaves k x = true →
  Cache.versions (Cache.exec x c) !! k = Cache.versions c !! k.
Proof.
  intros Hx. destruct x as [now key|now key|now now' key d v|key|key| |now|now];
    simpl in *; try reflexivity; try discriminate.
  - unfold Cache.get. destruct (Cache.cache c !! key) as [e|]; [|reflexivity].
    destruct (now >? Cache.expiresAt e); reflexivity.
  - unfold Cache.getWithVersion. destruct (Cache.cache c !! key) as [e|]; [|reflexivity].
    destruct (now >? Cache.expiresAt e); reflexivity.
  - apply eqb_false_ne in Hx. apply lookup_insert_ne. assumption.
  - apply eqb_false_ne in Hx. apply lookup_delete_ne. assumption.
Qed.

Lemma exec_all_versions xs c k :
  forallb (Cache.leaves k) xs = true →
  Cache.versions (Cache.exec_all xs c) !! k = Cache.versions c !! k.
Proof.
  revert c. induction xs as [|x xs IH]; intros c Hxs; simpl in *; [reflexivity|].
  apply andb_prop in Hxs as [Hx Hxs]. rewrite IH by assumption.
  apply exec_versions. assumption.
Qed.

Lemma exec_versions_absent x c k :
  Cache.no_set k x = true →
  Cache.versions c !! k = None →
  Cache.versions (Cache.exec x c) !! k = None.
Proof.
  intros Hx Hk. destruct x as [now key|now key|now now' key d v|key|key| |now|now];
    simpl in *; try assumption.
  - unfold Cache.get. destruct (Cache.cache c !! key) as [e|]; [|assumption].
    destruct (now >? Cache.expiresAt e); assumption.
  - unfold Cache.getWithVersion. destruct (Cache.cache c !! key) as [e|]; [|assumption].
    destruct (now >? Cache.expiresAt e); assumption.
  - apply eqb_false_ne in Hx. rewrite lookup_insert_ne by assumption. assumption.
  - apply lookup_delete_None. auto.
  - apply lookup_empty.
Qed.

Lemma exec_all_versions_absent xs c k :
  forallb (Cache.no_set k) xs = true →
  Cache.versions c !! k = None →
  Cache.versions (Cache.exec_all xs c) !! k = None.
Proof.
  revert c. induction xs as [|x xs IH]; intros c Hxs Hk; simpl in *; [assumption|].
  apply andb_prop in Hxs as [Hx Hxs].
  apply IH; [assumption|]. apply exec_versions_absent; assumption.
Qed.



(** X3.  [cleanup()] at clock reading [now] keeps exactly the entries with
    [now <= expiresAt], and no reader at that reading or later can tell
    whether it ran:  [get], [getWithVersion] and [getVersion] answer as they
    would have without it. *)
Theorem cleanup_unobservable c now t k :
  now <= t →
  (∀ e, Cache.cache (Cache.cleanup now c) !! k = Some e
        ↔ Cache.cache c !! k = Some e ∧ now <= Cache.expiresAt e)
  ∧ fst (Cache.get t k (Cache.cleanup now c)) = fst (Cache.get t k c)
  ∧ fst (Cache.getWithVersion t k (Cache.cleanup now c))
    = fst (Cache.getWithVersion t k c)
  ∧ Cache.getVersion k (Cache.cleanup now c) = Cache.getVersion k c.
Proof.
  intros Ht.
  assert (Hlook : ∀ e, Cache.cache (Cache.cleanup now c) !! k = Some e
                       ↔ Cache.cache c !! k = Some e ∧ now <= Cache.expiresAt e).
  { intros e. simpl. rewrite map_lookup_filter_Some. simpl. split.
    - intros [H1 H2]. split; [assumption|lia].
    - intros [H1 H2]. split; [assumption|lia]. }
  split; [exact Hlook|].
  assert (Hcases : (∃ e, Cache.cache c !! k = Some e ∧ now <= Cache.expiresAt e
                         ∧ Cache.cache (Cache.cleanup now c) !! k = Some e)
                   ∨ (Cache.cache (Cache.cleanup now c) !! k = None
                      ∧ ∀ e, Cache.cache c !! k = Some e → t > Cache.expiresAt e)).
  { destruct (Cache.cache c !! k) as [e|] eqn:Hk.
    - destruct (decide (now <= Cache.expiresAt e)) as [Hle|Hgt].
      + left. exists e. split; [reflexivity|]. split; [assumption|].
        apply Hlook. split; [reflexivity|assumption].
      + right. split.
        * apply eq_None_not_Some. intros [e' He'].
          apply Hlook in He' as [Heq Hle]. inversion Heq; subst. lia.
        * intros e' He'. inversion He'; subst. lia.
    - right. split; [|intros; discriminate].
      apply eq_None_not_Some. intros [e' He'].
      apply Hlook in He' as [Heq _]. discriminate. }
  split; [|split; [|reflexivity]].
  - unfold Cache.get. destruct Hcases as [(e & Hk & _ & Hk')|[Hk' Hold]].
    + rewrite Hk, Hk'. destruct (t >? Cache.expiresAt e); reflexivity.
    + rewrite Hk'. destruct (Cache.cache c !! k) as [e|]; [|reflexivity].
      specialize (Hold e eq_refl).
      replace (t >? Cache.expiresAt e) with true by lia. reflexivity.
  - unfold Cache.getWithVersion. destruct Hcases as [(e & Hk & _ & Hk')|[Hk' Hold]].
    + rewrite Hk, Hk'. destruct (t >? Cache.expiresAt e); reflexivity.
    + rewrite Hk'. destruct (Cache.cache c !! k) as [e|]; [|reflexivity].
      specialize (Hold e eq_refl).
      replace (t >? Cache.expiresAt e) with true by lia. reflexivity.
Qed.

(** X4.  [getStats()] sorts every entry into exactly one of its two counts,
    and lists exactly the keys that have an entry.  Right after [cleanup()]
    at the same clock reading nothing counts as expired and the valid
    entries are all that is left. *)
Theorem getStats_counts c now :
  let st := Cache.getStats now c in
  let st' := Cache.getStats now (Cache.cleanup now c) in
  (Cache.validEntries st + Cache.expiredEntries st = Cache.totalEntries st)%nat
  ∧ length (Cache.keys st) = Cache.totalEntries st
  ∧ (∀ k, k ∈ Cache.keys st ↔ is_Some (Cache.cache c !! k))
  ∧ Cache.expiredEntries st' = 0%nat
  ∧ Cache.validEntries st' = Cache.validEntries st
  ∧ Cache.totalEntries st' = Cache.validEntries st.
Proof.
  intros st st'. subst st st'. simpl.
  set (m := Cache.cache c).
  set (expired := λ kv : string * Cache.entry P, now > Cache.expiresAt (snd kv)).
  split; [|split; [|split; [|split; [|split]]]].
  - change (size (filter (λ v, ¬ expired v) m) + size (filter expired m) = size m)%nat.
    rewrite Nat.add_comm, <- map_size_disj_union
      by apply map_disjoint_filter_complement.
    rewrite map_filter_union_complement. reflexivity.
  - rewrite length_fmap. apply length_map_to_list.
  - intros k. rewrite list_elem_of_fmap. split.
    + intros [[k' e] [-> Hin]]. apply elem_of_map_to_list in Hin. simpl. eauto.
    + intros [e He]. exists (k, e). split; [reflexivity|].
      apply elem_of_map_to_list. exact He.
  - apply map_size_empty_iff, map_empty. intros k.
    apply map_lookup_filter_None. right. intros e He.
    apply map_lookup_filter_Some in He as [_ He]. exact He.
  - f_equal. apply map_filter_id. intros k e He.
    apply map_lookup_filter_Some in He as [_ He]. exact He.
  - reflexivity.
Qed.

(** X5.  After [invalidateAll()], and until the next [set(k, ...)], a key
    [k] has neither an entry nor a version: the reads answer [null] and
    leave the cache alone, and [getVersion(k)] is 0. *)
Theorem invalidateAll_clears c k (between : list (Cache.call P)) t :
  forallb (Cache.no_set k) between = true →
  let c1 := Cache.exec_all between (Cache.invalidateAll c) in
  Cache.get t k c1 = (None, c1)
  ∧ Cache.getWithVersion t k c1 = (None, c1)
  ∧ Cache.getVersion k c1 = 0.
Proof.
  intros Hxs c1.
  assert (Hk : Cache.cache c1 !! k = None).
  { apply exec_all_stays_absent; [assumption|]. simpl. apply lookup_empty. }
  assert (Hv : Cache.versions c1 !! k = None).
  { apply exec_all_versions_absent; [assumption|]. simpl. apply lookup_empty. }
  unfold Cache.get, Cache.getWithVersion, Cache.getVersion. rewrite Hk, Hv. auto.
Qed.

End CacheSweep.

(** ** The hub: heartbeats, single sends and shutdown *)

Section HubSweep.

Implicit Types (s : Hub.state) (cs : list nat) (ch : Hub.channel).

Ltac unfold_m :=
  unfold state_of, value_of, trace_of, try_catch,
    mbind, mret, M_bind, M_ret, bind, ret, get_state, modify, tell, throw in *.

(** The clients left after the failed ones are deleted are those whose
    write went through. *)
Lemma survivors s :
  filter (λ c, c ∉ filter (λ c, Hub.can_write s c = false) (Hub.clients s)) (Hub.clients s)
  = filter (λ c, Hub.can_write s c = true) (Hub.clients s).
Proof.
  apply filter_ext_in. intros c Hc. rewrite list_elem_of_filter.
  destruct (Hub.can_write s c); split; intros H.
  - reflexivity.
  - intros [? _]. discriminate.
  - exfalso. apply H. auto.
  - discriminate.
Qed.

Lemma sendHeartbeatToAll_run s :
  Hub.sendHeartbeatToAll s
  = (Ok tt,
     Hub.set_clients
       (filter (λ c, c ∉ filter (λ c, Hub.can_write s c = false) (Hub.clients s))
               (Hub.clients s))
       (Hub.set_channels
          (Hub.deliver Hub.heartbeat_frame (Hub.clients s) (Hub.channels s)) s),
     (λ c, AWrite c Hub.heartbeat_frame (Hub.can_write s c)) <$> Hub.clients s).
Proof.
  unfold Hub.sendHeartbeatToAll. unfold mbind at 1. unfold M_bind, bind, get_state.
  unfold mbind at 1. unfold M_bind, bind. rewrite write_each_spec, delete_each_spec.
  simpl. rewrite app_nil_r. reflexivity.
Qed.

(** X6.  [sendHeartbeatToAll()] never throws.  It attempts the frame [:\n\n]
    on every client in iteration order, whatever happened to the clients
    before it; the clients whose write threw are gone from the live set
    afterwards and the others remain, in their order, each with the
    heartbeat as the last chunk written to it. *)
Theorem sendHeartbeatToAll_spec s :
  NoDup (Hub.clients s) →
  let out := Hub.sendHeartbeatToAll s in
  value_of out = Ok tt
  ∧ trace_of out
    = ((λ c, AWrite c Hub.heartbeat_frame (Hub.can_write s c)) <$> Hub.clients s)
  ∧ Hub.clients (state_of out)
    = filter (λ c, Hub.can_write s c = true) (Hub.clients s)
  ∧ (∀ c ch, c ∈ Hub.clients (state_of out) → Hub.channels s !! c = Some ch →
       Hub.channels (state_of out) !! c = Some (Hub.push Hub.heartbeat_frame ch))
  ∧ (∀ c, c ∉ Hub.clients (state_of out) →
       Hub.channels (state_of out) !! c = Hub.channels s !! c).
Proof.
  intros Hnd out. subst out. rewrite sendHeartbeatToAll_run.
  unfold value_of, trace_of, state_of. simpl. rewrite survivors.
  split; [reflexivity|]. split; [reflexivity|]. split; [reflexivity|]. split.
  - intros c ch Hc Hch. apply list_elem_of_filter in Hc as [Hok Hin].
    unfold Hub.can_write in Hok. rewrite Hch in Hok.
    rewrite deliver_lookup by assumption.
    rewrite Hch, Hok, (bool_decide_eq_true_2 _ Hin). reflexivity.
  - intros c Hc. rewrite deliver_lookup by assumption.
    destruct (Hub.channels s !! c) as [ch|] eqn:Hch; [|reflexivity].
    destruct (Hub.writable ch) eqn:Hw; [|reflexivity].
    rewrite bool_decide_eq_false_2; [reflexivity|].
    intros Hin. apply Hc. apply list_elem_of_filter. split; [|exact Hin].
    unfold Hub.can_write. rewrite Hch. exact Hw.
Qed.

Lemma sendToClient_run s client event data :
  Hub.sendToClient client event data s
  = if Hub.set_has client (Hub.clients s)
    then (Ok tt,
          if Hub.can_write s client
          then Hub.set_channels
                 (Hub.deliver (Hub.frame event data) [client] (Hub.channels s)) s
          else Hub.set_clients (Hub.set_delete client (Hub.clients s)) s,
          [AWrite client (Hub.frame event data) (Hub.can_write s client)])
    else (Ok tt, s, []).
Proof.
  unfold Hub.sendToClient, Hub.write, Hub.can_write, Hub.deliver. unfold_m. simpl.
  destruct (Hub.set_has client (Hub.clients s)); [|reflexivity].
  destruct (Hub.channels s !! client) as [ch|]; simpl; [|reflexivity].
  destruct (Hub.writable ch); reflexivity.
Qed.

(** X7.  [sendToClient(client, event, data)] never throws.  A response that
    is not in the live set is not written to.  A live one gets the frame; if
    that write throws, the response is deleted from the live set and nothing
    else changes. *)
Theorem sendToClient_spec s client event data :
  let out := Hub.sendToClient client event data s in
  value_of out = Ok tt
  ∧ (client ∉ Hub.clients s → out = (Ok tt, s, []))
  ∧ (client ∈ Hub.clients s →
     trace_of out = [AWrite client (Hub.frame event data) (Hub.can_write s client)])
  ∧ (client ∈ Hub.clients s → ∀ ch,
     Hub.channels s !! client = Some ch → Hub.writable ch = true →
     Hub.clients (state_of out) = Hub.clients s
     ∧ Hub.channels (state_of out)
       = <[client := Hub.push (Hub.frame event data) ch]> (Hub.channels s))
  ∧ (client ∈ Hub.clients s → Hub.can_write s client = false →
     Hub.clients (state_of out) = filter (λ c, c ≠ client) (Hub.clients s)
     ∧ (client ∉ Hub.clients (state_of out))
     ∧ Hub.channels (state_of out) = Hub.channels s).
Proof.
  intros out. subst out. rewrite sendToClient_run. unfold Hub.set_has.
  destruct (decide (client ∈ Hub.clients s)) as [Hin|Hout].
  - rewrite bool_decide_eq_true_2 by assumption.
    unfold value_of, trace_of, state_of. simpl.
    split; [reflexivity|]. split; [intros; contradiction|]. split; [reflexivity|]. split.
    + intros _ ch Hch Hw. unfold Hub.can_write, Hub.deliver. rewrite Hch, Hw. simpl. auto.
    + intros _ Hcw. rewrite Hcw. simpl. split; [reflexivity|]. split; [|reflexivity].
      unfold Hub.set_delete. rewrite list_elem_of_filter. tauto.
  - rewrite bool_decide_eq_false_2 by assumption.
    split; [reflexivity|]. split; [reflexivity|].
    split; [intros; contradiction|]. split; intros; contradiction.
Qed.

(** *** Shutdown *)

Lemma hang_up_one c s :
  try_catch (Hub.end_ c) (mret tt) s
  = (Ok tt, Hub.set_channels (Hub.hang_up [c] (Hub.channels s)) s, []).
Proof.
  unfold Hub.end_, Hub.hang_up. unfold_m. simpl.
  destruct s as [cl mx hb heap]. simpl.
  destruct (heap !! c) as [ch|]; simpl; [|reflexivity].
  destruct (Hub.writable ch); reflexivity.
Qed.

Lemma hang_up_run cs s :
  for_each cs (λ client, try_catch (Hub.end_ client) (mret tt)) s
  = (Ok tt, Hub.set_channels (Hub.hang_up cs (Hub.channels s)) s, []).
Proof.
  revert s. induction cs as [|c cs IH]; intros s.
  - destruct s; reflexivity.
  - simpl. unfold mbind at 1. unfold M_bind, bind. rewrite hang_up_one, IH.
    destruct s; reflexivity.
Qed.

Lemma hang_up_lookup cs (heap : gmap nat Hub.channel) c :
  Hub.hang_up cs heap !! c
  = match heap !! c with
    | Some ch => Some (if Hub.writable ch && bool_decide (c ∈ cs)
                       then Hub.finished ch else ch)
    | None => None
    end.
Proof.
  revert heap. induction cs as [|c0 cs IH]; intros heap.
  - simpl. destruct (heap !! c) as [ch|]; [|reflexivity].
    rewrite andb_false_r. reflexivity.
  - simpl. rewrite IH. destruct (decide (c0 = c)) as [->|Hne].
    + rewrite (bool_decide_eq_true_2 (c ∈ c :: cs)) by (left).
      destruct (heap !! c) as [ch|] eqn:Hc; [|rewrite Hc; reflexivity].
      destruct (Hub.writable ch) eqn:Hw.
      * rewrite lookup_insert_eq. reflexivity.
      * rewrite Hc, Hw. reflexivity.
    + assert (Hlook : match heap !! c0 with
                      | Some ch => if Hub.writable ch
                                   then <[c0:=Hub.finished ch]> heap else heap
                      | None => heap
                      end !! c = heap !! c).
      { destruct (heap !! c0) as [ch0|]; [|reflexivity].
        destruct (Hub.writable ch0); [|reflexivity].
        apply lookup_insert_ne. assumption. }
      rewrite Hlook. destruct (heap !! c) as [ch|]; [|reflexivity].
      replace (bool_decide (c ∈ c0 :: cs)) with (bool_decide (c ∈ cs)); [reflexivity|].
      apply bool_decide_ext. rewrite elem_of_cons.
      split; [auto|]. intros [Heq|Hin]; [congruence|exact Hin].
Qed.

Lemma closeAll_run s :
  Hub.closeAll s
  = (Ok tt,
     Hub.State [] (Hub.maxConnections s) None (Hub.hang_up (Hub.clients s) (Hub.channels s)),
     []).
Proof.
  unfold Hub.closeAll, Hub.stopHeartbeat.
  unfold mbind at 1. unfold M_bind, bind, modify.
  unfold mbind at 1. unfold M_bind, bind, get_state.
  unfold mbind at 1. unfold M_bind, bind. rewrite hang_up_run. reflexivity.
Qed.

(** X8.  [closeAll()] never throws, whether or not an [end()] does.  It
    clears the heartbeat timer, ends every live response that can still be
    ended and empties the live set; responses outside the live set are not
    touched.  A broadcast made afterwards writes to nobody. *)
Theorem closeAll_spec s event data :
  let out := Hub.closeAll s in
  value_of out = Ok tt
  ∧ Hub.clients (state_of out) = []
  ∧ Hub.heartbeatInterval (state_of out) = None
  ∧ Hub.maxConnections (state_of out) = Hub.maxConnections s
  ∧ (∀ c ch, Hub.channels s !! c = Some ch →
       Hub.channels (state_of out) !! c
       = Some (if Hub.writable ch && bool_decide (c ∈ Hub.clients s)
               then Hub.finished ch else ch))
  ∧ Hub.broadcast event data (state_of out)
    = (Ok tt, state_of out, [ABroadcast event data]).
Proof.
  intros out. subst out. rewrite closeAll_run. unfold value_of, state_of. simpl.
  split; [reflexivity|]. split; [reflexivity|]. split; [reflexivity|].
  split; [reflexivity|]. split.
  - intros c ch Hch. rewrite hang_up_lookup, Hch. reflexivity.
  - rewrite broadcast_run. reflexivity.
Qed.

(** *** The size of the live set *)

Lemma addClient_broken s res :
  (length (Hub.clients s) < Hub.maxConnections s)%nat →
  Hub.can_write s res = false →
  Hub.addClient res s = (Throw, s, []).
Proof.
  intros Hroom Hcw. unfold Hub.addClient, Hub.writeHead, Hub.can_write in *. unfold_m.
  rewrite (proj2 (Nat.leb_gt _ _) Hroom). simpl.
  destruct (Hub.channels s !! res) as [ch|]; [|reflexivity].
  rewrite Hcw. reflexivity.
Qed.

Lemma bounded_delete s c :
  Hub.bounded s → Hub.bounded (Hub.set_clients (Hub.set_delete c (Hub.clients s)) s).
Proof.
  intros [Hnd Hlen]. split; simpl; unfold Hub.set_delete.
  - apply NoDup_filter. exact Hnd.
  - etransitivity; [apply length_filter|exact Hlen].
Qed.

Lemma bounded_filter (P : nat → Prop) `{!∀ c, Decision (P c)} s heap :
  Hub.bounded s →
  Hub.bounded (Hub.set_clients (filter P (Hub.clients s)) (Hub.set_channels heap s)).
Proof.
  intros [Hnd Hlen]. split; simpl.
  - apply NoDup_filter. exact Hnd.
  - etransitivity; [apply length_filter|exact Hlen].
Qed.

Lemma bounded_add s res heap :
  Hub.bounded s →
  (length (Hub.clients s) < Hub.maxConnections s)%nat →
  Hub.bounded (Hub.State (Hub.set_add res (Hub.clients s)) (Hub.maxConnections s)
                 (Hub.heartbeatInterval s) heap).
Proof.
  intros [Hnd Hlen] Hroom. unfold Hub.set_add. split; simpl.
  - destruct (decide (res ∈ Hub.clients s)); [exact Hnd|].
    apply NoDup_app. split; [exact Hnd|]. split; [|apply NoDup_singleton].
    intros x Hx Hx'. apply list_elem_of_singleton in Hx'. subst. contradiction.
  - destruct (decide (res ∈ Hub.clients s)); [exact Hlen|].
    rewrite length_app. simpl. lia.
Qed.

Lemma bounded_exec x : keeps Hub.bounded (Hub.exec x).
Proof.
  intros s Hs. destruct x as [res|event data|client event data| | | |res name]; simpl.
  - unfold mbind at 1. unfold M_bind, bind.
    destruct (Nat.le_gt_cases (Hub.maxConnections s) (length (Hub.clients s))) as [Hfull|Hroom].
    + rewrite addClient_full by assumption. exact Hs.
    + destruct (Hub.can_write s res) eqn:Hcw.
      * unfold Hub.can_write in Hcw.
        destruct (Hub.channels s !! res) as [ch|] eqn:Hch; [|discriminate].
        rewrite (addClient_admits s res ch Hroom Hch Hcw). unfold state_of. simpl.
        apply bounded_add; assumption.
      * rewrite addClient_broken by assumption. exact Hs.
  - rewrite broadcast_run. unfold state_of. simpl.
    apply (bounded_filter _ s). exact Hs.
  - rewrite sendToClient_run. destruct (Hub.set_has client (Hub.clients s)); [|exact Hs].
    unfold state_of. simpl. destruct (Hub.can_write s client).
    + destruct Hs as [Hnd Hlen]. split; assumption.
    + apply bounded_delete. exact Hs.
  - rewrite sendHeartbeatToAll_run. unfold state_of. simpl.
    apply (bounded_filter _ s). exact Hs.
  - destruct Hs as [Hnd Hlen]. split; assumption.
  - rewrite closeAll_run. unfold state_of. simpl. split; simpl; [apply NoDup_nil_2|lia].
  - unfold Hub.emit. apply keeps_get_bind; [|exact Hs]. intros s0 Hs0.
    destruct (Hub.channels s0 !! res) as [ch|]; [|exact Hs0].
    apply keeps_for_each; [|exact Hs0]. intros [name' [r]]. simpl.
    apply keeps_get_bind. intros s1 Hs1. apply bounded_delete. exact Hs1.
Qed.

Lemma ceiling_exec n x : keeps (λ s, Hub.maxConnections s = n) (Hub.exec x).
Proof.
  intros s Hs. destruct x as [res|event data|client event data| | | |res name]; simpl.
  - unfold mbind at 1. unfold M_bind, bind.
    destruct (Nat.le_gt_cases (Hub.maxConnections s) (length (Hub.clients s))) as [Hfull|Hroom].
    + rewrite addClient_full by assumption. exact Hs.
    + destruct (Hub.can_write s res) eqn:Hcw.
      * unfold Hub.can_write in Hcw.
        destruct (Hub.channels s !! res) as [ch|] eqn:Hch; [|discriminate].
        rewrite (addClient_admits s res ch Hroom Hch Hcw). exact Hs.
      * rewrite addClient_broken by assumption. exact Hs.
  - rewrite broadcast_run. exact Hs.
  - rewrite sendToClient_run. destruct (Hub.set_has client (Hub.clients s)); [|exact Hs].
    unfold state_of. simpl. destruct (Hub.can_write s client); exact Hs.
  - rewrite sendHeartbeatToAll_run. exact Hs.
  - exact Hs.
  - rewrite closeAll_run. exact Hs.
  - unfold Hub.emit. apply keeps_get_bind; [|exact Hs]. intros s0 Hs0.
    destruct (Hub.channels s0 !! res) as [ch|]; [|exact Hs0].
    apply keeps_for_each; [|exact Hs0]. intros [name' [r]]. simpl.
    apply keeps_get_bind. intros s1 Hs1. exact Hs1.
Qed.

Lemma keeps_exec_all (P : Hub.state → Prop) xs s :
  (∀ x, keeps P (Hub.exec x)) → P s → P (Hub.exec_all xs s).
Proof.
  intros Hx. revert s. induction xs as [|x xs IH]; intros s Hs; simpl; [exact Hs|].
  apply IH. apply Hx. exact Hs.
Qed.

(** X9.  From [new SSEManager()] on, whatever calls are made on the manager
    and whatever events its responses emit, in any order and whether or not
    they throw: the live set holds no response twice, the ceiling stays at
    2000 and the number of live clients never exceeds it; and
    [isAtCapacity()] answers [true] exactly when that number is 2000. *)
Theorem live_set_bounded timer heap (xs : list Hub.call) :
  let s := Hub.exec_all xs (Hub.new timer heap) in
  NoDup (Hub.clients s)
  ∧ Hub.maxConnections s = 2000%nat
  ∧ (Hub.getClientCount s <= 2000)%nat
  ∧ (Hub.isAtCapacity s = true ↔ Hub.getClientCount s = 2000%nat).
Proof.
  intros s.
  assert (Hb : Hub.bounded s).
  { apply keeps_exec_all; [apply bounded_exec|].
    split; simpl; [apply NoDup_nil_2|lia]. }
  assert (Hmax : Hub.maxConnections s = 2000%nat).
  { apply (keeps_exec_all (λ s, Hub.maxConnections s = 2000%nat));
      [intros x; apply ceiling_exec|reflexivity]. }
  destruct Hb as [Hnd Hlen]. unfold Hub.getClientCount, Hub.isAtCapacity.
  rewrite Hmax in *. split; [exact Hnd|]. split; [reflexivity|]. split; [exact Hlen|].
  rewrite Nat.leb_le. lia.
Qed.

End HubSweep.

(** ** The database module: transactions, start and stop *)

Section DbLifecycle.

Context {T : Type} (empty_tables : T) (schema_tables : T → T).

Implicit Types (s : Db.state T) (d : Db.database T) (e : Db.event T).

Local Abbreviation after := (Db.after empty_tables schema_tables).
Local Abbreviation after_all := (Db.after_all empty_tables schema_tables).
Local Abbreviation turn := (Db.turn empty_tables schema_tables).
Local Abbreviation reachable := (Db.reachable empty_tables schema_tables).
Local Abbreviation coherent := (Db.coherent (T:=T)).
Local Abbreviation one_timer := (Db.one_timer (T:=T)).

Ltac unfold_m :=
  unfold state_of, value_of, trace_of, try_catch,
    mbind, mret, M_bind, M_ret, bind, ret, get_state, modify, tell, throw in *.

Ltac unfold_db :=
  unfold Db.after, Db.turn, Db.bumpVersion, Db.current_version, Db.getDb,
    Db.getVersion, Db.run, Db.timer_callback, Db.saveDatabase, Db.resume_write,
    Db.finish_write, Db.scheduleSave, Db.setTimeout, Db.clearTimeout, Db.setImmediate,
    Db.closeDb, Db.initDb, Db.stored in *; unfold_m.

(** *** Transactions *)

Lemma run_throws st now s d :
  Db.db s = Some d → Db.db_run st d = None → Db.run st now s = (Throw, s, []).
Proof.
  intros Hd Hrun. unfold Db.run. unfold_m. rewrite Hd, Hrun. reflexivity.
Qed.

Lemma run_list_cases sts now s d :
  Db.db s = Some d →
  match Db.apply_all sts d with
  | Some d' => value_of (Db.run_list sts now s) = Ok tt
               ∧ Db.db (state_of (Db.run_list sts now s)) = Some d'
  | None => value_of (Db.run_list sts now s) = Throw
  end.
Proof.
  revert s d. induction sts as [|st sts IH]; intros s d Hd; simpl.
  - split; [reflexivity|exact Hd].
  - unfold mbind, M_bind, bind. destruct (Db.db_run st d) as [d1|] eqn:Hrun.
    + rewrite (run_open st now s d d1 Hd Hrun).
      set (s1 := state_of (Db.scheduleSave now (Db.set_db (Some d1) s))).
      assert (Hd1 : Db.db s1 = Some d1).
      { subst s1. rewrite (proj1 (scheduleSave_db now _)). reflexivity. }
      specialize (IH s1 d1 Hd1). unfold value_of, state_of in *.
      destruct (Db.run_list sts now s1) as [[r s2] l2]. simpl in *.
      destruct (Db.apply_all sts d1); [destruct IH as [-> ->]; auto|rewrite IH; reflexivity].
    + rewrite (run_throws st now s d Hd Hrun). reflexivity.
Qed.

Lemma transaction_cases sts now s d :
  Db.db s = Some d →
  match Db.apply_all sts d with
  | Some d' => value_of (Db.transaction sts now s) = Ok tt
               ∧ Db.db (state_of (Db.transaction sts now s)) = Some d'
  | None => value_of (Db.transaction sts now s) = Throw
            ∧ Db.db (state_of (Db.transaction sts now s)) = Some d
  end
  ∧ Db.flight (state_of (Db.transaction sts now s)) = Db.flight s
  ∧ Db.disk (state_of (Db.transaction sts now s)) = Db.disk s.
Proof.
  intros Hd. split.
  - pose proof (run_list_cases sts now s d Hd) as Hlist.
    unfold Db.transaction. unfold_m. rewrite Hd.
    destruct (Db.run_list sts now s) as [[[[]|] s1] l1]; simpl in *.
    + pose proof (scheduleSave_db now s1) as [Hdb Hval]. unfold_m.
      destruct (Db.scheduleSave now s1) as [[r s2] l2]. simpl in *. subst r.
      destruct (Db.apply_all sts d) as [d'|]; [|discriminate].
      destruct Hlist as [_ Hd1]. split; [reflexivity|]. simpl. congruence.
    + destruct (Db.apply_all sts d) as [d'|]; [destruct Hlist; discriminate|auto].
  - assert (Hf : keeps (λ s', Db.flight s' = Db.flight s ∧ Db.disk s' = Db.disk s)
                   (Db.transaction sts now)).
    { apply keeps_get_bind. intros s0 H0. destruct (Db.db s0) as [d0|]; [|exact H0].
      apply keeps_try_catch; [| |exact H0].
      - apply keeps_bind.
        + induction sts as [|st sts IH]; simpl; [apply keeps_ret|].
          apply keeps_bind; [|intros _; exact IH].
          intros s1 H1. destruct (run_cases st now s1) as [[_ ->]|(d1 & d' & Hd1 & Hr & _ & _)];
            [exact H1|].
          rewrite (run_open st now s1 d1 d' Hd1 Hr). unfold state_of at 1 2. simpl.
          unfold Db.scheduleSave, Db.clearTimeout, Db.setTimeout. unfold_m. simpl.
          destruct (Db.saveTimeout s1); exact H1.
        + intros _ s1 H1. unfold Db.scheduleSave, Db.clearTimeout, Db.setTimeout.
          unfold_m. simpl. destruct (Db.saveTimeout s1); exact H1.
      - apply keeps_bind; [apply keeps_modify; auto|intros _; apply keeps_throw]. }
    apply Hf. auto.
Qed.

(** X10.  [transaction(fn)()] on the open database is all or nothing: when
    every statement of [fn] goes through, the call returns and the database
    is what the statements made of it, one after the other; when one of them
    throws, the call throws and the database is what it was before the first
    statement.  Either way no write to the file is started within the call.
    With [db = null] the call throws and changes nothing. *)
Theorem transaction_atomic sts now s :
  let out := Db.transaction sts now s in
  (∀ d, Db.db s = Some d →
     match Db.apply_all sts d with
     | Some d' => value_of out = Ok tt ∧ Db.db (state_of out) = Some d'
     | None => value_of out = Throw ∧ Db.db (state_of out) = Some d
     end
     ∧ Db.flight (state_of out) = Db.flight s
     ∧ Db.disk (state_of out) = Db.disk s)
  ∧ (Db.db s = None → out = (Throw, s, [])).
Proof.
  intros out. subst out. split.
  - intros d Hd. apply transaction_cases. exact Hd.
  - intros Hd. unfold Db.transaction. unfold_m. rewrite Hd. reflexivity.
Qed.

(** *** The save timer *)

Local Abbreviation blank :=
  ({| Db.data_versions := ∅; Db.tables := empty_tables |} : Db.database T).

Local Abbreviation opened b :=
  (λ s : Db.state T, one_timer s ∧ Db.db s ≠ None ∧ Db.initialized s = b).

Lemma scheduleSave_state now s :
  state_of (Db.scheduleSave now s)
  = Db.set_saveTimeout (Some (Db.next_timer s))
      (Db.set_next_timer (S (Db.next_timer s))
         (Db.set_timers
            (match Db.saveTimeout s with
             | Some id => filter (λ p, fst p ≠ id) (Db.timers s)
             | None => Db.timers s
             end ++ [(Db.next_timer s, now + Db.save_delay)]) s)).
Proof.
  unfold Db.scheduleSave, Db.clearTimeout, Db.setTimeout. unfold_m.
  destruct (Db.saveTimeout s); reflexivity.
Qed.

Lemma one_timer_cleared s id :
  one_timer s → Db.saveTimeout s = Some id → filter (λ p, fst p ≠ id) (Db.timers s) = [].
Proof.
  intros [Hnil|(id' & D & Harmed & Hst)] Hid.
  - rewrite Hnil. reflexivity.
  - rewrite Harmed. assert (id' = id) by congruence. subst.
    rewrite filter_cons_False by (simpl; tauto). reflexivity.
Qed.

Lemma one_timer_unset s : one_timer s → Db.saveTimeout s = None → Db.timers s = [].
Proof.
  intros [Hnil|(id' & D & Harmed & Hst)] Hid; [exact Hnil|congruence].
Qed.

Lemma scheduleSave_arms now s :
  one_timer s →
  Db.timers (state_of (Db.scheduleSave now s)) = [(Db.next_timer s, now + Db.save_delay)]
  ∧ Db.saveTimeout (state_of (Db.scheduleSave now s)) = Some (Db.next_timer s).
Proof.
  intros H. rewrite scheduleSave_state. simpl. split; [|reflexivity].
  destruct (Db.saveTimeout s) as [id|] eqn:Hst.
  - rewrite (one_timer_cleared s id H Hst). reflexivity.
  - rewrite (one_timer_unset s H Hst). reflexivity.
Qed.

Lemma opened_scheduleSave b now : keeps (opened b) (Db.scheduleSave now).
Proof.
  intros s (H1 & Hd & Hi). destruct (scheduleSave_arms now s H1) as [Ht Hst].
  split; [right; eauto|]. rewrite scheduleSave_state. simpl. auto.
Qed.

Lemma opened_run b st now : keeps (opened b) (Db.run st now).
Proof.
  intros s H. destruct (run_cases st now s) as [[_ ->]|(d & d' & Hd & Hr & _ & _)];
    [exact H|].
  rewrite (run_open st now s d d' Hd Hr). unfold state_of at 1. cbn [fst snd].
  apply opened_scheduleSave. destruct H as (H1 & _ & Hi). simpl.
  split; [exact H1|]. split; [discriminate|exact Hi].
Qed.

Lemma opened_run_list b sts now : keeps (opened b) (Db.run_list sts now).
Proof.
  induction sts as [|st sts IH]; simpl; [apply keeps_ret|].
  apply keeps_bind; [apply opened_run|intros _; exact IH].
Qed.

Lemma opened_coherent s : opened true s → coherent s.
Proof.
  intros (H1 & Hd & Hi). split; [exact H1|]. split; [intros; contradiction|auto].
Qed.

Lemma coherent_opened s : coherent s → Db.db s ≠ None → opened true s.
Proof. intros (H1 & _ & Hi) Hd. auto. Qed.

Lemma coherent_frame s s' :
  Db.timers s' = Db.timers s → Db.saveTimeout s' = Db.saveTimeout s →
  Db.db s' = Db.db s → Db.initialized s' = Db.initialized s →
  coherent s → coherent s'.
Proof.
  unfold Db.coherent, Db.one_timer. intros -> -> -> ->. auto.
Qed.

Lemma saveDatabase_frame ok s :
  let s' := state_of (Db.saveDatabase ok s) in
  Db.timers s' = Db.timers s ∧ Db.saveTimeout s' = Db.saveTimeout s
  ∧ Db.db s' = Db.db s ∧ Db.initialized s' = Db.initialized s
  ∧ Db.disk s' = Db.disk s.
Proof.
  unfold_db. simpl. destruct (Db.db s) eqn:Hd; simpl; [|auto 10].
  destruct (Db.isWriting s) eqn:Hw; simpl; [auto 10|].
  destruct ok; simpl; [auto 10|]. destruct (Db.pendingWrite s); simpl; auto 10.
Qed.

Lemma resume_write_frame ok s :
  let s' := state_of (Db.resume_write ok s) in
  Db.timers s' = Db.timers s ∧ Db.saveTimeout s' = Db.saveTimeout s
  ∧ Db.db s' = Db.db s ∧ Db.initialized s' = Db.initialized s.
Proof.
  unfold_db. simpl. destruct (Db.writing s); simpl; [auto|].
  destruct ok; simpl; destruct (Db.pendingWrite s) eqn:Hp; simpl; auto.
Qed.

Lemma coherent_saveDatabase ok : keeps coherent (Db.saveDatabase ok).
Proof.
  intros s H. destruct (saveDatabase_frame ok s) as (H1 & H2 & H3 & H4 & _).
  eapply coherent_frame; eauto.
Qed.

Lemma initDb_run (f sc : bool) stamp now s :
  Db.initialized s = false →
  let loaded := match Db.disk s with
                | Some d => if f then d else blank
                | None => blank
                end in
  Db.initDb empty_tables schema_tables f sc stamp now s
  = (Ok tt,
     Db.set_initialized true
       (if sc
        then state_of (Db.scheduleSave now
                         (Db.set_db (Some (Db.schema schema_tables stamp loaded)) s))
        else Db.set_db (Some loaded) s),
     if sc
     then trace_of (Db.scheduleSave now
                      (Db.set_db (Some (Db.schema schema_tables stamp loaded)) s))
     else []).
Proof.
  intros Hi loaded. subst loaded.
  unfold Db.initDb, Db.scheduleSave, Db.clearTimeout, Db.setTimeout. unfold_m.
  rewrite Hi. destruct sc; simpl; [|reflexivity].
  destruct (Db.saveTimeout s); reflexivity.
Qed.

Lemma one_timer_filter s id :
  one_timer s → one_timer (Db.set_timers (filter (λ p, fst p ≠ id) (Db.timers s)) s).
Proof.
  intros [Hnil|(id' & D & Harmed & Hst)]; unfold Db.one_timer; simpl.
  - rewrite Hnil. left. reflexivity.
  - rewrite Harmed. destruct (decide (id' = id)) as [->|Hne].
    + left. rewrite filter_cons_False by (simpl; tauto). reflexivity.
    + right. exists id', D. rewrite filter_cons_True by (simpl; congruence). auto.
Qed.

Lemma coherent_turn now e : keeps coherent (turn now e).
Proof.
  intros s H. destruct e as [f sc st|st|sts|stamp key'|ok|id ok|ok|ok|ok]; simpl.
  - destruct (Db.initialized s) eqn:Hi.
    + unfold Db.initDb. unfold_m. rewrite Hi. exact H.
    + rewrite (initDb_run f sc st now s Hi). unfold state_of at 1. cbn [fst snd].
      destruct H as (H1 & _ & _).
      apply opened_coherent. destruct sc.
      * pose proof (opened_scheduleSave false now
          (Db.set_db (Some (Db.schema schema_tables st
             match Db.disk s with
             | Some d => if f then d else blank
             | None => blank
             end)) s)) as Hk.
        destruct Hk as (K1 & K2 & K3); [simpl; split; [exact H1|split; [discriminate|exact Hi]]|].
        split; [exact K1|]. split; [exact K2|reflexivity].
      * simpl. split; [exact H1|]. split; [discriminate|reflexivity].
  - destruct (run_cases st now s) as [[_ ->]|(d & d' & Hd & _)]; [exact H|].
    apply opened_coherent, opened_run, coherent_opened; [exact H|congruence].
  - destruct (Db.db s) as [d0|] eqn:Hd.
    + apply opened_coherent.
      assert (Hk : keeps (opened true) (Db.transaction sts now)).
      { apply keeps_get_bind. intros s0 H0.
        destruct (Db.db s0) as [d1|] eqn:Hd0;
          [rewrite <- Hd0 in H0|destruct H0 as (_ & Hn & _); contradiction].
        apply keeps_try_catch; [| |exact H0].
        - apply keeps_bind; [apply opened_run_list|intros _; apply opened_scheduleSave].
        - apply keeps_bind; [|intros _; apply keeps_throw].
          apply keeps_modify. intros s1 (K1 & _ & K3). split; [exact K1|].
          split; [discriminate|exact K3]. }
      apply Hk, coherent_opened; [exact H|congruence].
    + unfold Db.transaction. unfold_m. rewrite Hd. exact H.
  - unfold mbind at 1. unfold M_bind, bind.
    assert (Hb : coherent (state_of (Db.bumpVersion stamp key' now s))).
    { unfold Db.bumpVersion. unfold mbind at 1. unfold M_bind, bind.
      assert (Hr : coherent (state_of (Db.run (Db.IncrementVersion stamp key') now s))).
      { destruct (run_cases (Db.IncrementVersion stamp key') now s)
          as [[_ ->]|(d & d' & Hd & _)]; [exact H|].
        apply opened_coherent, opened_run, coherent_opened; [exact H|congruence]. }
      unfold state_of in *.
      destruct (Db.run (Db.IncrementVersion stamp key') now s) as [[[[]|] s1] l1];
        simpl in *; [|exact Hr].
      unfold Db.current_version, Db.getVersion. unfold_m.
      destruct (Db.db s1); simpl; exact Hr. }
    unfold state_of in *.
    destruct (Db.bumpVersion stamp key' now s) as [[[v|] s1] l1]; simpl in *; exact Hb.
  - apply coherent_saveDatabase. exact H.
  - unfold mbind at 1. unfold M_bind, bind, get_state.
    destruct (existsb _ (Db.timers s)); [|exact H].
    unfold mbind at 1. unfold M_bind, bind, modify. unfold Db.timer_callback.
    unfold mbind at 1. unfold M_bind, bind, tell.
    set (s1 := Db.set_timers _ s).
    assert (H1 : coherent s1).
    { destruct H as (K1 & K2 & K3). split; [apply one_timer_filter; exact K1|].
      subst s1. simpl. split; [|exact K3].
      intros Hd. destruct (K2 Hd) as [-> ->]. auto. }
    pose proof (coherent_saveDatabase ok s1 H1) as H2. unfold state_of in *.
    destruct (Db.saveDatabase ok s1) as [[r s2] l2]. exact H2.
  - unfold mbind at 1. unfold M_bind, bind, get_state.
    destruct (Db.immediates s) as [|n]; [exact H|].
    unfold mbind at 1. unfold M_bind, bind, modify.
    set (s1 := Db.set_immediates n s).
    assert (H1 : coherent s1) by (eapply coherent_frame; [| | | |exact H]; reflexivity).
    pose proof (coherent_saveDatabase ok s1 H1) as H2. unfold state_of in *.
    destruct (Db.saveDatabase ok s1) as [[r s2] l2]. exact H2.
  - destruct (resume_write_frame ok s) as (H1 & H2 & H3 & H4).
    eapply coherent_frame; eauto.
  - destruct H as (K1 & K2 & K3).
    assert (Hc : ∀ s', Db.timers s' = [] → Db.db s' = None →
                       Db.initialized s' = false → coherent s').
    { intros s' A B C. split; [left; exact A|]. split; [auto|]. intros; contradiction. }
    unfold Db.closeDb, Db.clearTimeout, Db.saveDatabase, Db.finish_write, Db.setImmediate.
    unfold_m. simpl.
    destruct (Db.saveTimeout s) as [id|] eqn:Hst; simpl.
    + pose proof (one_timer_cleared s id K1 Hst) as Hclr.
      destruct (Db.db s) as [d|] eqn:Hd; simpl.
      * destruct (Db.isWriting s); simpl; [rewrite ?Hd; apply Hc; simpl; auto|].
        destruct ok; simpl; [rewrite ?Hd; apply Hc; simpl; auto|].
        destruct (Db.pendingWrite s); simpl; rewrite ?Hd; apply Hc; simpl; auto.
      * rewrite ?Hd. simpl. destruct (K2 eq_refl) as [_ Hi]. apply Hc; simpl; auto.
    + pose proof (one_timer_unset s K1 Hst) as Hnil.
      destruct (Db.db s) as [d|] eqn:Hd; simpl.
      * apply Hc; simpl; auto.
      * destruct (K2 eq_refl) as [_ Hi]. apply Hc; simpl; auto.
Qed.

Lemma coherent_reachable file s : reachable file s → coherent s.
Proof.
  induction 1 as [|s now e _ IH].
  - split; [left; reflexivity|]. split; [auto|]. intros Hd. contradiction.
  - apply coherent_turn. exact IH.
Qed.

(** X11.  At every reachable point at most one timer is armed for the
    module; while one is armed, [saveTimeout] holds its identity and the
    database is open; and [initialized] is set only while the database is
    open. *)
Theorem reachable_coherent file s :
  reachable file s →
  (length (Db.timers s) <= 1)%nat
  ∧ (∀ id deadline, (id, deadline) ∈ Db.timers s →
       Db.saveTimeout s = Some id ∧ is_Some (Db.db s))
  ∧ (Db.initialized s = true → is_Some (Db.db s)).
Proof.
  intros Hreach. destruct (coherent_reachable file s Hreach) as (H1 & H2 & H3).
  split; [|split].
  - destruct H1 as [->|(id & D & -> & _)]; simpl; lia.
  - intros id D Hin. destruct H1 as [Hnil|(id' & D' & Harmed & Hst)].
    + rewrite Hnil in Hin. apply elem_of_nil in Hin. contradiction.
    + rewrite Harmed in Hin. apply list_elem_of_singleton in Hin. inversion Hin; subst.
      split; [exact Hst|]. destruct (Db.db s) eqn:Hd; [eauto|].
      destruct (H2 eq_refl) as [Hnil _]. rewrite Hnil in Harmed. discriminate.
  - destruct (Db.db s) eqn:Hd; [eauto|].
    destruct (H2 eq_refl) as [_ ->]. discriminate.
Qed.

(** *** What single turns do *)

Lemma run_state st now s d d' :
  Db.db s = Some d → Db.db_run st d = Some d' → one_timer s →
  after now (Db.ERun st) s
  = Db.set_saveTimeout (Some (Db.next_timer s))
      (Db.set_next_timer (S (Db.next_timer s))
         (Db.set_timers [(Db.next_timer s, now + Db.save_delay)]
            (Db.set_db (Some d') s))).
Proof.
  intros Hd Hrun H1. unfold Db.after, Db.turn. rewrite (run_open st now s d d' Hd Hrun).
  unfold state_of at 1. cbn [fst snd]. rewrite scheduleSave_state. simpl.
  destruct (Db.saveTimeout s) as [id|] eqn:Hst.
  - rewrite (one_timer_cleared s id H1 Hst). reflexivity.
  - rewrite (one_timer_unset s H1 Hst). reflexivity.
Qed.

Lemma timer_fires id deadline t ok s :
  Db.timers s = [(id, deadline)] → deadline <= t →
  after t (Db.ETimer id ok) s = state_of (Db.saveDatabase ok (Db.set_timers [] s)).
Proof.
  intros Harmed Hdue. unfold Db.after, Db.turn, Db.timer_callback.
  unfold mbind at 1. unfold M_bind, bind, get_state. rewrite Harmed. simpl.
  rewrite Nat.eqb_refl. replace (deadline <=? t) with true by lia. simpl.
  rewrite filter_cons_False by (simpl; tauto). rewrite filter_nil.
  unfold_m. simpl. destruct (Db.saveDatabase ok (Db.set_timers [] s)) as [[r s2] l2].
  reflexivity.
Qed.

Lemma saveDatabase_starts s d :
  Db.db s = Some d → Db.isWriting s = false →
  state_of (Db.saveDatabase true s)
  = Db.set_writing (Db.writing s ++ [d]) (Db.set_isWriting true s).
Proof.
  intros Hd Hw. unfold Db.saveDatabase. unfold_m. simpl. rewrite Hd, Hw. reflexivity.
Qed.

Lemma saveDatabase_pends ok s d :
  Db.db s = Some d → Db.isWriting s = true →
  state_of (Db.saveDatabase ok s) = Db.set_pendingWrite true s.
Proof.
  intros Hd Hw. unfold Db.saveDatabase. unfold_m. simpl. rewrite Hd, Hw. reflexivity.
Qed.

Lemma saveDatabase_closed ok s :
  Db.db s = None → Db.saveDatabase ok s = (Ok tt, s, [ASaveDatabase]).
Proof.
  intros Hd. unfold Db.saveDatabase. unfold_m. simpl. rewrite Hd. reflexivity.
Qed.

Lemma write_done ok s b :
  Db.writing s = [b] →
  after 0 (Db.EWriteDone ok) s
  = let s1 := Db.set_isWriting false
                ((if ok then Db.set_disk (Some b) else id) (Db.set_writing [] s)) in
    if Db.pendingWrite s
    then Db.set_immediates (S (Db.immediates s)) (Db.set_pendingWrite false s1)
    else s1.
Proof.
  intros Hb. unfold Db.after, Db.turn, Db.resume_write, Db.finish_write, Db.setImmediate.
  unfold_m. simpl. rewrite Hb. destruct ok; simpl; destruct (Db.pendingWrite s); reflexivity.
Qed.

Lemma write_done_any t ok s : after t (Db.EWriteDone ok) s = after 0 (Db.EWriteDone ok) s.
Proof. reflexivity. Qed.

Lemma immediate_runs t ok s n :
  Db.immediates s = S n →
  after t (Db.EImmediate ok) s = state_of (Db.saveDatabase ok (Db.set_immediates n s)).
Proof.
  intros Hn. unfold Db.after, Db.turn. unfold_m. rewrite Hn.
  destruct (Db.saveDatabase ok (Db.set_immediates n s)) as [[r s2] l2]. reflexivity.
Qed.

(** *** After [closeDb] *)

Lemma closeDb_db ok s : Db.db (state_of (Db.closeDb ok s)) = None.
Proof.
  unfold Db.closeDb, Db.clearTimeout, Db.saveDatabase, Db.finish_write, Db.setImmediate.
  unfold_m. simpl.
  destruct (Db.saveTimeout s) as [id|]; simpl.
  - destruct (Db.db s) as [d|] eqn:Hd; simpl.
    + destruct (Db.isWriting s); simpl; [rewrite ?Hd; reflexivity|].
      destruct ok; simpl; [rewrite ?Hd; reflexivity|].
      destruct (Db.pendingWrite s); simpl; rewrite ?Hd; reflexivity.
    + rewrite ?Hd. simpl. exact Hd.
  - destruct (Db.db s) as [d|] eqn:Hd; simpl; [reflexivity|exact Hd].
Qed.

Lemma closed_turn t e s :
  Db.restarts e = false → Db.closed s →
  Db.closed (after t e s) ∧ Db.disk (after t e s) = Db.disk s.
Proof.
  intros He [Hd Hw]. unfold Db.closed.
  destruct e as [f sc st|st|sts|stamp key'|ok|id ok|ok|ok|ok]; try discriminate;
    unfold Db.after, Db.turn.
  - unfold Db.run. unfold_m. rewrite Hd. auto.
  - unfold Db.transaction. unfold_m. rewrite Hd. auto.
  - unfold Db.bumpVersion, Db.run. unfold_m. rewrite Hd. auto.
  - rewrite (saveDatabase_closed ok s Hd). auto.
  - unfold Db.timer_callback. unfold_m. destruct (existsb _ (Db.timers s)); [|auto].
    simpl. rewrite saveDatabase_closed by exact Hd. auto.
  - unfold_m. destruct (Db.immediates s) as [|n]; [auto|].
    simpl. rewrite saveDatabase_closed by exact Hd. auto.
  - unfold Db.resume_write. unfold_m. rewrite Hw. auto.
  - unfold Db.closeDb, Db.clearTimeout. unfold_m.
    destruct (Db.saveTimeout s) as [id|]; simpl.
    + rewrite saveDatabase_closed by exact Hd. simpl. rewrite Hd. auto.
    + rewrite Hd. auto.
Qed.

Lemma closed_after_all later s :
  forallb (λ te, negb (Db.restarts (snd te))) later = true → Db.closed s →
  Db.closed (after_all later s) ∧ Db.disk (after_all later s) = Db.disk s.
Proof.
  revert s. induction later as [|[t e] later IH]; intros s Hl Hs; simpl in *; [auto|].
  apply andb_prop in Hl as [He Hl]. apply negb_true_iff in He.
  destruct (closed_turn t e s He Hs) as [Hc Hdisk].
  destruct (IH _ Hl Hc) as [Hc' Hdisk']. split; [exact Hc'|congruence].
Qed.

Lemma saveDatabase_value ok s : value_of (Db.saveDatabase ok s) = Ok tt.
Proof.
  unfold Db.saveDatabase, Db.finish_write, Db.setImmediate. unfold_m. simpl.
  destruct (Db.db s); simpl; [|reflexivity].
  destruct (Db.isWriting s); simpl; [reflexivity|].
  destruct ok; simpl; [reflexivity|]. destruct (Db.pendingWrite s); reflexivity.
Qed.

Lemma closeDb_open ok now s d id :
  Db.db s = Some d → Db.saveTimeout s = Some id → one_timer s →
  after now (Db.EClose ok) s
  = Db.set_initialized false
      (Db.set_db None (state_of (Db.saveDatabase ok (Db.set_timers [] s)))).
Proof.
  intros Hd Hst H1. unfold Db.after, Db.turn, Db.closeDb, Db.clearTimeout.
  pose proof (saveDatabase_value ok (Db.set_timers [] s)) as Hv.
  destruct (saveDatabase_frame ok (Db.set_timers [] s)) as (_ & _ & Hdb & _).
  unfold_m. rewrite Hst. simpl. rewrite (one_timer_cleared s id H1 Hst).
  destruct (Db.saveDatabase ok (Db.set_timers [] s)) as [[r s1] l1]. simpl in *.
  subst r. rewrite Hdb, Hd. reflexivity.
Qed.

Lemma throws_closed s :
  Db.db s = None →
  (∀ st t, Db.run st t s = (Throw, s, []))
  ∧ (∀ stamp key t, Db.bumpVersion stamp key t s = (Throw, s, []))
  ∧ (∀ sts t, Db.transaction sts t s = (Throw, s, []))
  ∧ (∀ key, Db.getVersion key s = (Throw, s, []))
  ∧ (∀ key, Db.current_version key s = (Throw, s, []))
  ∧ Db.getDb s = (Throw, s, []).
Proof.
  intros Hd. unfold Db.bumpVersion, Db.current_version, Db.transaction, Db.run,
    Db.getVersion, Db.getDb. unfold_m. rewrite Hd. auto 10.
Qed.

(** X12.  After [closeDb()] the handle is [null], [initialized] is unset and
    no timer is armed.  From then on [run], [bumpVersion], a transaction,
    [getVersion] and [getDb] throw and change nothing, [saveDatabase()]
    returns at once, and a second [closeDb()], as the 'exit' handler makes
    after a signal, changes nothing either. *)
Theorem closeDb_closes file s ok now :
  reachable file s →
  let s' := after now (Db.EClose ok) s in
  Db.db s' = None ∧ Db.initialized s' = false ∧ Db.timers s' = []
  ∧ (∀ st t, Db.run st t s' = (Throw, s', []))
  ∧ (∀ stamp key t, Db.bumpVersion stamp key t s' = (Throw, s', []))
  ∧ (∀ sts t, Db.transaction sts t s' = (Throw, s', []))
  ∧ (∀ key, Db.getVersion key s' = (Throw, s', []))
  ∧ Db.getDb s' = (Throw, s', [])
  ∧ (∀ ok' t, after t (Db.ESave ok') s' = s')
  ∧ (∀ ok' t, after t (Db.EClose ok') s' = s').
Proof.
  intros Hreach s'.
  assert (Hd : Db.db s' = None) by apply closeDb_db.
  assert (Hc : coherent s').
  { apply (coherent_turn now (Db.EClose ok)), (coherent_reachable file). exact Hreach. }
  destruct Hc as (_ & H2 & _). destruct (H2 Hd) as [Ht Hi].
  destruct (throws_closed s' Hd) as (T1 & T2 & T3 & T4 & _ & T6).
  split; [exact Hd|]. split; [exact Hi|]. split; [exact Ht|].
  split; [exact T1|]. split; [exact T2|]. split; [exact T3|]. split; [exact T4|].
  split; [exact T6|]. split.
  - intros ok' t. unfold Db.after, Db.turn. rewrite saveDatabase_closed by exact Hd.
    reflexivity.
  - intros ok' t. unfold Db.after, Db.turn, Db.closeDb, Db.clearTimeout. unfold_m.
    destruct (Db.saveTimeout s') as [id|]; simpl.
    + rewrite Ht. rewrite saveDatabase_closed by exact Hd. simpl. rewrite Hd. simpl.
      clear -Ht. destruct s'. simpl in *. subst. reflexivity.
    + rewrite Hd. reflexivity.
Qed.

(** X13.  [closeDb()] with a save scheduled at some time before and no write
    under way starts the final save of the database as it stands and hands
    the handle back.  When the file operations of that save succeed, the
    file holds that database, and nothing that follows, short of a new
    [initDb()], changes the file again. *)
Theorem closeDb_final_save file s d id now t (later : list (Z * Db.event T)) :
  reachable file s →
  Db.db s = Some d → Db.saveTimeout s = Some id → Db.isWriting s = false →
  forallb (λ te, negb (Db.restarts (snd te))) later = true →
  let s1 := after now (Db.EClose true) s in
  Db.writing s1 = [d] ∧ Db.isWriting s1 = true ∧ Db.db s1 = None
  ∧ Db.disk (after t (Db.EWriteDone true) s1) = Some d
  ∧ Db.disk (after_all later (after t (Db.EWriteDone true) s1)) = Some d.
Proof.
  intros Hreach Hd Hst Hw Hlater s1.
  destruct (coherent_reachable file s Hreach) as (H1 & _ & _).
  destruct (reachable_one_flight empty_tables schema_tables file s Hreach)
    as [[Hw' _]|(_ & Hwr & Hp)]; [congruence|].
  assert (Hs1 : s1 = Db.set_initialized false
                       (Db.set_db None
                          (Db.set_writing [d] (Db.set_isWriting true (Db.set_timers [] s))))).
  { subst s1. rewrite (closeDb_open true now s d id Hd Hst H1).
    rewrite (saveDatabase_starts _ d) by assumption. simpl. rewrite Hwr. reflexivity. }
  assert (Hs2 : Db.closed (after t (Db.EWriteDone true) s1)
                ∧ Db.disk (after t (Db.EWriteDone true) s1) = Some d).
  { rewrite write_done_any, (write_done true s1 d) by (rewrite Hs1; reflexivity).
    rewrite Hs1. simpl. rewrite Hp. simpl. split; [split|]; reflexivity. }
  destruct Hs2 as [Hc Hdisk].
  split; [rewrite Hs1; reflexivity|]. split; [rewrite Hs1; reflexivity|].
  split; [rewrite Hs1; reflexivity|]. split; [exact Hdisk|].
  destruct (closed_after_all later _ Hlater Hc) as [_ ->]. exact Hdisk.
Qed.

(** X14.  [closeDb()] while a write is under way: the request for the final
    save only sets [pendingWrite], and by the time the write under way has
    settled and the queued [saveDatabase()] runs, [db] is [null] and the
    call returns at its first line.  The file then holds the buffer of the
    write that was under way, or what it held before if that write failed;
    the database as it stood at [closeDb()] is not written by any turn short
    of a new [initDb()]. *)
Theorem closeDb_during_write file s d id now ok t w (later : list (Z * Db.event T)) :
  reachable file s →
  Db.db s = Some d → Db.saveTimeout s = Some id → Db.isWriting s = true →
  forallb (λ te, negb (Db.restarts (snd te))) later = true →
  let s1 := after now (Db.EClose ok) s in
  let s2 := after_all later (after t (Db.EWriteDone w) s1) in
  ∃ b, Db.writing s = [b] ∧ Db.writing s1 = [b]
       ∧ Db.pendingWrite s1 = true ∧ Db.db s1 = None
       ∧ Db.immediates (after t (Db.EWriteDone w) s1) = S (Db.immediates s)
       ∧ Db.disk s2 = (if w then Some b else Db.disk s)
       ∧ Db.writing s2 = [] ∧ Db.db s2 = None.
Proof.
  intros Hreach Hd Hst Hw Hlater s1 s2.
  destruct (coherent_reachable file s Hreach) as (H1 & _ & _).
  destruct (reachable_one_flight empty_tables schema_tables file s Hreach)
    as [[_ [b Hb]]|(Hw' & _ & _)]; [|congruence].
  exists b.
  assert (Hs1 : s1 = Db.set_initialized false
                       (Db.set_db None (Db.set_pendingWrite true (Db.set_timers [] s)))).
  { subst s1. rewrite (closeDb_open ok now s d id Hd Hst H1).
    rewrite (saveDatabase_pends ok _ d) by assumption. reflexivity. }
  assert (Hs2 : Db.closed (after t (Db.EWriteDone w) s1)
                ∧ Db.disk (after t (Db.EWriteDone w) s1) = (if w then Some b else Db.disk s)
                ∧ Db.immediates (after t (Db.EWriteDone w) s1) = S (Db.immediates s)).
  { rewrite write_done_any, (write_done w s1 b) by (rewrite Hs1; exact Hb).
    rewrite Hs1. simpl. destruct w; simpl; (split; [split|split]; reflexivity). }
  destruct Hs2 as (Hc & Hdisk & Him).
  destruct (closed_after_all later _ Hlater Hc) as [[Hd2 Hw2] Hdisk2].
  split; [exact Hb|]. split; [rewrite Hs1; exact Hb|].
  split; [rewrite Hs1; reflexivity|]. split; [rewrite Hs1; reflexivity|].
  split; [exact Him|]. subst s2. rewrite Hdisk2. auto.
Qed.

Lemma write_done_facts t ok s b :
  Db.writing s = [b] →
  let s' := after t (Db.EWriteDone ok) s in
  Db.db s' = Db.db s ∧ Db.writing s' = [] ∧ Db.isWriting s' = false
  ∧ Db.pendingWrite s' = false
  ∧ Db.disk s' = (if ok then Some b else Db.disk s)
  ∧ Db.immediates s' = (if Db.pendingWrite s then S (Db.immediates s) else Db.immediates s).
Proof.
  intros Hb s'. subst s'. rewrite write_done_any, (write_done ok s b Hb).
  destruct ok; destruct (Db.pendingWrite s) eqn:Hp; simpl; auto 10.
Qed.

Lemma immediate_facts t s n d :
  Db.immediates s = S n → Db.db s = Some d → Db.isWriting s = false →
  let s' := after t (Db.EImmediate true) s in
  Db.writing s' = Db.writing s ++ [d].
Proof.
  intros Hn Hd Hw s'. subst s'. rewrite (immediate_runs t true s n Hn).
  rewrite (saveDatabase_starts _ d) by (simpl; assumption). reflexivity.
Qed.

(** X15.  A statement run on the open database reaches the file.  [run]
    leaves exactly one timer armed, due one second later.  When it fires
    with no write under way, the database as changed by the statement is
    exported and, once the file operations succeed, is what the file holds.
    When it fires during a write, the request is kept pending; after that
    write has settled, whatever its outcome, the queued [saveDatabase()]
    exports the database and the file holds it once the file operations
    succeed. *)
Theorem write_reaches_disk file s d d' st now t t' w :
  reachable file s →
  Db.db s = Some d → Db.db_run st d = Some d' → now + Db.save_delay <= t →
  let timer := Db.next_timer s in
  let s1 := after now (Db.ERun st) s in
  let s2 := after t (Db.ETimer timer true) s1 in
  Db.db s1 = Some d'
  ∧ Db.timers s1 = [(timer, now + Db.save_delay)]
  ∧ Db.timers s2 = []
  ∧ (Db.isWriting s = false →
       Db.writing s2 = [d']
       ∧ Db.disk (after t' (Db.EWriteDone true) s2) = Some d')
  ∧ (Db.isWriting s = true →
       let s3 := after t' (Db.EImmediate true) (after t' (Db.EWriteDone w) s2) in
       Db.pendingWrite s2 = true
       ∧ Db.writing s3 = [d']
       ∧ Db.disk (after t' (Db.EWriteDone true) s3) = Some d').
Proof.
  intros Hreach Hd Hrun Hdue timer s1 s2.
  destruct (coherent_reachable file s Hreach) as (H1 & _ & _).
  pose proof (reachable_one_flight empty_tables schema_tables file s Hreach) as Hone.
  assert (Hs1 : s1 = Db.set_saveTimeout (Some timer)
                       (Db.set_next_timer (S timer)
                          (Db.set_timers [(timer, now + Db.save_delay)]
                             (Db.set_db (Some d') s))))
    by (apply run_state with (d := d); assumption).
  assert (Hs2 : s2 = state_of (Db.saveDatabase true (Db.set_timers [] s1))).
  { apply (timer_fires timer (now + Db.save_delay)); [rewrite Hs1; reflexivity|exact Hdue]. }
  assert (Hdb1 : Db.db s1 = Some d') by (rewrite Hs1; reflexivity).
  assert (Hw1 : Db.isWriting s1 = Db.isWriting s) by (rewrite Hs1; reflexivity).
  assert (Hwr1 : Db.writing s1 = Db.writing s) by (rewrite Hs1; reflexivity).
  assert (Him1 : Db.immediates s1 = Db.immediates s) by (rewrite Hs1; reflexivity).
  split; [exact Hdb1|]. split; [rewrite Hs1; reflexivity|]. split; [|split].
  - rewrite Hs2. rewrite (proj1 (saveDatabase_frame true _)). reflexivity.
  - intros Hw. destruct Hone as [[Hw' _]|(_ & Hwr & Hp)]; [congruence|].
    rewrite (saveDatabase_starts _ d') in Hs2 by (simpl; congruence).
    assert (Hb : Db.writing s2 = [d']).
    { rewrite Hs2. simpl. rewrite Hwr1, Hwr. reflexivity. }
    split; [exact Hb|].
    destruct (write_done_facts t' true s2 d' Hb) as (_ & _ & _ & _ & Hdisk & _).
    exact Hdisk.
  - intros Hw s3. destruct Hone as [[_ [b Hb]]|(Hw' & _ & _)]; [|congruence].
    rewrite (saveDatabase_pends true _ d') in Hs2 by (simpl; congruence).
    assert (Hb2 : Db.writing s2 = [b]) by (rewrite Hs2; simpl; congruence).
    assert (Hp2 : Db.pendingWrite s2 = true) by (rewrite Hs2; reflexivity).
    assert (Hdb2 : Db.db s2 = Some d') by (rewrite Hs2; simpl; exact Hdb1).
    destruct (write_done_facts t' w s2 b Hb2) as (F1 & F2 & F3 & _ & _ & F6).
    rewrite Hp2 in F6. rewrite Hdb2 in F1.
    pose proof (immediate_facts t' _ _ d' F6 F1 F3) as Hb3. cbn zeta in Hb3.
    rewrite F2 in Hb3. simpl in Hb3. fold s3 in Hb3.
    split; [exact Hp2|]. split; [exact Hb3|].
    destruct (write_done_facts t' true s3 d' Hb3) as (_ & _ & _ & _ & Hdisk & _).
    exact Hdisk.
Qed.

(** *** Start *)

Lemma insert_or_ignore_lookup k stamp (m : gmap string Db.version_row) key :
  Db.insert_or_ignore k stamp m !! key
  = match m !! key with
    | Some r => Some r
    | None => if decide (key = k) then Some (Db.Row 0 stamp) else None
    end.
Proof.
  unfold Db.insert_or_ignore. destruct (m !! k) as [r0|] eqn:Hk.
  - destruct (m !! key) eqn:Hkey; [reflexivity|].
    destruct (decide (key = k)) as [->|]; [congruence|reflexivity].
  - destruct (decide (key = k)) as [->|Hne].
    + rewrite lookup_insert_eq, Hk. reflexivity.
    + rewrite lookup_insert_ne by congruence. destruct (m !! key); reflexivity.
Qed.

Lemma schema_lookup stamp d key :
  Db.data_versions (Db.schema schema_tables stamp d) !! key
  = match Db.data_versions d !! key with
    | Some r => Some r
    | None => if decide (key ∈ Db.default_keys) then Some (Db.Row 0 stamp) else None
    end.
Proof.
  unfold Db.schema. simpl. rewrite !insert_or_ignore_lookup.
  destruct (Db.data_versions d !! key); [reflexivity|].
  assert (Hin : key ∈ Db.default_keys
                ↔ key = "raffles"%string ∨ key = "rules"%string ∨ key = "sponsors"%string).
  { unfold Db.default_keys. rewrite !elem_of_union, !elem_of_singleton. tauto. }
  destruct (decide (key ∈ Db.default_keys)) as [H|H]; rewrite Hin in H.
  - destruct (decide (key = "raffles"%string)); [reflexivity|].
    destruct (decide (key = "rules"%string)); [reflexivity|].
    destruct (decide (key = "sponsors"%string)); [reflexivity|tauto].
  - destruct (decide (key = "raffles"%string)); [tauto|].
    destruct (decide (key = "rules"%string)); [tauto|].
    destruct (decide (key = "sponsors"%string)); [tauto|reflexivity].
Qed.


End DbLifecycle.

(** ** The handlers: reads, failed mutations and the cache *)

Section ServerReads.

Context {T : Type}.

Implicit Types (w : Server.world T) (s : Db.state T) (d : Db.database T).

Ltac unfold_m :=
  unfold state_of, value_of, trace_of, try_catch, zoom,
    mbind, mret, M_bind, M_ret, bind, ret, get_state, modify, tell, throw in *.

Ltac triples :=
  repeat match goal with
         | |- context [state_of (?r, ?x, ?l)] => change (state_of (r, x, l)) with x
         | |- context [value_of (?r, ?x, ?l)] => change (value_of (r, x, l)) with r
         | |- context [trace_of (?r, ?x, ?l)] => change (trace_of (r, x, l)) with l
         end.

Lemma state_of_then_ret {S A} (m : M S A) (s : S) :
  state_of ((m;; mret tt) s) = state_of (m s).
Proof. unfold_m. destruct (m s) as [[[a|] s1] l1]; reflexivity. Qed.

Lemma in_db_state {A} (m : M (Db.state T) A) w :
  state_of (Server.in_db m w)
  = Server.World (state_of (m (Server.db w))) (Server.cache w) (Server.sseManager w).
Proof. unfold Server.in_db. unfold_m. destruct (m (Server.db w)) as [[r s1] l1]. reflexivity. Qed.

Lemma in_hub_state {A} (m : M Hub.state A) w :
  state_of (Server.in_hub m w)
  = Server.World (Server.db w) (Server.cache w) (state_of (m (Server.sseManager w))).
Proof.
  unfold Server.in_hub. unfold_m. destruct (m (Server.sseManager w)) as [[r s1] l1].
  reflexivity.
Qed.

Lemma current_version_closed key s :
  Db.db s = None → Db.current_version key s = (Throw, s, []).
Proof. intros Hd. unfold Db.current_version, Db.getVersion. unfold_m. rewrite Hd. reflexivity. Qed.

Lemma current_version_state key s : state_of (Db.current_version key s) = s.
Proof.
  unfold Db.current_version, Db.getVersion. unfold_m. destruct (Db.db s); reflexivity.
Qed.

(** What a read does, case by case. *)
Lemma read_domain_run domain max_age (materialize : T → json) clientVersion now w d :
  Db.db (Server.db w) = Some d →
  let current := or_default (Db.version <$> Db.data_versions d !! domain) 0 in
  let fresh := materialize (Db.tables d) in
  let c1 := snd (Cache.get now domain (Server.cache w)) in
  let answer p :=
    Ok (Server.Response 200
          [("ETag"%string, to_string current); ("Cache-Control"%string, max_age)]
          (Some p)) in
  let miss :=
    (answer fresh,
     Server.World (Server.db w) (Cache.set now now domain fresh current c1)
       (Server.sseManager w),
     @nil action) in
  Server.read_domain domain max_age materialize clientVersion now w
  = if Server.not_modified clientVersion current
    then (Ok (Server.Response 304 [] None), w, [])
    else match fst (Cache.get now domain (Server.cache w)) with
         | Some p =>
             if truthy p
             then (answer p, Server.World (Server.db w) c1 (Server.sseManager w), [])
             else miss
         | None => miss
         end.
Proof.
  intros Hd current fresh c1 answer miss. subst answer miss c1 fresh.
  assert (Hcur : Db.current_version domain (Server.db w) = (Ok current, Server.db w, []))
    by (apply current_version_run; exact Hd).
  assert (Hquery : ∀ w', Server.db w' = Server.db w →
            Server.query materialize w' = (Ok (materialize (Db.tables d)), w', [])).
  { intros w' Hw'. unfold Server.query. unfold_m. rewrite Hw', Hd. reflexivity. }
  unfold Server.read_domain, Server.in_db.
  unfold mbind at 1. unfold M_bind, bind, zoom. rewrite Hcur.
  replace (Server.World (Server.db w) (Server.cache w) (Server.sseManager w)) with w
    by (destruct w; reflexivity).
  destruct (Server.not_modified clientVersion current); [reflexivity|].
  unfold mbind at 1. unfold M_bind, bind. unfold Server.cache_get at 1.
  destruct (Cache.get now domain (Server.cache w)) as [[p|] c1] eqn:Hget;
    cbn [fst snd]; [destruct (truthy p)|].
  - unfold_m. reflexivity.
  - unfold mbind at 1. unfold M_bind, bind.
    unfold mbind at 1. unfold M_bind, bind.
    rewrite Hquery by reflexivity. unfold Server.cache_set. unfold_m. reflexivity.
  - unfold mbind at 1. unfold M_bind, bind.
    unfold mbind at 1. unfold M_bind, bind.
    rewrite Hquery by reflexivity. unfold Server.cache_set. unfold_m. reflexivity.
Qed.

Lemma read_domain_closed domain max_age (materialize : T → json) clientVersion now w :
  Db.db (Server.db w) = None →
  Server.read_domain domain max_age materialize clientVersion now w = (Throw, w, []).
Proof.
  intros Hd. unfold Server.read_domain, Server.in_db.
  unfold mbind at 1. unfold M_bind, bind, zoom.
  rewrite current_version_closed by exact Hd. destruct w; reflexivity.
Qed.

Lemma ttl_of_pos k : 0 < Cache.ttl_of k.
Proof.
  rewrite ttl_of_table. unfold Cache.TTL.
  destruct (decide (k = "raffles")) as [->|?]; [reflexivity|].
  destruct (decide (k = "rules")) as [->|?]; [reflexivity|].
  destruct (decide (k = "sponsors")) as [->|?]; [reflexivity|].
  rewrite !lookup_insert_ne, lookup_empty by congruence. reflexivity.
Qed.

Lemma get_other (now : Z) k k' (c : Cache.DataCache json) :
  k' ≠ k →
  Cache.cache (snd (Cache.get now k c)) !! k' = Cache.cache c !! k'
  ∧ Cache.versions (snd (Cache.get now k c)) = Cache.versions c.
Proof.
  intros Hne. unfold Cache.get. destruct (Cache.cache c !! k) as [e|]; [|auto].
  destruct (now >? Cache.expiresAt e); simpl; [|auto].
  split; [apply lookup_delete_ne; congruence|reflexivity].
Qed.


(** *** How the handlers compose *)

Lemma state_of_bind {S A B} (m : M S A) (k : A → M S B) (s : S) :
  state_of ((m ≫= k) s)
  = match value_of (m s) with
    | Ok a => state_of (k a (state_of (m s)))
    | Throw => state_of (m s)
    end.
Proof.
  unfold_m. destruct (m s) as [[[a|] s1] l1]; simpl; [|reflexivity].
  destruct (k a s1) as [[r s2] l2]. reflexivity.
Qed.

Lemma state_of_try_ret {S A} (m : M S A) (a : A) (s : S) :
  state_of (try_catch m (mret a) s) = state_of (m s).
Proof. unfold_m. destruct (m s) as [[[a'|] s1] l1]; reflexivity. Qed.

Lemma value_of_in_db {A} (m : M (Db.state T) A) w :
  value_of (Server.in_db m w) = value_of (m (Server.db w)).
Proof. unfold Server.in_db. unfold_m. destruct (m (Server.db w)) as [[r s1] l1]. reflexivity. Qed.

Lemma statement_stored name effect now s k :
  Db.stored k (state_of (Db.run (Db.Statement name effect) now s)) = Db.stored k s.
Proof.
  destruct (run_cases (Db.Statement name effect) now s)
    as [[_ ->]|(d & d' & Hd & Hrun & _ & Hd')]; [reflexivity|].
  unfold Db.stored. rewrite Hd', Hd. simpl in Hrun.
  destruct (effect (Db.tables d)); inversion Hrun; reflexivity.
Qed.

Lemma statements_stored name (fs : list (T → option T)) now s k :
  Db.stored k (state_of (Db.transaction (List.map (Db.Statement name) fs) now s))
  = Db.stored k s.
Proof.
  assert (Hk : keeps (λ s', Db.stored k s' = Db.stored k s)
                 (Db.transaction (List.map (Db.Statement name) fs) now)).
  { apply keeps_get_bind. intros s0 H0. destruct (Db.db s0) as [d0|] eqn:Hd0; [|exact H0].
    apply keeps_try_catch; [| |exact H0].
    - apply keeps_bind.
      + induction fs as [|f fs IH]; simpl; [apply keeps_ret|].
        apply keeps_bind; [|intros _; exact IH].
        intros s1 H1. rewrite statement_stored. exact H1.
      + intros _ s1 H1. rewrite scheduleSave_stored. exact H1.
    - apply keeps_bind; [|intros _; apply keeps_throw].
      apply keeps_modify. intros s1 _. rewrite <- H0. unfold Db.stored. simpl.
      rewrite Hd0. reflexivity. }
  apply Hk. reflexivity.
Qed.

Lemma bumpVersion_other stamp key now s k :
  k ≠ key → Db.stored k (state_of (Db.bumpVersion stamp key now s)) = Db.stored k s.
Proof.
  intros Hne. unfold Db.bumpVersion. rewrite state_of_bind.
  assert (Hrun : Db.stored k (state_of (Db.run (Db.IncrementVersion stamp key) now s))
                 = Db.stored k s).
  { destruct (run_cases (Db.IncrementVersion stamp key) now s)
      as [[_ ->]|(d & d' & Hd & Hrun & _ & Hd')]; [reflexivity|].
    unfold Db.stored. rewrite Hd', Hd. simpl in Hrun. inversion Hrun; subst d'.
    unfold Db.increment_version. simpl.
    destruct (Db.data_versions d !! key); [|reflexivity].
    apply lookup_insert_ne. congruence. }
  destruct (value_of _); [|exact Hrun]. rewrite current_version_state. exact Hrun.
Qed.

Lemma notifyClients_state type w :
  Server.db (state_of (Server.notifyClients type w)) = Server.db w
  ∧ Server.cache (state_of (Server.notifyClients type w)) = Server.cache w.
Proof.
  unfold Server.notifyClients. rewrite state_of_bind, in_db_state, current_version_state.
  destruct (value_of _); [|auto]. rewrite in_hub_state. auto.
Qed.

Lemma announce_state domain stamp now w :
  let out := state_of ((Server.in_db (Db.bumpVersion stamp domain now)
                        ≫= λ _, Server.notifyClients domain) w) in
  Server.cache out = Server.cache w
  ∧ Server.db out = state_of (Db.bumpVersion stamp domain now (Server.db w)).
Proof.
  intros out. subst out. rewrite state_of_bind, in_db_state.
  destruct (value_of _); [|auto].
  destruct (notifyClients_state domain
              (Server.World (state_of (Db.bumpVersion stamp domain now (Server.db w)))
                 (Server.cache w) (Server.sseManager w))) as [-> ->]. auto.
Qed.

Lemma invalidate_and_notify_state domain stamp now w :
  Server.cache (state_of (Server.invalidate_and_notify domain stamp now w))
  = Cache.invalidate domain (Server.cache w)
  ∧ Server.db (state_of (Server.invalidate_and_notify domain stamp now w))
    = state_of (Db.bumpVersion stamp domain now (Server.db w)).
Proof.
  assert (Hval : value_of (Server.cache_invalidate domain w) = Ok tt) by reflexivity.
  assert (Hst : state_of (Server.cache_invalidate domain w)
                = Server.World (Server.db w) (Cache.invalidate domain (Server.cache w))
                    (Server.sseManager w)) by reflexivity.
  unfold Server.invalidate_and_notify. rewrite state_of_bind, Hval, Hst.
  apply (announce_state domain stamp now
           (Server.World (Server.db w) (Cache.invalidate domain (Server.cache w))
              (Server.sseManager w))).
Qed.

Lemma mutation_state domain (writes : M (Db.state T) unit) stamp now w :
  state_of (Server.mutation domain None writes stamp now w)
  = match value_of (writes (Server.db w)) with
    | Ok _ => state_of (Server.invalidate_and_notify domain stamp now
                          (Server.World (state_of (writes (Server.db w)))
                             (Server.cache w) (Server.sseManager w)))
    | Throw => Server.World (state_of (writes (Server.db w)))
                 (Server.cache w) (Server.sseManager w)
    end.
Proof.
  unfold Server.mutation. rewrite state_of_try_ret, state_of_bind.
  rewrite value_of_in_db, in_db_state.
  destruct (value_of (writes (Server.db w))); [|reflexivity].
  rewrite state_of_bind. destruct (value_of _); reflexivity.
Qed.

(** A mutation whose statements leave the version rows alone keeps
    the cache current. *)
Lemma mutation_current domain refusal (writes : M (Db.state T) unit) stamp now w :
  (∀ s k, Db.stored k (state_of (writes s)) = Db.stored k s) →
  Server.cache_current w →
  Server.cache_current (state_of (Server.mutation domain refusal writes stamp now w)).
Proof.
  intros Hwrites Hw. destruct refusal as [code|]; [exact Hw|].
  rewrite mutation_state. destruct (value_of (writes (Server.db w))).
  - destruct (invalidate_and_notify_state domain stamp now
                (Server.World (state_of (writes (Server.db w)))
                   (Server.cache w) (Server.sseManager w))) as [Hc Hd].
    intros k e He. rewrite Hc in He. simpl in He.
    destruct (decide (k = domain)) as [->|Hne]; [rewrite lookup_delete_eq in He; discriminate|].
    rewrite lookup_delete_ne in He by congruence.
    destruct (Hw k e He) as [Htr Hv]. split; [exact Htr|]. rewrite Hv.
    unfold Server.stored_version. rewrite Hd. cbn [Server.db].
    rewrite bumpVersion_other by exact Hne. rewrite Hwrites. reflexivity.
  - intros k e He. destruct (Hw k e He) as [Htr Hv]. split; [exact Htr|]. rewrite Hv.
    unfold Server.stored_version. cbn [Server.db]. rewrite Hwrites. reflexivity.
Qed.

Lemma read_current domain max_age (materialize : T → json) clientVersion now w :
  (∀ t, truthy (materialize t) = true) →
  Server.cache_current w →
  Server.cache_current
    (state_of (Server.read_domain domain max_age materialize clientVersion now w)).
Proof.
  intros Htruthy Hw. destruct (Db.db (Server.db w)) as [d|] eqn:Hd;
    [|rewrite read_domain_closed by exact Hd; exact Hw].
  rewrite (read_domain_run _ _ _ _ _ _ d Hd).
  assert (Hsv : ∀ c h, Server.stored_version domain (Server.World (Server.db w) c h)
                       = or_default (Db.version <$> Db.data_versions d !! domain) 0).
  { intros c h. unfold Server.stored_version, Db.stored. simpl. rewrite Hd. reflexivity. }
  assert (Hkeep : ∀ h, Server.cache_current
            (Server.World (Server.db w) (snd (Cache.get now domain (Server.cache w))) h)).
  { intros h k e He. simpl in He. unfold Server.stored_version. simpl.
    apply (Hw k e). unfold Cache.get in He.
    destruct (Cache.cache (Server.cache w) !! domain) as [e0|] eqn:He0; [|exact He].
    destruct (now >? Cache.expiresAt e0); [|exact He]. simpl in He.
    destruct (decide (k = domain)) as [->|Hne]; [rewrite lookup_delete_eq in He; discriminate|].
    rewrite lookup_delete_ne in He by congruence. exact He. }
  assert (Hmiss : Server.cache_current
            (Server.World (Server.db w)
               (Cache.set now now domain (materialize (Db.tables d))
                  (or_default (Db.version <$> Db.data_versions d !! domain) 0)
                  (snd (Cache.get now domain (Server.cache w))))
               (Server.sseManager w))).
  { intros k e He. simpl in He. destruct (decide (k = domain)) as [->|Hne].
    - rewrite lookup_insert_eq in He. inversion He; subst e. simpl.
      split; [apply Htruthy|]. rewrite Hsv. reflexivity.
    - rewrite lookup_insert_ne in He by congruence.
      apply (Hkeep (Server.sseManager w) k e). exact He. }
  destruct (Server.not_modified _ _); [exact Hw|].
  destruct (fst (Cache.get now domain (Server.cache w))) as [p|];
    [destruct (truthy p)|]; unfold state_of; cbn [fst snd]; [apply Hkeep|exact Hmiss..].
Qed.

Lemma get_events_state res w :
  Server.db (state_of (Server.get_events res w)) = Server.db w
  ∧ Server.cache (state_of (Server.get_events res w)) = Server.cache w.
Proof.
  assert (Hk : keeps (λ w', Server.db w' = Server.db w ∧ Server.cache w' = Server.cache w)
                 (Server.get_events res)).
  { assert (Hhub : ∀ A (m : M Hub.state A),
              keeps (λ w', Server.db w' = Server.db w ∧ Server.cache w' = Server.cache w)
                (Server.in_hub m)).
    { intros A m w0 H0. rewrite in_hub_state. exact H0. }
    assert (Hcur : ∀ key,
              keeps (λ w', Server.db w' = Server.db w ∧ Server.cache w' = Server.cache w)
                (Server.in_db (Db.current_version key))).
    { intros key w0 H0. rewrite in_db_state, current_version_state. destruct w0; exact H0. }
    apply keeps_get_bind. intros w0 H0. destruct (Hub.isAtCapacity _); [exact H0|].
    apply (keeps_bind _ _ _ (Hhub _ _)); [|exact H0]. intros ?.
    apply (keeps_bind _ _ _ (Hcur _)). intros ?.
    apply (keeps_bind _ _ _ (Hcur _)). intros ?.
    apply (keeps_bind _ _ _ (Hcur _)). intros ?.
    apply (keeps_bind _ _ _ (Hhub _ _)). intros ?. apply keeps_ret. }
  apply Hk. auto.
Qed.

(** *** The cache across requests *)

Context (getAllRaffles : T → list json) (getRules : T → option string)
        (getAllSponsors : T → list json).

Local Abbreviation handle := (Server.handle getAllRaffles getRules getAllSponsors).
Local Abbreviation serve := (Server.serve getAllRaffles getRules getAllSponsors).

Lemma cache_current_frame w w' :
  Server.db w' = Server.db w → Server.cache w' = Server.cache w →
  Server.cache_current w → Server.cache_current w'.
Proof.
  unfold Server.cache_current, Server.stored_version. intros -> ->. auto.
Qed.

Lemma handle_current now stamp (r : Server.request T) :
  keeps Server.cache_current (handle now stamp r).
Proof.
  intros w Hw. destruct r; simpl; rewrite state_of_then_ret.
  - apply read_current; [reflexivity|exact Hw].
  - apply read_current; [reflexivity|exact Hw].
  - apply read_current; [reflexivity|exact Hw].
  - destruct (get_events_state res w) as [Hd Hc]. apply (cache_current_frame w); assumption.
  - apply mutation_current; [|exact Hw]. intros s k. apply statement_stored.
  - apply mutation_current; [|exact Hw]. intros s k. apply statements_stored.
  - apply mutation_current; [|exact Hw]. intros s k. rewrite state_of_bind.
    destruct (value_of _); [|apply statement_stored].
    destruct updateRaffleImage as [g|].
    + rewrite statement_stored. apply statement_stored.
    + apply statement_stored.
  - unfold Server.put_raffle_url. rewrite state_of_try_ret.
    destruct refusal as [code|]; [exact Hw|]. rewrite state_of_bind, in_db_state.
    assert (Hrun : Server.cache_current
              (Server.World
                 (state_of (Db.run (Db.Statement "updateRaffle" updateRaffle) now
                              (Server.db w)))
                 (Server.cache w) (Server.sseManager w))).
    { intros k e He. destruct (Hw k e He) as [Htr Hv]. split; [exact Htr|]. rewrite Hv.
      unfold Server.stored_version. cbn [Server.db]. rewrite statement_stored. reflexivity. }
    destruct (value_of _); exact Hrun.
  - unfold Server.put_raffle_downloaded. rewrite state_of_try_ret.
    destruct downloaded; [|exact Hw].
    pose proof (mutation_current "raffles" None
                  (Db.run (Db.Statement "updateRaffleImage" updateRaffleImage) now)
                  stamp now w (λ s k, statement_stored _ _ now s k) Hw) as Hm.
    unfold Server.mutation in Hm. rewrite state_of_try_ret in Hm. exact Hm.
  - apply mutation_current; [|exact Hw]. intros s k. apply statement_stored.
  - apply mutation_current; [|exact Hw]. intros s k. apply statement_stored.
  - apply mutation_current; [|exact Hw]. intros s k. apply statement_stored.
  - apply mutation_current; [|exact Hw]. intros s k. apply statement_stored.
  - apply mutation_current; [|exact Hw]. intros s k. apply statement_stored.
Qed.


(** *** After a mutation *)

Lemma bumpVersion_db stamp key now s d :
  Db.db s = Some d →
  Db.db (state_of (Db.bumpVersion stamp key now s))
  = Some (Db.increment_version stamp key d).
Proof.
  intros Hd. unfold Db.bumpVersion. rewrite state_of_bind.
  rewrite (run_open (Db.IncrementVersion stamp key) now s d _ Hd eq_refl).
  unfold value_of at 1, state_of at 1 3. cbn [fst snd].
  rewrite current_version_state. rewrite (proj1 (scheduleSave_db now _)). reflexivity.
Qed.

(** X19.  After a mutation that went through, the stored version of the
    domain is one more than before and the cache has no entry for the
    domain.  The next read of the domain, with no token or with the token of
    the version before, is answered 200 with the payload computed from the
    tables as the mutation left them and with the new version as ETag; a
    client that presents the new version is answered 304. *)
Theorem read_after_mutation domain (writes : M (Db.state T) unit) stamp now w s1 issued r d1
    max_age (materialize : T → json) clientVersion now' :
  writes (Server.db w) = (Ok tt, s1, issued) →
  Db.db s1 = Some d1 → Db.data_versions d1 !! domain = Some r →
  clientVersion = None ∨ clientVersion = Some (to_string (Db.version r)) →
  let w1 := state_of (Server.mutation domain None writes stamp now w) in
  Server.stored_version domain w1 = Db.version r + 1
  ∧ Cache.cache (Server.cache w1) !! domain = None
  ∧ value_of (Server.read_domain domain max_age materialize clientVersion now' w1)
    = Ok (Server.Response 200
            [("ETag"%string, to_string (Db.version r + 1));
             ("Cache-Control"%string, max_age)]
            (Some (materialize (Db.tables d1))))
  ∧ value_of (Server.read_domain domain max_age materialize
                (Some (to_string (Db.version r + 1))) now' w1)
    = Ok (Server.Response 304 [] None).
Proof.
  intros Hwrites Hd1 Hr Htoken w1.
  assert (Hw1 : Server.cache w1 = Cache.invalidate domain (Server.cache w)
                ∧ Db.db (Server.db w1) = Some (Db.increment_version stamp domain d1)).
  { subst w1. rewrite mutation_state, Hwrites. triples. cbv iota.
    destruct (invalidate_and_notify_state domain stamp now
                (Server.World s1 (Server.cache w) (Server.sseManager w))) as [-> ->].
    split; [reflexivity|]. apply bumpVersion_db. exact Hd1. }
  destruct Hw1 as [Hc Hdb].
  assert (Hrow : Db.data_versions (Db.increment_version stamp domain d1) !! domain
                 = Some (Db.Row (Db.version r + 1) stamp)).
  { unfold Db.increment_version. simpl. rewrite Hr. apply lookup_insert_eq. }
  assert (Hsv : Server.stored_version domain w1 = Db.version r + 1).
  { unfold Server.stored_version, Db.stored. rewrite Hdb, Hrow. simpl. apply or_default_zero. }
  assert (Habsent : Cache.cache (Server.cache w1) !! domain = None)
    by (rewrite Hc; simpl; apply lookup_delete_eq).
  split; [exact Hsv|]. split; [exact Habsent|].
  rewrite !(read_domain_run _ _ _ _ _ _ _ Hdb). rewrite Hrow. simpl fmap.
  rewrite or_default_zero. split.
  - assert (Hnm : Server.not_modified clientVersion (Db.version r + 1) = false).
    { destruct Htoken as [->| ->]; [reflexivity|].
      destruct (Server.not_modified _ _) eqn:Hnm; [|reflexivity].
      apply not_modified_issued in Hnm. lia. }
    rewrite Hnm. unfold Cache.get. rewrite Habsent. reflexivity.
  - rewrite (proj2 (not_modified_issued (Db.version r + 1) (Db.version r + 1)) eq_refl).
    reflexivity.
Qed.

(** *** Mutations that do not go through *)

(** X20.  A mutation that is refused answers with the status of the refusal
    and touches nothing.  One whose statements throw answers 500 without
    invalidating the cache, incrementing the version or broadcasting: cache
    and hub are as before.  For a single statement the database module is as
    before too; for a reordering, which runs in a transaction, the tables
    and the version rows are as before. *)
Theorem mutation_failure domain refusal (writes : M (Db.state T) unit) stamp now w :
  let out := Server.mutation domain refusal writes stamp now w in
  let failed code :=
    Ok (Server.Response code [] (Some (JObj [("success"%string, JBool false)]))) in
  (∀ code, refusal = Some code → out = (failed code, w, []))
  ∧ (refusal = None → ∀ s1 issued, writes (Server.db w) = (Throw, s1, issued) →
       out = (failed 500, Server.World s1 (Server.cache w) (Server.sseManager w), issued))
  ∧ (refusal = None → ∀ name effect d,
       writes = Db.run (Db.Statement name effect) now →
       Db.db (Server.db w) = Some d → effect (Db.tables d) = None →
       out = (failed 500, w, []))
  ∧ (refusal = None → ∀ name fs d,
       writes = Db.transaction (List.map (Db.Statement name) fs) now →
       Db.db (Server.db w) = Some d →
       Db.apply_all (List.map (Db.Statement name) fs) d = None →
       value_of out = failed 500
       ∧ Db.db (Server.db (state_of out)) = Some d
       ∧ Server.cache (state_of out) = Server.cache w
       ∧ Server.sseManager (state_of out) = Server.sseManager w)
  ∧ (refusal = None → Db.db (Server.db w) = None →
       (∃ st, writes = Db.run st now) ∨ (∃ sts, writes = Db.transaction sts now) →
       out = (failed 500, w, [])).
Proof.
  intros out failed. subst out failed.
  assert (Hthrow : ∀ s1 issued, writes (Server.db w) = (Throw, s1, issued) →
            Server.mutation domain None writes stamp now w
            = (Ok (Server.Response 500 [] (Some (JObj [("success"%string, JBool false)]))),
               Server.World s1 (Server.cache w) (Server.sseManager w), issued)).
  { intros s1 issued Hw. unfold Server.mutation, Server.in_db. unfold_m. rewrite Hw.
    rewrite app_nil_r. reflexivity. }
  split; [intros code ->; reflexivity|]. split; [intros ->; exact Hthrow|].
  split; [|split].
  - intros -> name effect d -> Hd Heff.
    rewrite (Hthrow (Server.db w) []); [destruct w; reflexivity|].
    unfold Db.run, Db.db_run. unfold_m. rewrite Hd, Heff. reflexivity.
  - intros -> name fs d -> Hd Hfail.
    destruct (transaction_cases (List.map (Db.Statement name) fs) now (Server.db w) d Hd)
      as [Hcase _]. rewrite Hfail in Hcase. destruct Hcase as [Hval Hdb].
    unfold value_of, state_of in Hval, Hdb.
    destruct (Db.transaction (List.map (Db.Statement name) fs) now (Server.db w))
      as [[r s1] issued] eqn:Hrun. simpl in Hval, Hdb. subst r.
    rewrite (Hthrow s1 issued eq_refl). triples. auto.
  - intros -> Hd Hshape.
    rewrite (Hthrow (Server.db w) []); [destruct w; reflexivity|].
    destruct Hshape as [[st ->]|[sts ->]].
    + unfold Db.run. unfold_m. rewrite Hd. reflexivity.
    + unfold Db.transaction. unfold_m. rewrite Hd. reflexivity.
Qed.


(** *** Subscribing *)

(** X22.  [GET /api/events] at capacity answers 503 and touches nothing.
    Otherwise, for a new response that accepts writes and with the database
    open, the response joins the live set and is sent the stream headers,
    the heartbeat and then one 'version' event with the stored versions of
    the three domains; the handler sends no body, and database and cache are
    as before. *)
Theorem get_events_spec res w :
  let out := Server.get_events res w in
  let hub := Server.sseManager w in
  (Hub.isAtCapacity hub = true →
     out = (Ok (Some (Server.Response 503 [] (Some (JObj [("success"%string, JBool false)])))),
            w, []))
  ∧ (Hub.isAtCapacity hub = false →
     ∀ ch d, Hub.channels hub !! res = Some ch → Hub.writable ch = true →
       res ∉ Hub.clients hub → Db.db (Server.db w) = Some d →
       let versions :=
         JObj [("raffles"%string, JNum (Server.stored_version "raffles" w));
               ("rules"%string, JNum (Server.stored_version "rules" w));
               ("sponsors"%string, JNum (Server.stored_version "sponsors" w))] in
       value_of out = Ok None
       ∧ trace_of out = [AWrite res Hub.heartbeat_frame true;
                         AWrite res (Hub.frame "version" versions) true]
       ∧ Server.db (state_of out) = Server.db w
       ∧ Server.cache (state_of out) = Server.cache w
       ∧ Hub.clients (Server.sseManager (state_of out)) = Hub.clients hub ++ [res]
       ∧ Hub.channels (Server.sseManager (state_of out)) !! res
         = Some (Hub.push (Hub.frame "version" versions) (Hub.admitted res ch))).
Proof.
  intros out hub. subst out hub. split.
  - intros Hcap. unfold Server.get_events. unfold_m. rewrite Hcap. reflexivity.
  - intros Hcap ch d Hch Hw Hnew Hd versions.
    assert (Hroom : (length (Hub.clients (Server.sseManager w))
                     < Hub.maxConnections (Server.sseManager w))%nat).
    { unfold Hub.isAtCapacity in Hcap. apply Nat.leb_gt. exact Hcap. }
    pose proof (addClient_admits (Server.sseManager w) res ch Hroom Hch Hw) as Hadd.
    set (hub1 := Hub.State (Hub.set_add res (Hub.clients (Server.sseManager w)))
                   (Hub.maxConnections (Server.sseManager w))
                   (Hub.heartbeatInterval (Server.sseManager w))
                   (<[res := Hub.admitted res ch]> (Hub.channels (Server.sseManager w)))) in *.
    assert (Hcur : ∀ key c h,
              Db.current_version key (Server.db (Server.World (Server.db w) c h))
              = (Ok (Server.stored_version key w), Server.db w, [])).
    { intros key c h. simpl. rewrite (current_version_run key _ d Hd).
      unfold Server.stored_version, Db.stored. rewrite Hd. reflexivity. }
    assert (Hsend : Hub.sendToClient res "version" versions hub1
                    = (Ok tt,
                       Hub.set_channels
                         (<[res := Hub.push (Hub.frame "version" versions)
                                     (Hub.admitted res ch)]> (Hub.channels hub1)) hub1,
                       [AWrite res (Hub.frame "version" versions) true])).
    { rewrite sendToClient_run. unfold Hub.set_has.
      rewrite bool_decide_eq_true_2 by (subst hub1; simpl; apply set_add_elem).
      assert (Hcw : Hub.can_write hub1 res = true).
      { unfold Hub.can_write. subst hub1. simpl. rewrite lookup_insert_eq.
        unfold Hub.admitted. simpl. exact Hw. }
      rewrite Hcw. unfold Hub.deliver. simpl. subst hub1. simpl.
      rewrite lookup_insert_eq. unfold Hub.admitted at 1. simpl. rewrite Hw. reflexivity. }
    assert (Hout : Server.get_events res w
                   = (Ok None,
                      Server.World (Server.db w) (Server.cache w)
                        (Hub.set_channels
                           (<[res := Hub.push (Hub.frame "version" versions)
                                       (Hub.admitted res ch)]> (Hub.channels hub1)) hub1),
                      [AWrite res Hub.heartbeat_frame true;
                       AWrite res (Hub.frame "version" versions) true])).
    { unfold Server.get_events. unfold mbind at 1. unfold M_bind, bind, get_state.
      rewrite Hcap.
      unfold mbind at 1. unfold M_bind, bind. unfold Server.in_hub at 1. unfold zoom.
      rewrite Hadd.
      unfold mbind at 1. unfold M_bind, bind. unfold Server.in_db at 1. unfold zoom.
      rewrite Hcur. cbn [Server.db Server.cache Server.sseManager].
      unfold mbind at 1. unfold M_bind, bind. unfold Server.in_db at 1. unfold zoom.
      rewrite Hcur. cbn [Server.db Server.cache Server.sseManager].
      unfold mbind at 1. unfold M_bind, bind. unfold Server.in_db at 1. unfold zoom.
      rewrite Hcur. cbn [Server.db Server.cache Server.sseManager].
      unfold mbind at 1. unfold M_bind, bind. unfold Server.in_hub at 1. unfold zoom.
      cbn [Server.db Server.cache Server.sseManager]. fold versions. rewrite Hsend.
      reflexivity. }
    rewrite Hout. triples. cbn [Server.db Server.cache Server.sseManager].
    split; [reflexivity|]. split; [reflexivity|]. split; [reflexivity|].
    split; [reflexivity|]. split.
    + subst hub1. simpl. unfold Hub.set_add. rewrite decide_False by exact Hnew. reflexivity.
    + simpl. apply lookup_insert_eq.
Qed.

End ServerReads.

(** ** The authentication cache *)

Section AuthMap.

Implicit Types (m : Auth.cache) (key : string).

Lemma map_get_set key v m : Auth.map_get key (Auth.map_set key v m) = Some v.
Proof.
  induction m as [|[k x] m IH]; simpl.
  - rewrite decide_True by reflexivity. reflexivity.
  - destruct (decide (k = key)) as [->|Hne]; simpl.
    + rewrite decide_True by reflexivity. reflexivity.
    + rewrite decide_False by exact Hne. exact IH.
Qed.

Lemma map_get_set_ne key key' v m :
  key' ≠ key → Auth.map_get key' (Auth.map_set key v m) = Auth.map_get key' m.
Proof.
  intros Hne. induction m as [|[k x] m IH]; simpl.
  - rewrite decide_False by congruence. reflexivity.
  - destruct (decide (k = key)) as [->|Hk]; simpl.
    + rewrite !decide_False by congruence. reflexivity.
    + destruct (decide (k = key')); [reflexivity|exact IH].
Qed.

Lemma map_get_None key m : key ∉ fst <$> m → Auth.map_get key m = None.
Proof.
  induction m as [|[k x] m IH]; simpl; [reflexivity|].
  rewrite not_elem_of_cons. intros [Hne Hnotin].
  rewrite decide_False by congruence. apply IH. exact Hnotin.
Qed.

Lemma map_set_new key v m :
  key ∉ fst <$> m → Auth.map_set key v m = m ++ [(key, v)].
Proof.
  induction m as [|[k x] m IH]; simpl; [reflexivity|].
  rewrite not_elem_of_cons. intros [Hne Hnotin].
  rewrite decide_False by congruence. rewrite IH by exact Hnotin. reflexivity.
Qed.

Lemma map_set_keys key v m :
  fst <$> Auth.map_set key v m
  = if decide (key ∈ fst <$> m) then fst <$> m else (fst <$> m) ++ [key].
Proof.
  induction m as [|[k x] m IH].
  - destruct (decide (key ∈ fst <$> [])) as [Hin|_]; [|reflexivity].
    apply elem_of_nil in Hin. contradiction.
  - cbn [Auth.map_set]. destruct (decide (k = key)) as [->|Hne].
    + destruct (decide (key ∈ fst <$> (key, x) :: m)) as [_|Hout]; [reflexivity|].
      exfalso. apply Hout. left.
    + rewrite fmap_cons, IH. cbn [fst].
      destruct (decide (key ∈ fst <$> m)) as [Hin|Hout];
        destruct (decide (key ∈ fst <$> (k, x) :: m)) as [Hin'|Hout']; try reflexivity.
      * exfalso. apply Hout'. right. exact Hin.
      * exfalso. rewrite fmap_cons in Hin'. apply elem_of_cons in Hin' as [Heq|Hin'];
          [cbn in Heq; congruence|contradiction].
Qed.

Lemma map_set_length key v m :
  length (Auth.map_set key v m)
  = if decide (key ∈ fst <$> m) then length m else S (length m).
Proof.
  rewrite <- (length_fmap fst), map_set_keys.
  destruct (decide (key ∈ fst <$> m)); rewrite ?length_app, !length_fmap; simpl; lia.
Qed.

Lemma map_set_NoDup key v m : NoDup (fst <$> m) → NoDup (fst <$> Auth.map_set key v m).
Proof.
  intros Hnd. rewrite map_set_keys. destruct (decide (key ∈ fst <$> m)); [exact Hnd|].
  apply NoDup_app. split; [exact Hnd|]. split; [|apply NoDup_singleton].
  intros x Hx Hx'. apply list_elem_of_singleton in Hx'. subst. contradiction.
Qed.

Lemma filter_keys_NoDup (P : string * Z → Prop) `{!∀ kv, Decision (P kv)} m :
  NoDup (fst <$> m) → NoDup (fst <$> filter P m).
Proof.
  induction m as [|[k x] m IH]; intros Hnd; [apply NoDup_nil_2|].
  rewrite fmap_cons in Hnd. apply NoDup_cons in Hnd as [Hnotin Hnd].
  destruct (decide (P (k, x))).
  - rewrite filter_cons_True by assumption. rewrite fmap_cons. apply NoDup_cons.
    split; [|auto]. intros Hin. apply Hnotin.
    apply list_elem_of_fmap in Hin as [[k' x'] [Heq Hin]].
    cbn in Heq. subst k'. apply list_elem_of_filter in Hin as [_ Hin].
    apply list_elem_of_fmap. exists (k, x'). auto.
  - rewrite filter_cons_False by assumption. auto.
Qed.

Lemma delete_head k x m :
  k ∉ fst <$> m → Auth.map_delete k ((k, x) :: m) = m.
Proof.
  intros Hnotin. unfold Auth.map_delete.
  rewrite filter_cons_False by (simpl; tauto).
  apply filter_all. intros [k' x'] Hin. simpl. intros ->. apply Hnotin.
  apply list_elem_of_fmap. exists (k, x'). auto.
Qed.

Lemma authenticated_state now key (isValid : bool) m :
  Auth.authenticated now key isValid m
  = (Ok isValid,
     if isValid
     then Auth.map_set key (now + Auth.AUTH_CACHE_TTL)
            (if (Auth.AUTH_CACHE_MAX <=? length m)%nat
             then match m with
                  | (oldestKey, _) :: _ => Auth.map_delete oldestKey m
                  | [] => m
                  end
             else m)
     else m,
     []).
Proof.
  unfold Auth.authenticated, mbind, mret, M_bind, M_ret, bind, ret, get_state, modify.
  destruct isValid; [|reflexivity].
  destruct (Auth.AUTH_CACHE_MAX <=? length m)%nat; [|reflexivity].
  destruct m as [|[k x] m]; reflexivity.
Qed.

(** X23.  A failed comparison leaves the cache alone.  A successful one for
    a key that is not cached appends an entry that expires five minutes
    later; when the cache is full, the entry that was inserted first is
    deleted to make room, whether or not it has expired, and all others stay
    in their order. *)
Theorem authenticated_evicts_oldest now key m :
  NoDup (fst <$> m) → key ∉ fst <$> m →
  Auth.authenticated now key false m = (Ok false, m, [])
  ∧ value_of (Auth.authenticated now key true m) = Ok true
  ∧ ((length m < 100)%nat →
       state_of (Auth.authenticated now key true m) = m ++ [(key, now + 300000)])
  ∧ (∀ oldest expiresAt rest, m = (oldest, expiresAt) :: rest → length m = 100%nat →
       state_of (Auth.authenticated now key true m) = rest ++ [(key, now + 300000)]
       ∧ Auth.map_get oldest (state_of (Auth.authenticated now key true m)) = None).
Proof.
  intros Hnd Hnew. rewrite !authenticated_state. unfold value_of, state_of. cbn [fst snd].
  split; [reflexivity|]. split; [reflexivity|]. split.
  - intros Hlt. replace (Auth.AUTH_CACHE_MAX <=? length m)%nat with false
      by (symmetry; apply Nat.leb_gt; unfold Auth.AUTH_CACHE_MAX; lia).
    apply map_set_new. exact Hnew.
  - intros oldest expiresAt rest -> Hlen.
    replace (Auth.AUTH_CACHE_MAX <=? length ((oldest, expiresAt) :: rest))%nat with true
      by (symmetry; apply Nat.leb_le; unfold Auth.AUTH_CACHE_MAX; lia).
    simpl in Hnd, Hnew. apply NoDup_cons in Hnd as [Hnotin Hnd].
    apply not_elem_of_cons in Hnew as [Hne Hnew].
    rewrite delete_head by exact Hnotin. rewrite map_set_new by exact Hnew.
    split; [reflexivity|]. apply map_get_None.
    rewrite fmap_app. simpl. rewrite elem_of_app, list_elem_of_singleton.
    intros [Hin|Heq]; [contradiction|congruence].
Qed.

End AuthMap.

Section AuthFacts.

Context {T : Type}.
Context (toLowerCase : string → string) (sha256 : string → string)
        (compare : string → string → bool)
        (getUserByUsername : T → string → option string).

Implicit Types (m : Auth.cache) (key : string).

Local Abbreviation authenticate :=
  (Auth.authenticate toLowerCase sha256 compare getUserByUsername).
Local Abbreviation getAuthCacheKey := (Auth.getAuthCacheKey toLowerCase sha256).
Local Abbreviation exec := (Auth.exec toLowerCase sha256 compare getUserByUsername).
Local Abbreviation exec_all := (Auth.exec_all toLowerCase sha256 compare getUserByUsername).

Lemma authenticate_state now db username password m :
  state_of (authenticate now db username password m) = m.
Proof.
  unfold Auth.authenticate, state_of, mbind, mret, M_bind, M_ret, bind, ret, get_state, throw.
  destruct (Auth.map_get _ m) as [exp|]; [destruct (now <? exp); [reflexivity|]|];
    (destruct db as [t|]; [|reflexivity]);
     destruct (getUserByUsername t (toLowerCase username)); reflexivity.
Qed.

Lemma auth_bounded_exec (x : Auth.step T) m :
  (length m <= Auth.AUTH_CACHE_MAX)%nat ∧ NoDup (fst <$> m) →
  (length (state_of (exec x m)) <= Auth.AUTH_CACHE_MAX)%nat
  ∧ NoDup (fst <$> state_of (exec x m)).
Proof.
  intros [Hlen Hnd]. destruct x as [now db username password|now key isValid|now]; simpl.
  - rewrite state_of_then_ret, authenticate_state. auto.
  - rewrite state_of_then_ret, authenticated_state. unfold state_of. cbn [fst snd].
    destruct isValid; [|auto].
    destruct (Nat.leb_spec Auth.AUTH_CACHE_MAX (length m)) as [Hfull|Hroom].
    + destruct m as [|[k x] m]; [simpl in Hfull; unfold Auth.AUTH_CACHE_MAX in Hfull; lia|].
      simpl in Hnd. apply NoDup_cons in Hnd as [Hnotin Hnd].
      rewrite delete_head by exact Hnotin. split; [|apply map_set_NoDup; exact Hnd].
      rewrite map_set_length. simpl in Hlen. destruct (decide _); lia.
    + split; [|apply map_set_NoDup; exact Hnd].
      rewrite map_set_length. destruct (decide _); lia.
  - unfold Auth.cleanupAuthCache, state_of, modify. cbn [fst snd]. split.
    + etransitivity; [apply length_filter|exact Hlen].
    + apply filter_keys_NoDup. exact Hnd.
Qed.

(** X24.  However logins, their completions and the periodic clean-up
    interleave, the authentication cache never holds more than 100 entries
    and never two for the same key. *)
Theorem authCache_bounded (xs : list (Auth.step T)) :
  let m := exec_all xs [] in
  (length m <= 100)%nat ∧ NoDup (fst <$> m).
Proof.
  intros m. subst m.
  assert (H : ∀ m0, (length m0 <= Auth.AUTH_CACHE_MAX)%nat ∧ NoDup (fst <$> m0) →
              (length (exec_all xs m0) <= Auth.AUTH_CACHE_MAX)%nat
              ∧ NoDup (fst <$> exec_all xs m0)).
  { induction xs as [|x xs IH]; intros m0 H0; simpl; [exact H0|].
    apply IH. apply auth_bounded_exec. exact H0. }
  apply H. split; [simpl; unfold Auth.AUTH_CACHE_MAX; lia|apply NoDup_nil_2].
Qed.


End AuthFacts.

(** ** The scenarios *)

Section Scenarios.


Lemma get_after_invalidate_witness :
  forallb (Cache.no_set "raffles") Sample.later_calls = true
  ∧ Cache.get 100 "raffles"
      (Cache.exec_all Sample.later_calls
         (Cache.invalidate "raffles" (Cache.set 0 0 "raffles" 7 1 Cache.new)))
    = (None, Cache.exec_all Sample.later_calls
               (Cache.invalidate "raffles" (Cache.set 0 0 "raffles" 7 1 Cache.new))).
Proof.
  split; [reflexivity|].
  exact (get_after_invalidate (Cache.set 0 0 "raffles" 7 1 Cache.new) "raffles"
           Sample.later_calls 100 eq_refl).
Defined.


Lemma bumpVersion_unregistered_witness :
  Db.db Sample.idle = Some Sample.fresh
  ∧ value_of (Db.bumpVersion Sample.stamp "winners" 2000 Sample.idle) = Ok 0
  ∧ Db.db (state_of (Db.bumpVersion Sample.stamp "winners" 2000 Sample.idle))
    = Some Sample.fresh.
Proof.
  assert (H : Db.db Sample.idle = Some Sample.fresh) by (vm_compute; reflexivity).
  split; [exact H|].
  apply (proj1 (bumpVersion_unregistered tt id Sample.idle Sample.fresh "winners"
                  Sample.stamp 2000 H)).
  vm_compute. reflexivity.
Defined.

Lemma single_flight_witness :
  Db.reachable tt id None Sample.superseded
  ∧ Db.pendingWrite Sample.superseded = true
  ∧ Db.immediates (state_of (Db.resume_write true Sample.superseded)) = 1%nat
  ∧ length (Db.writing Sample.superseded) = 1%nat.
Proof.
  assert (H : Db.reachable tt id None Sample.superseded) by (repeat constructor).
  pose proof (single_flight tt id None Sample.superseded H) as (_ & Hw & _ & Hp).
  split; [exact H|]. split; [reflexivity|]. split.
  - exact (proj1 (proj2 (proj2 (proj2 (Hp eq_refl true))))).
  - apply Hw. reflexivity.
Defined.

(** C2 as the documents word it fails after [closeDb()]: the final save
    is under way, [db] is [null], and a further [saveDatabase()] returns
    at its first line with [pendingWrite] still unset. *)
Lemma single_flight_closed_handle :
  Db.reachable tt id None Sample.closing
  ∧ Db.isWriting Sample.closing = true
  ∧ length (Db.writing Sample.closing) = 1%nat
  ∧ Db.pendingWrite (state_of (Db.saveDatabase true Sample.closing)) = false
  ∧ ¬ Db.request_sets_pending Sample.closing.
Proof.
  split; [repeat constructor|]. split; [reflexivity|]. split; [reflexivity|].
  split; [reflexivity|]. intros H. specialize (H eq_refl true). discriminate.
Qed.


Lemma broadcast_spec_witness :
  NoDup (Hub.clients Sample.hub)
  ∧ Hub.clients (state_of (Hub.broadcast "update" (Server.update_event "raffles" 1) Sample.hub))
    = [1; 3]%nat
  ∧ length (Hub.clients
              (state_of (Hub.broadcast "update" (Server.update_event "raffles" 1) Sample.hub)))
    = (3 - 1)%nat.
Proof.
  assert (H : NoDup (Hub.clients Sample.hub))
    by (apply (bool_decide_unpack _); vm_compute; exact I).
  pose proof (broadcast_spec Sample.hub "update" (Server.update_event "raffles" 1) H)
    as (_ & _ & Hclients & Hlen & _).
  split; [exact H|]. split; [exact Hclients|exact Hlen].
Defined.

Lemma addClient_spec_witness :
  Hub.addClient 3 (snd (Hub.admit_all [1; 2]%nat Sample.small_hub))
  = (Ok false, snd (Hub.admit_all [1; 2]%nat Sample.small_hub), [])
  ∧ Hub.getClientCount (snd (Hub.admit_all [1; 2]%nat Sample.small_hub)) = 2%nat
  ∧ value_of (Hub.addClient 4 Sample.hub) = Ok true.
Proof.
  pose proof (addClient_spec Sample.small_hub 3) as (_ & _ & _ & Hfull).
  assert (Hnd : NoDup [1; 2]%nat) by (apply (bool_decide_unpack _); vm_compute; exact I).
  assert (Hcw : ∀ r, r ∈ [1; 2]%nat → Hub.can_write Sample.small_hub r = true).
  { intros r Hr. apply elem_of_cons in Hr as [->|Hr]; [reflexivity|].
    apply elem_of_cons in Hr as [->|Hr]; [reflexivity|].
    apply elem_of_nil in Hr. contradiction. }
  destruct (Hfull [1; 2]%nat Hnd eq_refl eq_refl Hcw) as (_ & Hcount & Hrej & _).
  split; [exact Hrej|]. split; [exact Hcount|].
  pose proof (addClient_spec Sample.hub 4) as (_ & Hroom & _).
  assert (Hlt : (length (Hub.clients Sample.hub) < Hub.maxConnections Sample.hub)%nat)
    by (vm_compute; lia).
  exact (proj1 (Hroom Hlt Sample.good eq_refl eq_refl)).
Defined.

Lemma mutation_order_witness :
  Server.steps (trace_of (Server.put_rules None Some Sample.stamp 2000 Sample.world))
  = [Server.Scheduled; Server.Invalidated "rules"; Server.Incremented "rules";
     Server.Scheduled; Server.Notified (Server.update_event "rules" 1)].
Proof.
  assert (Hw : Db.run (Db.Statement "upsertRules" Some) 2000 (Server.db Sample.world)
               = (Ok tt, state_of (Db.run (Db.Statement "upsertRules" Some) 2000
                                     (Server.db Sample.world)),
                  trace_of (Db.run (Db.Statement "upsertRules" Some) 2000
                              (Server.db Sample.world))))
    by (vm_compute; reflexivity).
  assert (Hr : Db.stored "rules"
                 (state_of (Db.run (Db.Statement "upsertRules" Some) 2000
                              (Server.db Sample.world)))
               = Some (Db.Row 0 Sample.stamp)) by (vm_compute; reflexivity).
  pose proof (mutation_order "rules" (Db.run (Db.Statement "upsertRules" Some) 2000)
                Sample.stamp 2000 Sample.world _ _ _ Hw Hr) as (_ & _ & Hone).
  assert (Hd : Db.db (Server.db Sample.world) = Some Sample.fresh) by (vm_compute; reflexivity).
  exact (proj1 (Hone "upsertRules" Some Sample.fresh tt eq_refl Hd eq_refl)).
Defined.

(** C7 as the documents word it fails on [PUT /api/rules]: in the trace
    of the handler the version increment comes after the cache
    invalidation, not before it. *)
Lemma mutation_order_documented :
  Server.in_order (Server.documented_order "rules")
    (Server.steps (trace_of (Server.put_rules None Some Sample.stamp 2000 Sample.world)))
  = false
  ∧ Server.steps (trace_of (Server.put_rules None Some Sample.stamp 2000 Sample.world))
    = [Server.Scheduled; Server.Invalidated "rules"; Server.Incremented "rules";
       Server.Scheduled; Server.Notified (Server.update_event "rules" 1)].
Proof. vm_compute. split; reflexivity. Qed.


(** *** The cache *)



Lemma cleanup_unobservable_witness :
  20000 <= 25000
  ∧ fst (Cache.get 25000 "raffles"
           (Cache.cleanup 20000 (Cache.set 0 0 "raffles" 7 1 Cache.new)))
    = fst (Cache.get 25000 "raffles" (Cache.set 0 0 "raffles" 7 1 Cache.new)).
Proof.
  assert (H : 20000 <= 25000) by lia.
  split; [exact H|].
  exact (proj1 (proj2 (cleanup_unobservable (Cache.set 0 0 "raffles" 7 1 Cache.new)
                         20000 25000 "raffles" H))).
Defined.

Lemma invalidateAll_clears_witness :
  forallb (Cache.no_set "raffles") Sample.later_calls = true
  ∧ Cache.getVersion "raffles"
      (Cache.exec_all Sample.later_calls
         (Cache.invalidateAll (Cache.set 0 0 "raffles" 7 1 Cache.new))) = 0.
Proof.
  split; [reflexivity|].
  exact (proj2 (proj2 (invalidateAll_clears (Cache.set 0 0 "raffles" 7 1 Cache.new)
                         "raffles" Sample.later_calls 100 eq_refl))).
Defined.

(** *** The hub *)

Lemma sendHeartbeatToAll_spec_witness :
  NoDup (Hub.clients Sample.hub)
  ∧ Hub.clients (state_of (Hub.sendHeartbeatToAll Sample.hub)) = [1; 3]%nat.
Proof.
  assert (H : NoDup (Hub.clients Sample.hub))
    by (apply (bool_decide_unpack _); vm_compute; exact I).
  split; [exact H|].
  exact (proj1 (proj2 (proj2 (sendHeartbeatToAll_spec Sample.hub H)))).
Defined.

Lemma sendToClient_spec_witness :
  (2%nat ∈ Hub.clients Sample.hub)
  ∧ Hub.can_write Sample.hub 2 = false
  ∧ Hub.clients (state_of (Hub.sendToClient 2 "version" JNull Sample.hub)) = [1; 3]%nat.
Proof.
  assert (Hin : 2%nat ∈ Hub.clients Sample.hub)
    by (apply (bool_decide_unpack _); vm_compute; exact I).
  split; [exact Hin|]. split; [reflexivity|].
  pose proof (sendToClient_spec Sample.hub 2 "version" JNull) as (_ & _ & _ & _ & H).
  exact (proj1 (H Hin eq_refl)).
Defined.

Lemma closeAll_spec_witness :
  Hub.channels Sample.hub !! 1%nat = Some Sample.good
  ∧ Hub.channels (state_of (Hub.closeAll Sample.hub)) !! 1%nat
    = Some (Hub.finished Sample.good).
Proof.
  assert (H : Hub.channels Sample.hub !! 1%nat = Some Sample.good) by reflexivity.
  split; [exact H|].
  pose proof (closeAll_spec Sample.hub "update" JNull) as (_ & _ & _ & _ & Hch & _).
  exact (Hch 1%nat Sample.good H).
Defined.

(** *** The database module *)

Lemma transaction_atomic_witness :
  Db.db Sample.idle = Some Sample.fresh
  ∧ value_of (Db.transaction Sample.bad_reorder 2000 Sample.idle) = Throw
  ∧ Db.db (state_of (Db.transaction Sample.bad_reorder 2000 Sample.idle))
    = Some Sample.fresh.
Proof.
  assert (H : Db.db Sample.idle = Some Sample.fresh) by (vm_compute; reflexivity).
  split; [exact H|].
  exact (proj1 (proj1 (transaction_atomic Sample.bad_reorder 2000 Sample.idle)
                  Sample.fresh H)).
Defined.

Lemma reachable_coherent_witness :
  Db.reachable tt id None Sample.superseded
  ∧ (length (Db.timers Sample.superseded) <= 1)%nat.
Proof.
  assert (H : Db.reachable tt id None Sample.superseded) by (repeat constructor).
  split; [exact H|].
  exact (proj1 (reachable_coherent tt id None Sample.superseded H)).
Defined.

Lemma closeDb_closes_witness :
  Db.reachable tt id None Sample.started
  ∧ Db.db (Db.after tt id 5 (Db.EClose true) Sample.started) = None
  ∧ Db.timers (Db.after tt id 5 (Db.EClose true) Sample.started) = [].
Proof.
  assert (H : Db.reachable tt id None Sample.started) by (repeat constructor).
  pose proof (closeDb_closes tt id None Sample.started true 5 H) as (Hd & _ & Ht & _).
  split; [exact H|]. split; [exact Hd|exact Ht].
Defined.

Lemma closeDb_final_save_witness :
  Db.reachable tt id None Sample.started
  ∧ Db.db Sample.started = Some Sample.fresh
  ∧ Db.disk (Db.after tt id 9 (Db.EWriteDone true)
               (Db.after tt id 5 (Db.EClose true) Sample.started))
    = Some Sample.fresh.
Proof.
  assert (H : Db.reachable tt id None Sample.started) by (repeat constructor).
  assert (Hd : Db.db Sample.started = Some Sample.fresh) by (vm_compute; reflexivity).
  split; [exact H|]. split; [exact Hd|].
  pose proof (closeDb_final_save tt id None Sample.started Sample.fresh O 5 9 []
                H Hd eq_refl eq_refl eq_refl) as (_ & _ & _ & Hdisk & _).
  exact Hdisk.
Defined.

Lemma closeDb_during_write_witness :
  Db.reachable tt id None Sample.superseded
  ∧ Db.isWriting Sample.superseded = true
  ∧ ∃ b, Db.writing Sample.superseded = [b]
         ∧ Db.disk (Db.after_all tt id [(1300, Db.EImmediate true)]
                      (Db.after tt id 1250 (Db.EWriteDone true)
                         (Db.after tt id 1200 (Db.EClose true) Sample.superseded)))
           = Some b.
Proof.
  assert (H : Db.reachable tt id None Sample.superseded) by (repeat constructor).
  assert (Hd : Db.db Sample.superseded = Some Sample.fresh) by (vm_compute; reflexivity).
  split; [exact H|]. split; [reflexivity|].
  destruct (closeDb_during_write tt id None Sample.superseded Sample.fresh O 1200 true
              1250 true [(1300, Db.EImmediate true)] H Hd eq_refl eq_refl eq_refl)
    as (b & Hb & _ & _ & _ & _ & Hdisk & _).
  exists b. split; [exact Hb|exact Hdisk].
Defined.

Lemma write_reaches_disk_witness :
  Db.reachable tt id None Sample.idle
  ∧ Db.db Sample.idle = Some Sample.fresh
  ∧ Db.timers (Db.after tt id 2000 (Db.ERun (Db.Statement "upsertRules" Some)) Sample.idle)
    = [(1%nat, 3000)].
Proof.
  assert (H : Db.reachable tt id None Sample.idle) by (repeat constructor).
  assert (Hd : Db.db Sample.idle = Some Sample.fresh) by (vm_compute; reflexivity).
  assert (Hdue : 2000 + Db.save_delay <= 3000) by (vm_compute; discriminate).
  split; [exact H|]. split; [exact Hd|].
  exact (proj1 (proj2 (write_reaches_disk tt id None Sample.idle Sample.fresh Sample.fresh
                         (Db.Statement "upsertRules" Some) 2000 3000 3500 true
                         H Hd eq_refl Hdue))).
Defined.


(** *** The handlers *)



Lemma read_after_mutation_witness :
  Db.db (state_of (Db.run (Db.Statement "upsertRules" Some) 2000 (Server.db Sample.world)))
  = Some Sample.fresh
  ∧ Server.stored_version "rules"
      (state_of (Server.put_rules None Some Sample.stamp 2000 Sample.world)) = 1.
Proof.
  assert (Hw : Db.run (Db.Statement "upsertRules" Some) 2000 (Server.db Sample.world)
               = (Ok tt, state_of (Db.run (Db.Statement "upsertRules" Some) 2000
                                     (Server.db Sample.world)),
                  trace_of (Db.run (Db.Statement "upsertRules" Some) 2000
                              (Server.db Sample.world))))
    by (vm_compute; reflexivity).
  assert (Hd : Db.db (state_of (Db.run (Db.Statement "upsertRules" Some) 2000
                                  (Server.db Sample.world)))
               = Some Sample.fresh) by (vm_compute; reflexivity).
  assert (Hr : Db.data_versions Sample.fresh !! "rules"%string = Some (Db.Row 0 Sample.stamp))
    by (vm_compute; reflexivity).
  split; [exact Hd|].
  exact (proj1 (read_after_mutation "rules" (Db.run (Db.Statement "upsertRules" Some) 2000)
                  Sample.stamp 2000 Sample.world _ _ _ Sample.fresh
                  "private, max-age=60" (λ _ : unit, JNull) None 2500
                  Hw Hd Hr (or_introl eq_refl))).
Defined.

Lemma mutation_failure_witness :
  Db.db (Server.db Sample.world) = Some Sample.fresh
  ∧ Server.post_raffle None (λ _, None) Sample.stamp 2000 Sample.world
    = (Ok (Server.Response 500 [] (Some (JObj [("success"%string, JBool false)]))),
       Sample.world, []).
Proof.
  assert (Hd : Db.db (Server.db Sample.world) = Some Sample.fresh) by (vm_compute; reflexivity).
  split; [exact Hd|].
  pose proof (mutation_failure "raffles" None
                (Db.run (Db.Statement "insertRaffle" (λ _ : unit, None)) 2000)
                Sample.stamp 2000 Sample.world) as (_ & _ & Hone & _).
  exact (Hone eq_refl "insertRaffle"%string (λ _, None) Sample.fresh eq_refl Hd eq_refl).
Defined.


Lemma get_events_spec_witness :
  Hub.isAtCapacity (Server.sseManager Sample.world) = false
  ∧ Hub.clients (Server.sseManager (state_of (Server.get_events 4 Sample.world)))
    = [1; 2; 3; 4]%nat.
Proof.
  assert (Hcap : Hub.isAtCapacity (Server.sseManager Sample.world) = false) by reflexivity.
  assert (Hd : Db.db (Server.db Sample.world) = Some Sample.fresh) by (vm_compute; reflexivity).
  assert (Hnew : 4%nat ∉ Hub.clients (Server.sseManager Sample.world))
    by (apply (bool_decide_unpack _); vm_compute; exact I).
  split; [exact Hcap|].
  pose proof (get_events_spec 4 Sample.world) as (_ & Hroom).
  destruct (Hroom Hcap Sample.good Sample.fresh eq_refl eq_refl Hnew Hd)
    as (_ & _ & _ & _ & Hclients & _).
  exact Hclients.
Defined.

(** *** The authentication cache *)


Lemma authenticated_evicts_oldest_witness :
  NoDup (fst <$> [("a"%string, 10)])
  ∧ state_of (Auth.authenticated 5 "b" true [("a"%string, 10)])
    = [("a"%string, 10); ("b"%string, 300005)].
Proof.
  assert (Hnd : NoDup (fst <$> [("a"%string, 10)])) by (apply NoDup_singleton).
  assert (Hnew : "b"%string ∉ fst <$> [("a"%string, 10)]).
  { simpl. rewrite list_elem_of_singleton. discriminate. }
  split; [exact Hnd|].
  pose proof (authenticated_evicts_oldest 5 "b"%string [("a"%string, 10)] Hnd Hnew)
    as (_ & _ & Hroom & _).
  apply Hroom. simpl. lia.
Defined.

End Scenarios.
